(** * gantt-plan: lane packing, date normalisation, zoom and view composition

    A shallow embedding of the computational core of [src/App.tsx]
    (a production-plan Gantt chart) together with the properties its
    specification states about it.

    Conventions of the embedding.
    - An instant is the time value of a valid JavaScript [Date]: an integer
      number of milliseconds since the epoch, a [Z].  [+t.start] and
      [+t.end] read that number.  A [Task] has valid dates; the functions
      on [Task] are the code on such tasks.
    - [allTasks] lets a row with an Invalid Date through.  The tasks as it
      builds them are [RowTask], and module [Js] has the functions that
      sort or compare dates on them, with NaN for the time value of an
      Invalid Date; on valid dates they agree with the functions on
      [Task].
    - Pixel coordinates and scales that the code computes with fractional
      arithmetic are rationals ([Q]); integers are injected with [inject_Z].
    - [Array.prototype.sort] is stable, and the comparator
      [(a, b) => +a.start - +b.start] is a consistent order on instants, so
      on tasks with valid dates the sort is the (unique) stable sort by
      [start].  With a start that is NaN the comparator is not consistent
      and the order is the engine's: in [Js] the sort is a parameter.
    - Arrays are lists; [laneEnds[i] = v] is stdpp's list insert and
      [push] appends at the end. *)

From Stdlib Require Import ZArith QArith Qround Qminmax Lia Lqa Ascii String.
From Stdlib Require Import Uint63 PrimFloat.
From stdpp Require Import base list strings gmap sorting.

Local Open Scope Z_scope.

(** ** Data model *)

(** The canonical task built by [allTasks] from a row with valid dates:
    [{ id, resource, start, end, qty }], with [id] as [taskId] and [end] as
    [end_] (the [_raw] row is not read by any function embedded here).
    [RowTask] below is the task whose dates may be invalid. *)
Record Task := mkTask {
  taskId : string;
  resource : string;
  start : Z;
  end_ : Z;
  qty : option Z
}.

(** [{ ...t, lane }] *)
Record LanedTask := mkLaned {
  task : Task;
  lane : nat
}.

(** ** Sorting by start

    [[...tasks].sort((a, b) => +a.start - +b.start)] on tasks with valid
    dates: the stable sort. *)

Fixpoint insertByStart (t : Task) (l : list Task) : list Task :=
  match l with
  | [] => [t]
  | u :: r => if start t <=? start u then t :: u :: r
              else u :: insertByStart t r
  end.

Definition sortByStart (l : list Task) : list Task :=
  foldr insertByStart [] l.

(** ** Lane packing *)

Definition EPS : Z := 60000.

(** The inner [for] of [packLanes]: the first index [i] (counted from
    [i0]) with [+t.start >= laneEnds[i] - EPS]; [None] is [lane === -1]. *)
Fixpoint findLane (laneEnds : list Z) (s : Z) (i0 : nat) : option nat :=
  match laneEnds with
  | [] => None
  | e :: rest => if s >=? e - EPS then Some i0 else findLane rest s (S i0)
  end.

(** The state threaded through the outer loop: [laneEnds] and [placed]. *)
Record PackState := mkPack {
  laneEnds : list Z;
  placed : list LanedTask
}.

(** One iteration of the outer [for (const t of sorted)]. *)
Definition placeTask (st : PackState) (t : Task) : PackState :=
  match findLane (laneEnds st) (start t) 0 with
  | None =>
      mkPack (laneEnds st ++ [end_ t])
             (placed st ++ [mkLaned t (length (laneEnds st))])
  | Some i =>
      mkPack (<[i := end_ t]> (laneEnds st))
             (placed st ++ [mkLaned t i])
  end.

Definition packLoop (sorted : list Task) (st : PackState) : PackState :=
  foldl placeTask st sorted.

(** The result [{ placed, laneCount: laneEnds.length || 1 }]. *)
Record Packed := mkPacked {
  placedTasks : list LanedTask;
  laneCount : nat
}.

Definition packLanes (tasks : list Task) : Packed :=
  let st := packLoop (sortByStart tasks) (mkPack [] []) in
  mkPacked (placed st)
           (if Nat.eqb (length (laneEnds st)) 0 then 1%nat
            else length (laneEnds st)).

(** ** Dates: [toDate] *)

(** A JavaScript [Date]: a time value in milliseconds, or [NaN]
    ("Invalid Date"). *)
Inductive JsDate :=
| ValidDate (ms : Z)
| InvalidDate.

(** [new Date(n)] for a number keeps [n] when it lies in the range of time
    values (at most 8.64e15 ms from the epoch) and is [NaN] otherwise. *)
Definition maxTimeValue : Z := 8640000000000000.

Definition newDate (n : Z) : JsDate :=
  if Z.abs n <=? maxTimeValue then ValidDate n else InvalidDate.

(** A cell of a parsed row, by the cases [toDate] distinguishes:
    [val instanceof Date], [typeof val === "number"] (whole numbers),
    [typeof val === "string"], anything else. *)
Inductive CellValue :=
| VDate (d : JsDate)
| VNumber (n : Z)
| VString (s : string)
| VOther.

(** A calendar reading: year, month (1 to 12), day of month, hours,
    minutes. *)
Record Civil := mkCivil {
  year : Z;
  month : Z;
  day : Z;
  hours : Z;
  minutes : Z
}.

(** *** The date-fns [parse] of the formats in [fmts]

    The library is not part of the repository; this is a model of its
    documented behaviour for the tokens the source uses ([dd], [MM],
    [yyyy], [HH], [H], [mm]) and for literal characters.  A numeric token
    of length [n >= 2] reads one to [n] digits, [H] reads an hour the way the
    pattern [2[0-3]|[0-1]?\d] does, a literal character must be next in the
    input, only white space may remain at the end, and the fields must form
    an existing calendar date and time of day.  Fields a format does not
    mention are midnight. *)

Inductive FormatToken :=
| Field (letter : ascii) (count : nat)
| Literal (c : ascii).

Definition isFieldLetter (c : ascii) : bool :=
  (c =? "d")%char || (c =? "M")%char || (c =? "y")%char
  || (c =? "H")%char || (c =? "m")%char.

Definition tokenOfChar (c : ascii) : FormatToken :=
  if isFieldLetter c then Field c 1 else Literal c.

Fixpoint tokenize (fmt : string) : list FormatToken :=
  match fmt with
  | EmptyString => []
  | String c r =>
      match tokenize r with
      | Field c' n :: ts =>
          if isFieldLetter c && (c =? c')%char then Field c (S n) :: ts
          else tokenOfChar c :: Field c' n :: ts
      | ts => tokenOfChar c :: ts
      end
  end.

Definition isDigit (c : ascii) : bool :=
  (48 <=? Z.of_nat (nat_of_ascii c)) && (Z.of_nat (nat_of_ascii c) <=? 57).

Definition digitValue (c : ascii) : Z := Z.of_nat (nat_of_ascii c) - 48.

(** At most [n] further digits, accumulated in [acc]. *)
Fixpoint takeDigits (n : nat) (acc : Z) (s : string) : Z * string :=
  match n, s with
  | S n', String c r =>
      if isDigit c then takeDigits n' (acc * 10 + digitValue c) r
      else (acc, s)
  | _, _ => (acc, s)
  end.

(** One to [n] digits. *)
Definition parseNDigits (n : nat) (s : string) : option (Z * string) :=
  match n, s with
  | S n', String c r =>
      if isDigit c then Some (takeDigits n' (digitValue c) r) else None
  | _, _ => None
  end.

(** [2[0-3]|[0-1]?\d] *)
Definition parseHour23 (s : string) : option (Z * string) :=
  match s with
  | String c1 (String c2 r) =>
      if (c1 =? "2")%char && isDigit c2 && (digitValue c2 <=? 3)
      then Some (20 + digitValue c2, r)
      else if ((c1 =? "0")%char || (c1 =? "1")%char) && isDigit c2
      then Some (digitValue c1 * 10 + digitValue c2, r)
      else if isDigit c1 then Some (digitValue c1, String c2 r)
      else None
  | String c1 EmptyString =>
      if isDigit c1 then Some (digitValue c1, EmptyString) else None
  | EmptyString => None
  end.

(** The fields read so far. *)
Record Fields := mkFields {
  fYear : option Z;
  fMonth : option Z;
  fDay : option Z;
  fHours : option Z;
  fMinutes : option Z
}.

Definition noFields : Fields := mkFields None None None None None.

(** The digits a token reads: [yyyy], [MM], [dd], [HH], [H], [mm]. *)
Definition parseField (letter : ascii) (count : nat) (s : string)
    : option (Z * string) :=
  if (letter =? "y")%char && Nat.eqb count 4 then parseNDigits 4 s
  else if (letter =? "M")%char && Nat.eqb count 2 then parseNDigits 2 s
  else if (letter =? "d")%char && Nat.eqb count 2 then parseNDigits 2 s
  else if (letter =? "H")%char && Nat.eqb count 2 then parseNDigits 2 s
  else if (letter =? "H")%char && Nat.eqb count 1 then parseHour23 s
  else if (letter =? "m")%char && Nat.eqb count 2 then parseNDigits 2 s
  else None.

Definition setField (letter : ascii) (v : Z) (acc : Fields) : Fields :=
  if (letter =? "y")%char then
    mkFields (Some v) (fMonth acc) (fDay acc) (fHours acc) (fMinutes acc)
  else if (letter =? "M")%char then
    mkFields (fYear acc) (Some v) (fDay acc) (fHours acc) (fMinutes acc)
  else if (letter =? "d")%char then
    mkFields (fYear acc) (fMonth acc) (Some v) (fHours acc) (fMinutes acc)
  else if (letter =? "H")%char then
    mkFields (fYear acc) (fMonth acc) (fDay acc) (Some v) (fMinutes acc)
  else if (letter =? "m")%char then
    mkFields (fYear acc) (fMonth acc) (fDay acc) (fHours acc) (Some v)
  else acc.

Definition readField (letter : ascii) (count : nat) (s : string)
    (acc : Fields) : option (Fields * string) :=
  match parseField letter count s with
  | Some (v, rest) => Some (setField letter v acc, rest)
  | None => None
  end.

Definition isWhiteSpace (c : ascii) : bool :=
  let n := Z.of_nat (nat_of_ascii c) in
  ((9 <=? n) && (n <=? 13)) || (n =? 32).

Fixpoint allWhiteSpace (s : string) : bool :=
  match s with
  | EmptyString => true
  | String c r => isWhiteSpace c && allWhiteSpace r
  end.

Fixpoint readTokens (ts : list FormatToken) (s : string) (acc : Fields)
    : option Fields :=
  match ts with
  | [] => if allWhiteSpace s then Some acc else None
  | Literal c :: ts' =>
      match s with
      | String c' r => if (c =? c')%char then readTokens ts' r acc else None
      | EmptyString => None
      end
  | Field letter count :: ts' =>
      match readField letter count s acc with
      | Some (acc', r) => readTokens ts' r acc'
      | None => None
      end
  end.

Definition isLeapYear (y : Z) : bool :=
  ((y mod 4 =? 0) && negb (y mod 100 =? 0)) || (y mod 400 =? 0).

Definition daysInMonth (y m : Z) : Z :=
  if m =? 2 then (if isLeapYear y then 29 else 28)
  else if (m =? 4) || (m =? 6) || (m =? 9) || (m =? 11) then 30
  else 31.

Definition validCivil (c : Civil) : bool :=
  (0 <? year c)
  && (1 <=? month c) && (month c <=? 12)
  && (1 <=? day c) && (day c <=? daysInMonth (year c) (month c))
  && (0 <=? hours c) && (hours c <=? 23)
  && (0 <=? minutes c) && (minutes c <=? 59).

(** [parseDateFns(val, f, new Date(), { locale: pl })] followed by
    [isValid]: the calendar reading of a valid result, [None] for an invalid
    one.  Every format of [fmts] names year, month and day, so the
    reference date contributes nothing. *)
Definition parseDateFns (val fmt : string) : option Civil :=
  match readTokens (tokenize fmt) val noFields with
  | Some (mkFields (Some y) (Some m) (Some d) h mi) =>
      let c := mkCivil y m d (default 0 h) (default 0 mi) in
      if validCivil c then Some c else None
  | _ => None
  end.

Definition fmts : list string :=
  [ "dd.MM.yyyy HH:mm";
    "dd.MM.yyyy H:mm";
    "dd.MM.yyyy";
    "yyyy-MM-dd HH:mm";
    "yyyy-MM-dd H:mm";
    "yyyy/MM/dd HH:mm";
    "yyyy/MM/dd";
    "dd/MM/yyyy HH:mm";
    "dd/MM/yyyy" ]%string.

Section ToDate.
(** The host's part of date handling: [new Date(val)] for a string (whose
    accepted formats beyond ISO 8601 are left to the JavaScript engine),
    and the time value of a calendar reading in the local time zone. *)
Variable nativeParse : string -> JsDate.
Variable localTime : Civil -> Z.

(** [for (const f of fmts) { ...; if (isValid(d)) return d; }] *)
Fixpoint firstValid (val : string) (fs : list string) : option JsDate :=
  match fs with
  | [] => None
  | f :: rest =>
      match parseDateFns val f with
      | Some c => Some (ValidDate (localTime c))
      | None => firstValid val rest
      end
  end.

(** [toDate]; [None] is the [null] result. *)
Definition toDate (val : CellValue) : option JsDate :=
  match val with
  | VDate d => Some d
  | VNumber n =>
      if n <? 10000000000 then Some (newDate (n * 1000))
      else Some (newDate n)
  | VString s =>
      match nativeParse s with
      | ValidDate ms => Some (ValidDate ms)
      | InvalidDate => firstValid s fmts
      end
  | VOther => None
  end.
End ToDate.

(** *** Reading instants as calendar dates

    The proleptic Gregorian calendar in UTC, used to name instants in
    statements (the source leaves this to [Date]). *)

Definition daysFromCivil (y m d : Z) : Z :=
  let y' := if m <=? 2 then y - 1 else y in
  let era := y' / 400 in
  let yoe := y' - era * 400 in
  let mp := (m + 9) mod 12 in
  let doy := (153 * mp + 2) / 5 + d - 1 in
  let doe := yoe * 365 + yoe / 4 - yoe / 100 + doy in
  era * 146097 + doe - 719468.

Definition utcTime (c : Civil) : Z :=
  daysFromCivil (year c) (month c) (day c) * 86400000
  + hours c * 3600000 + minutes c * 60000.

Definition utcCivil (ms : Z) : Civil :=
  let z := ms / 86400000 + 719468 in
  let era := z / 146097 in
  let doe := z - era * 146097 in
  let yoe := (doe - doe / 1460 + doe / 36524 - doe / 146096) / 365 in
  let doy := doe - (365 * yoe + yoe / 4 - yoe / 100) in
  let mp := (5 * doy + 2) / 153 in
  let d := doy - (153 * mp + 2) / 5 + 1 in
  let m := if mp <? 10 then mp + 3 else mp - 9 in
  let y := yoe + era * 400 + (if m <=? 2 then 1 else 0) in
  let rem := ms mod 86400000 in
  mkCivil y m d (rem / 3600000) (rem mod 3600000 / 60000).

(** ** Coordinate mapping and zoom: [handleWheel] *)

Local Open Scope Q_scope.

(** [(pxPerHour || 1) / 3_600_000] *)
Definition pxPerMsOf (pxPerHour : Z) : Q :=
  inject_Z (if (pxPerHour =? 0)%Z then 1%Z else pxPerHour) / 3600000.

(** time to pixel, [(t - computedMinMax.min) * pxPerMs] *)
Definition timeToPixel (origin : Z) (pxPerMs : Q) (t : Q) : Q :=
  (t - inject_Z origin) * pxPerMs.

(** pixel to time, [computedMinMax.min + x / pxPerMs] *)
Definition pixelToTime (origin : Z) (pxPerMs : Q) (x : Q) : Q :=
  inject_Z origin + x / pxPerMs.

(** [Math.round]: the nearest integer, halves upwards. *)
Definition mathRound (q : Q) : Z := Qfloor (q + (1 # 2)).

(** [e.deltaY > 0 ? 0.9 : 1.1] *)
Definition zoomFactor (deltaY : Q) : Q :=
  if Qlt_le_dec 0 deltaY then 9 # 10 else 11 # 10.

(** [Math.max(30, Math.min(300, Math.round(pxPerHour * factor)))] *)
Definition nextScale (pxPerHour : Z) (deltaY : Q) : Z :=
  Z.max 30 (Z.min 300 (mathRound (inject_Z pxPerHour * zoomFactor deltaY))).

(** What [handleWheel] reads from the event and from the scroll container
    ([scrollRef.current], absent before the first render). *)
Record WheelEvent := mkWheel {
  ctrlKey : bool;
  clientX : Q;
  deltaY : Q
}.

Record Container := mkContainer {
  rectLeft : Q;
  scrollLeft : Q
}.

(** What a wheel event may change: the scale state and the scroll offset
    of the container. *)
Record ZoomState := mkZoom {
  pxPerHour : Z;
  container : option Container
}.

Definition xRelOf (e : WheelEvent) (c : Container) : Q :=
  clientX e - rectLeft c.

Definition anchorTimeOf (origin : Z) (e : WheelEvent) (c : Container)
    (pxPerHour : Z) : Q :=
  pixelToTime origin (pxPerMsOf pxPerHour) (xRelOf e c + scrollLeft c).

Definition newScrollLeftOf (origin : Z) (e : WheelEvent) (c : Container)
    (pxPerHour next : Z) : Q :=
  let anchorTime := anchorTimeOf origin e c pxPerHour in
  let pxPerMsNext := inject_Z next / 3600000 in
  let anchorXNext := timeToPixel origin pxPerMsNext anchorTime in
  Qmax 0 (anchorXNext - xRelOf e c).

(** [handleWheel], with [origin] the current [computedMinMax.min]. *)
Definition handleWheel (origin : Z) (e : WheelEvent) (st : ZoomState)
    : ZoomState :=
  match container st with
  | None => st
  | Some c =>
      if negb (ctrlKey e) then st
      else
        let next := nextScale (pxPerHour st) (deltaY e) in
        if (next =? pxPerHour st)%Z then st
        else
          mkZoom next
            (Some (mkContainer (rectLeft c)
                     (newScrollLeftOf origin e c (pxPerHour st) next)))
  end.

(** ** Row geometry: bar width and height in [lanedByMachine] *)

Definition baseLane : Z := 26.

(** [Math.max(4, (+p.end - +p.start) * pxPerMs)] *)
Definition barWidth (pxPerMs : Q) (p : Task) : Q :=
  Qmax 4 (inject_Z (end_ p - start p) * pxPerMs).

(** [w > 220 ? 40 : w > 120 ? 32 : baseLane] *)
Definition barHeight (w : Q) : Z :=
  if Qlt_le_dec 220 w then 40%Z
  else if Qlt_le_dec 120 w then 32%Z
  else baseLane.

Definition taskBarHeight (pxPerMs : Q) (p : Task) : Z :=
  barHeight (barWidth pxPerMs p).

Local Close Scope Q_scope.

(** ** View composition: [routeTasks] and [filtered] *)

(** [s.includes(sub)] *)
Fixpoint includes (s sub : string) : bool :=
  String.prefix sub s
  || match s with
     | EmptyString => false
     | String _ r => includes r sub
     end.

(** The ASCII part of [toLowerCase] and [trim], for evaluating examples. *)
Definition asciiLowerChar (c : ascii) : ascii :=
  let n := nat_of_ascii c in
  if ((65 <=? n) && (n <=? 90))%nat then ascii_of_nat (n + 32) else c.

Fixpoint asciiLower (s : string) : string :=
  match s with
  | EmptyString => EmptyString
  | String c r => String (asciiLowerChar c) (asciiLower r)
  end.

Fixpoint trimStart (s : string) : string :=
  match s with
  | String c r => if isWhiteSpace c then trimStart r else s
  | EmptyString => EmptyString
  end.

Fixpoint trimEnd (s : string) : string :=
  match s with
  | EmptyString => EmptyString
  | String c r =>
      match trimEnd r with
      | EmptyString => if isWhiteSpace c then EmptyString
                       else String c EmptyString
      | r' => String c r'
      end
  end.

Definition asciiTrim (s : string) : string := trimEnd (trimStart s).

Definition isEmptyString (s : string) : bool :=
  match s with
  | EmptyString => true
  | _ => false
  end.

Definition isEmptyList {A} (l : list A) : bool :=
  match l with
  | [] => true
  | _ => false
  end.

(** [{ min, max }], the time domain with both ends numbers. *)
Record MinMax := mkMinMax {
  min : Z;
  max : Z
}.

Section View.
(** [String.prototype.toLowerCase] and [String.prototype.trim]. *)
Variable toLowerCase : string -> string.
Variable trim : string -> string.

Definition exactMatch (q : string) (t : Task) : bool :=
  String.eqb (toLowerCase (taskId t)) (toLowerCase q).

Definition partMatch (q : string) (t : Task) : bool :=
  includes (toLowerCase (taskId t)) (toLowerCase q).

Definition routeTasks (allTasks : list Task) (query : string)
    : list Task :=
  let q := trim query in
  if isEmptyString q then []
  else
    let exact := List.filter (exactMatch q) allTasks in
    if negb (isEmptyList exact) then sortByStart exact
    else
      let part := List.filter (partMatch q) allTasks in
      sortByStart part.

(** [intersects], with [None] for a [null] bound. *)
Definition intersects (timeFrom timeTo : option Z) (t : Task) : bool :=
  if match timeFrom with
     | Some f => end_ t <=? f
     | None => false
     end
  then false
  else if match timeTo with
          | Some u => start t >=? u
          | None => false
          end
  then false
  else true.

Definition filtered (allTasks : list Task) (query : string)
    (selectedMachines : gset string) (timeFrom timeTo : option Z)
    : list Task :=
  let route := routeTasks allTasks query in
  let base := if negb (isEmptyList route) then route else allTasks in
  let base :=
    if (0 <? size selectedMachines)%nat
    then List.filter (fun t => bool_decide (resource t ∈ selectedMachines))
                     base
    else base in
  let base :=
    if isEmptyList route && negb (isEmptyString query)
    then List.filter (partMatch query) base
    else base in
  List.filter (intersects timeFrom timeTo) base.
End View.

(** ** The same arithmetic in binary64

    JavaScript numbers are binary64 floating-point numbers.  The
    definitions above compute pixels over the rationals; the following ones
    repeat the expressions of the source with the floating-point
    operations, to evaluate them on concrete inputs. *)

Definition float_of_Z (n : Z) : float := PrimFloat.of_uint63 (Uint63.of_Z n).

(** [0.9] and [1.1], that is, the binary64 numbers nearest to them. *)
Definition factor64 (zoomOut : bool) : float :=
  if zoomOut then 0x1.ccccccccccccdp-1%float else 0x1.199999999999ap+0%float.

(** [Math.round(x)] is [n]: [n] is the integer nearest to [x], the larger
    one of two equally near. *)
Definition isMathRound64 (x : float) (n : Z) : bool :=
  (PrimFloat.leb (float_of_Z n - 0.5) x
   && PrimFloat.ltb x (float_of_Z n + 0.5))%float.

(** [Math.max] of two numbers (neither [NaN]). *)
Definition max64 (a b : float) : float :=
  if PrimFloat.ltb a b then b else a.

Definition pxPerMs64 (pxPerHour : float) : float :=
  ((if PrimFloat.eqb pxPerHour 0 then 1 else pxPerHour) / 3600000)%float.

Definition timeToPixel64 (origin pxPerMs t : float) : float :=
  ((t - origin) * pxPerMs)%float.

Definition pixelToTime64 (origin pxPerMs x : float) : float :=
  (origin + x / pxPerMs)%float.

(** The scroll offset [handleWheel] emits, from [xRel], the current scroll
    offset and the two scales. *)
Definition newScrollLeft64 (origin xRel scroll pxPerHour next : float)
    : float :=
  let anchorTime :=
    pixelToTime64 origin (pxPerMs64 pxPerHour) (xRel + scroll)%float in
  let anchorXNext :=
    timeToPixel64 origin (next / 3600000)%float anchorTime in
  max64 0 (anchorXNext - xRel)%float.

Definition barWidth64 (pxPerMs taskStart taskEnd : float) : float :=
  max64 4 ((taskEnd - taskStart) * pxPerMs)%float.

Definition barHeight64 (w : float) : float :=
  (if PrimFloat.ltb 220 w then 40
   else if PrimFloat.ltb 120 w then 32
   else 26)%float.

(** The scales 30, 31, ..., 300. *)
Definition scales : list Z := List.map Z.of_nat (List.seq 30 271).

(** ** Rows and lanes: [lanedByMachine] *)

Definition laneGap : Z := 6.
Definition rowPadY : Z := 10.

(** A JavaScript array of numbers that may have holes: [None] is a hole,
    and reading a hole or past the end gives [undefined]. *)
Definition jsGet (a : list (option Z)) (i : nat) : option Z :=
  mjoin (a !! i).

(** [a[i] = v]: inside the array the element is replaced; at or past the
    end the array grows, with holes between the old end and [i]. *)
Definition jsSet (i : nat) (v : Z) (a : list (option Z)) : list (option Z) :=
  if (i <? length a)%nat then <[i := Some v]> a
  else a ++ replicate (i - length a) None ++ [Some v].

(** [x || fallback] for a number or [undefined]. *)
Definition orElse (x : option Z) (fallback : Z) : Z :=
  match x with
  | Some v => if v =? 0 then fallback else v
  | None => fallback
  end.

(** The groups of [lanedByMachine], a [Map] from resource to the tasks of
    that resource: the entries in the order the keys were first set. *)
Fixpoint pushToGroup (res : string) (t : Task)
    (groups : list (string * list Task)) : list (string * list Task) :=
  match groups with
  | [] => [(res, [t])]
  | (r, arr) :: rest =>
      if String.eqb r res then (r, arr ++ [t]) :: rest
      else (r, arr) :: pushToGroup res t rest
  end.

(** [for (const t of filtered) { if (!groups.has(t.resource))
    groups.set(t.resource, []); groups.get(t.resource).push(t); }] *)
Definition groupByResource (filtered : list Task)
    : list (string * list Task) :=
  foldl (fun groups t => pushToGroup (resource t) t groups) [] filtered.

(** One iteration of [for (const p of placed)]:
    [laneHeights[p.lane] = Math.max(laneHeights[p.lane] || baseLane, h)]. *)
Definition raiseLane (pxPerMs : Q) (laneHeights : list (option Z))
    (p : LanedTask) : list (option Z) :=
  let h := barHeight (barWidth pxPerMs (task p)) in
  jsSet (lane p) (Z.max (orElse (jsGet laneHeights (lane p)) baseLane) h)
        laneHeights.

Definition laneHeightsOf (pxPerMs : Q) (placed : list LanedTask)
    : list (option Z) :=
  foldl (raiseLane pxPerMs) [] placed.

(** [for (let i = 0; i < n; i++) { laneTops[i] = acc;
    acc += (laneHeights[i] || baseLane) + laneGap; }], started at index [i]
    with [n] iterations to go; the result is [laneTops] and the final
    [acc]. *)
Fixpoint stackLanes (n i : nat) (laneHeights : list (option Z))
    (laneTops : list (option Z)) (acc : Z) : list (option Z) * Z :=
  match n with
  | O => (laneTops, acc)
  | S n' =>
      stackLanes n' (S i) laneHeights (jsSet i acc laneTops)
        (acc + orElse (jsGet laneHeights i) baseLane + laneGap)
  end.

(** [{ tasks: placed, laneHeights, laneTops, totalHeight }] *)
Record Layout := mkLayout {
  tasks : list LanedTask;
  laneHeights : list (option Z);
  laneTops : list (option Z);
  totalHeight : Z
}.

(** The body of [for (const [res, arr] of groups)]. *)
Definition layoutOf (pxPerMs : Q) (arr : list Task) : Layout :=
  let placed := placedTasks (packLanes arr) in
  let laneHeights := laneHeightsOf pxPerMs placed in
  let n := if Nat.eqb (length laneHeights) 0 then 1%nat
           else length laneHeights in
  let '(laneTops, acc) := stackLanes n 0 laneHeights [] rowPadY in
  mkLayout placed laneHeights laneTops (acc - laneGap + rowPadY).

(** The same loop with the bar width as the engine computes it:
    [widthOf p] stands for [Math.max(4, (+p.end - +p.start) * pxPerMs)],
    a binary64 product; [barWidth pxPerMs] is its value in exact
    arithmetic, and [layoutOf pxPerMs] is [layoutBy (barWidth pxPerMs)]. *)
Section LayoutBy.
Variable widthOf : Task → Q.

Definition raiseLaneBy (laneHeights : list (option Z)) (p : LanedTask)
    : list (option Z) :=
  let h := barHeight (widthOf (task p)) in
  jsSet (lane p) (Z.max (orElse (jsGet laneHeights (lane p)) baseLane) h)
        laneHeights.

Definition laneHeightsBy (placed : list LanedTask) : list (option Z) :=
  foldl raiseLaneBy [] placed.

Definition layoutBy (arr : list Task) : Layout :=
  let placed := placedTasks (packLanes arr) in
  let laneHeights := laneHeightsBy placed in
  let n := if Nat.eqb (length laneHeights) 0 then 1%nat
           else length laneHeights in
  let '(laneTops, acc) := stackLanes n 0 laneHeights [] rowPadY in
  mkLayout placed laneHeights laneTops (acc - laneGap + rowPadY).
End LayoutBy.

(** [lanedByMachine], a [Map] from resource to layout, in the order of its
    entries. *)
Definition lanedByMachine (filtered : list Task) (pxPerMs : Q)
    : list (string * Layout) :=
  List.map (fun '(res, arr) => (res, layoutOf pxPerMs arr))
           (groupByResource filtered).

(** [map.get(key)] on the entries of a [Map] with distinct keys. *)
Fixpoint mapGet {V} (entries : list (string * V)) (key : string)
    : option V :=
  match entries with
  | [] => None
  | (k, v) :: rest => if String.eqb k key then Some v else mapGet rest key
  end.

(** The vertical extent of a bar inside its row, as the renderer computes
    it: [layout.laneTops[task.lane] || rowPadY] and
    [layout.laneHeights[task.lane] || baseLane]. *)
Definition barTop (layout : Layout) (p : LanedTask) : Z :=
  orElse (jsGet (laneTops layout) (lane p)) rowPadY.

Definition barH (layout : Layout) (p : LanedTask) : Z :=
  orElse (jsGet (laneHeights layout) (lane p)) baseLane.

(** [Array.from(new Set(l))]: the elements of [l] without repetition, each
    at its first occurrence. *)
Definition addUnique (seen : list string) (x : string) : list string :=
  if bool_decide (x ∈ seen) then seen else seen ++ [x].

Definition uniqueInOrder (l : list string) : list string :=
  foldl addUnique [] l.

(** The height a task's bar asks for. *)
Definition ownHeight (pxPerMs : Q) (p : LanedTask) : Z :=
  barHeight (barWidth pxPerMs (task p)).

(** Lane indices come up in order: before a task in lane [l] there is a
    task in every lane below [l]. *)
Definition lanesInOrder (pl : list LanedTask) : Prop :=
  ∀ j q l, pl !! j = Some q → (l < lane q)%nat →
    ∃ i p, (i < j)%nat ∧ pl !! i = Some p ∧ lane p = l.

(** What [laneHeights] holds for the placed tasks [pl]: no holes, one
    entry per lane in use, each the greatest height asked for in the lane
    and at least [baseLane]. *)
Definition laneHeightsFit (pxPerMs : Q) (pl : list LanedTask)
    (lh : list (option Z)) : Prop :=
  (∀ l, (l < length lh)%nat ↔ ∃ p, p ∈ pl ∧ lane p = l)
  ∧ ∀ l, (l < length lh)%nat →
      ∃ h, lh !! l = Some (Some h)
           ∧ (h = 26 ∨ h = 32 ∨ h = 40)
           ∧ (∀ p, p ∈ pl → lane p = l → ownHeight pxPerMs p <= h)
           ∧ (h = baseLane
              ∨ ∃ p, p ∈ pl ∧ lane p = l ∧ ownHeight pxPerMs p = h).

(** The height of the lanes [i], ..., [i + k - 1] with the gap under
    each. *)
Fixpoint laneOffset (laneHeights : list (option Z)) (i k : nat) : Z :=
  match k with
  | O => 0
  | S k' => orElse (jsGet laneHeights i) baseLane + laneGap
            + laneOffset laneHeights (S i) k'
  end.

(** ** Which machines are rendered, and where *)

Section Machines.
(** [list.sort((a, b) => a.localeCompare(b, "pl", { numeric: true }))]:
    the collation belongs to the host. *)
Variable localeSort : list string → list string.

(** [machinesAll] *)
Definition machinesAll (allTasks : list Task) : list string :=
  localeSort (uniqueInOrder (resource <$> allTasks)).
End Machines.

(** [routeMachines] *)
Definition routeMachines (routeTasks : list Task) : list string :=
  uniqueInOrder (resource <$> routeTasks).

(** [machinesToRender]; [selected] is [Array.from(selectedMachines)], the
    elements of the set in the order they were added. *)
Definition machinesToRender (machinesAll selected : list string)
    (routeTasks : list Task) (routeMachines : list string) : list string :=
  if negb (isEmptyList routeTasks) then routeMachines
  else if negb (isEmptyList selected)
  then List.filter (λ m, bool_decide (m ∈ machinesAll)) selected
  else machinesAll.

(** [map.set(key, v)] on the entries of a [Map]. *)
Fixpoint mapSet {V} (key : string) (v : V) (entries : list (string * V))
    : list (string * V) :=
  match entries with
  | [] => [(key, v)]
  | (k, x) :: rest =>
      if String.eqb k key then (k, v) :: rest
      else (k, x) :: mapSet key v rest
  end.

(** [rowPadY*2 + baseLane], the height of a row without layout. *)
Definition emptyRowHeight : Z := rowPadY * 2 + baseLane.

(** [rowHeights] *)
Definition rowHeights (machinesToRender : list string)
    (lanedByMachine : list (string * Layout)) : list (string * Z) :=
  foldl (λ m r,
           mapSet r (orElse (totalHeight <$> mapGet lanedByMachine r)
                            emptyRowHeight) m)
        [] machinesToRender.

(** [rowTops] *)
Definition rowTops (machinesToRender : list string)
    (rowHeights : list (string * Z)) : list (string * Z) :=
  (foldl (λ '(map, y) r,
            (mapSet r y map,
             y + orElse (mapGet rowHeights r) emptyRowHeight))
         ([], 0) machinesToRender).1.

(** [contentHeight] *)
Definition contentHeight (machinesToRender : list string)
    (rowHeights : list (string * Z)) : Z :=
  foldl (λ sum r, sum + orElse (mapGet rowHeights r) emptyRowHeight)
        0 machinesToRender.

(** The top of a bar in the chart:
    [(rowTops.get(r) || 0) + (layout.laneTops[task.lane] || rowPadY)]. *)
Definition chartTop (rowTops : list (string * Z)) (r : string)
    (layout : Layout) (p : LanedTask) : Z :=
  orElse (mapGet rowTops r) 0 + barTop layout p.

(** The sum of a list of heights. *)
Definition sumZ (l : list Z) : Z := foldr Z.add 0 l.

(** The height of the row of machine [r]: [rowHeights.get(r) || 46]. *)
Definition rowHeightOf (rowHeights : list (string * Z)) (r : string) : Z :=
  orElse (mapGet rowHeights r) emptyRowHeight.

(** ** Horizontal extent, ticks and colours *)

(** [(+task.start - computedMinMax.min) * pxPerMs] *)
Definition barLeft (mm : MinMax) (pxPerMs : Q) (t : Task) : Q :=
  timeToPixel (min mm) pxPerMs (inject_Z (start t)).

(** [Math.ceil(a / b)] for whole numbers [a] and [b > 0]. *)
Definition ceilDiv (a b : Z) : Z := - ((- a) / b).

(** [for (let t = first; t <= max; t += step) out.push(t)], with a bound
    [fuel] on the number of iterations. *)
Fixpoint ticksFrom (fuel : nat) (step t max : Z) : list Z :=
  match fuel with
  | O => []
  | S fuel' =>
      if t <=? max then t :: ticksFrom fuel' step (t + step) max else []
  end.

(** The number of iterations the loop makes from [first]. *)
Definition tickCount (step first max : Z) : nat :=
  Z.to_nat ((max - first) / step + 1).

(** [minorTicks] *)
Definition minorTicks (mm : MinMax) : list Z :=
  let step := 3600000 in
  let first := ceilDiv (min mm) step * step in
  ticksFrom (tickCount step first (max mm)) step first (max mm).

(** The hue of [colorFor]:
    [h = (h*31 + resource.charCodeAt(i)) % 360] over the code units of the
    resource name. *)
Definition colorHue (codeUnits : list Z) : Z :=
  foldl (λ h c, Z.rem (h * 31 + c) 360) 0 codeUnits.

(** ** Day ticks: [majorTicks] *)

Section MajorTicks.
(** [d0 = new Date(t); d0.setHours(0, 0, 0, 0); d0.getTime()]: the start of
    the local day of an instant, which belongs to the host's time zone. *)
Variable localMidnight : Z → Z.

(** [majorTicks] *)
Definition majorTicks (mm : MinMax) : list Z :=
  let step := 24 * 3600000 in
  let d0 := localMidnight (min mm) in
  let t := if d0 <? min mm then d0 + step else d0 in
  ticksFrom (tickCount step t (max mm)) step t (max mm).
End MajorTicks.

(** ** Export: [exportCSV] *)

(** The quotation mark, code 34. *)
Definition quoteChar : ascii := ascii_of_nat 34.

(** [String(x).replace(...)] with the pattern of all quotation marks:
    every quotation mark is doubled. *)
Fixpoint doubleQuotes (s : string) : string :=
  match s with
  | EmptyString => EmptyString
  | String c r =>
      if Ascii.eqb c quoteChar then String c (String c (doubleQuotes r))
      else String c (doubleQuotes r)
  end.

(** [Array.prototype.join] *)
Fixpoint joinWith (sep : string) (l : list string) : string :=
  match l with
  | [] => EmptyString
  | [x] => x
  | x :: r => x +:+ sep +:+ joinWith sep r
  end.

Definition csvHeader : list string :=
  [ "Order No."; "Resource"; "Start Time"; "End Time"; "Qty.";
    "Duration (min)" ]%string.

Definition newline : string := String (ascii_of_nat 10) EmptyString.

Section ExportCSV.
(** [formatPL] of an instant and [String] of a number: the host's and
    date-fns's text. *)
Variable formatPL : Z → string.
Variable numberText : Z → string.

(** [[t.id, t.resource, formatPL(t.start), formatPL(t.end), t.qty ?? '',
    Math.round((+t.end - +t.start)/60000)]] with each value as [String]
    gives it. *)
Definition csvRow (t : Task) : list string :=
  [ taskId t; resource t; formatPL (start t); formatPL (end_ t);
    match qty t with Some q => numberText q | None => EmptyString end;
    numberText (mathRound (inject_Z (end_ t - start t) / 60000)) ].

(** The text [csv] of [exportCSV]. *)
Definition csvText (filtered : list Task) : string :=
  joinWith newline
    (List.map (λ r, joinWith "," (List.map doubleQuotes r))
              (csvHeader :: List.map csvRow filtered)).
End ExportCSV.

(** ** Column detection: [detectColumn] and [pick] *)

(** [headers.find((h) => r.test(String(h)))] followed by
    [if (found) return found]: an empty header is found but not returned. *)
Definition findHeader (r : string → bool) (headers : list string)
    : option string :=
  match List.find r headers with
  | Some h => if isEmptyString h then None else Some h
  | None => None
  end.

(** [detectColumn], with [regs] the patterns [matchers[type] || []], each
    as the test it performs on a header. *)
Fixpoint detectColumn (regs : list (string → bool)) (headers : list string)
    : option string :=
  match regs with
  | [] => None
  | r :: rest =>
      match findHeader r headers with
      | Some h => Some h
      | None => detectColumn rest headers
      end
  end.

Section Pick.
Variable toLowerCase : string → string.

(** [new Map(headers.map((h) => [String(h).toLowerCase(), h]))] *)
Definition headerMap (headers : list string) : list (string * string) :=
  foldl (λ m h, mapSet (toLowerCase h) h m) [] headers.

(** [pick(wanted, type)] of [onFile]:
    [map.get(String(wanted).toLowerCase()) || detectColumn(headers, type)] *)
Definition pick (headers : list string) (wanted : string)
    (regs : list (string → bool)) : option string :=
  match mapGet (headerMap headers) (toLowerCase wanted) with
  | Some h => if isEmptyString h then detectColumn regs headers else Some h
  | None => detectColumn regs headers
  end.
End Pick.

(** ** The canonical task list: [allTasks] *)

(** A field of a parsed row as [allTasks] can tell the values apart: a
    missing key ([undefined]), [null], a boolean, a (whole) number, a
    string, a [Date]. *)
Inductive Cell :=
| CMissing
| CNull
| CBool (b : bool)
| CNumber (n : Z)
| CString (s : string)
| CDate (d : JsDate).

(** The same value by the cases of [toDate]. *)
Definition cellValue (c : Cell) : CellValue :=
  match c with
  | CNumber n => VNumber n
  | CString s => VString s
  | CDate d => VDate d
  | CMissing | CNull | CBool _ => VOther
  end.

(** A row is an object from column name to value, a [gmap string Cell];
    [r[key]] is [undefined] for a missing key. *)
Definition fieldOf (r : gmap string Cell) (key : string) : Cell :=
  default CMissing (r !! key).

(** [mapping]: for each field the column that supplies it, or [null]. *)
Record Mapping := mkMapping {
  mapId : option string;
  mapStart : option string;
  mapEnd : option string;
  mapResource : option string;
  mapQty : option string
}.

(** A column name that is set: neither [null] nor the empty string. *)
Definition isSet (key : option string) : bool :=
  match key with
  | Some k => negb (isEmptyString k)
  | None => false
  end.

(** [r[mapping.x]]; under a [null] mapping the key is the string
    ["null"]. *)
Definition mappedField (r : gmap string Cell) (key : option string) : Cell :=
  fieldOf r (default "null"%string key).

(** The task record [{ id, resource, start, end, qty, _raw }] with the
    dates as [toDate] returns them; [qty] is [null] ([None]) or the
    result of [Number], which may be [NaN] ([Some None]). *)
Record RowTask := mkRowTask {
  rowId : string;
  rowResource : string;
  rowStart : JsDate;
  rowEnd : JsDate;
  rowQty : option (option Z);
  rowRaw : gmap string Cell
}.

(** [+a <= +b] on dates: false when either is [NaN]. *)
Definition timeLe (a b : JsDate) : bool :=
  match a, b with
  | ValidDate x, ValidDate y => x <=? y
  | _, _ => false
  end.

Section AllTasks.
(** The host's part: [trim], [new Date(string)], the local time zone,
    [String] of a number and of a date, [Number], and the sort with the
    collating comparator. *)
Variable trim : string → string.
Variable nativeParse : string → JsDate.
Variable localTime : Civil → Z.
Variable numberText : Z → string.
Variable dateText : JsDate → string.
Variable toNumber : Cell → option Z.
Variable canonicalSort : list RowTask → list RowTask.

(** [String(x ?? '')] *)
Definition cellText (c : Cell) : string :=
  match c with
  | CMissing | CNull => EmptyString
  | CBool true => "true"
  | CBool false => "false"
  | CNumber n => numberText n
  | CString s => s
  | CDate d => dateText d
  end.

(** The body of [for (const r of rawRows)]: the task pushed, or [None]
    for [continue]. *)
Definition rowTask (mapping : Mapping) (r : gmap string Cell)
    : option RowTask :=
  let id := trim (cellText (mappedField r (mapId mapping))) in
  let resource := trim (cellText (mappedField r (mapResource mapping))) in
  let start :=
    toDate nativeParse localTime (cellValue (mappedField r (mapStart mapping))) in
  let end_ :=
    toDate nativeParse localTime (cellValue (mappedField r (mapEnd mapping))) in
  match start, end_ with
  | Some s, Some e =>
      if isEmptyString id || isEmptyString resource || timeLe e s then None
      else
        let qty := if isSet (mapQty mapping)
                   then Some (toNumber (mappedField r (mapQty mapping)))
                   else None in
        Some (mkRowTask id resource s e qty r)
  | _, _ => None
  end.

(** [allTasks] *)
Definition allTasksOf (rawRows : list (gmap string Cell)) (mapping : Mapping)
    : list RowTask :=
  if isEmptyList rawRows
     || negb (isSet (mapId mapping)) || negb (isSet (mapStart mapping))
     || negb (isSet (mapEnd mapping)) || negb (isSet (mapResource mapping))
  then []
  else canonicalSort (omap (rowTask mapping) rawRows).
End AllTasks.

(** ** The route overlay: [routeRects] and the connectors *)

(** [{ id, resource, start, end, left, top, width, height }] *)
Record Rect := mkRect {
  rId : string;
  rResource : string;
  rStart : Z;
  rEnd : Z;
  rLeft : Q;
  rTop : Z;
  rWidth : Q;
  rHeight : Z
}.

(** [p.id === t.id && p.resource === t.resource && +p.start === +t.start
    && +p.end === +t.end] *)
Definition sameTask (t : Task) (p : LanedTask) : bool :=
  String.eqb (taskId (task p)) (taskId t)
  && String.eqb (resource (task p)) (resource t)
  && (start (task p) =? start t) && (end_ (task p) =? end_ t).

(** The body of [for (const t of routeTasks)]: the rectangle pushed, or
    [None] for [continue]. *)
Definition rectOf (lanedByMachine : list (string * Layout)) (mm : MinMax)
    (pxPerMs : Q) (rowTops : list (string * Z)) (t : Task) : option Rect :=
  match mapGet lanedByMachine (resource t) with
  | None => None
  | Some layout =>
      let lane := match List.find (sameTask t) (tasks layout) with
                  | Some placed => lane placed
                  | None => 0%nat
                  end in
      let left := barLeft mm pxPerMs t in
      let width := barWidth pxPerMs t in
      let barH := orElse (jsGet (laneHeights layout) lane) baseLane in
      let top := orElse (mapGet rowTops (resource t)) 0
                 + orElse (jsGet (laneTops layout) lane) rowPadY in
      Some (mkRect (taskId t) (resource t) (start t) (end_ t)
                   left top width barH)
  end.

(** [rects.sort((a, b) => a.start - b.start)] *)
Fixpoint insertRect (x : Rect) (l : list Rect) : list Rect :=
  match l with
  | [] => [x]
  | u :: r => if rStart x <=? rStart u then x :: u :: r
              else u :: insertRect x r
  end.

Definition sortRects (l : list Rect) : list Rect := foldr insertRect [] l.

(** [routeRects] *)
Definition routeRects (routeTasks : list Task)
    (lanedByMachine : list (string * Layout)) (mm : MinMax) (pxPerMs : Q)
    (rowTops : list (string * Z)) : list Rect :=
  if isEmptyList routeTasks then []
  else sortRects (omap (rectOf lanedByMachine mm pxPerMs rowTops) routeTasks).




(** ** The same functions on tasks whose dates may be invalid

    [allTasks] keeps a row whose start or end is an Invalid Date: the date
    object is truthy and every comparison with NaN is false.  Downstream,
    [routeTasks], [filtered], [computedMinMax] and [packLanes] therefore
    receive tasks whose [+t.start] or [+t.end] may be NaN.  Module [Js]
    holds these functions on the tasks as [allTasks] builds them
    ([RowTask]), with the arithmetic of JavaScript numbers.  On tasks with
    valid dates they agree with the functions on [Task] above. *)

Module Js.

(** [+d]: the time value of a date, NaN ([None]) for an Invalid Date. *)
Definition timeValue (d : JsDate) : option Z :=
  match d with
  | ValidDate ms => Some ms
  | InvalidDate => None
  end.

(** [a <= b], [a >= b], [a < b] and [a > b] on numbers: false when an
    operand is NaN. *)
Definition numLe (a b : option Z) : bool :=
  match a, b with
  | Some x, Some y => x <=? y
  | _, _ => false
  end.

Definition numGe (a b : option Z) : bool :=
  match a, b with
  | Some x, Some y => x >=? y
  | _, _ => false
  end.

Definition numLt (a b : option Z) : bool :=
  match a, b with
  | Some x, Some y => x <? y
  | _, _ => false
  end.

Definition numGt (a b : option Z) : bool :=
  match a, b with
  | Some x, Some y => x >? y
  | _, _ => false
  end.

(** [Math.min] and [Math.max]: NaN when an operand is NaN. *)
Definition mathMin (a b : option Z) : option Z :=
  match a, b with
  | Some x, Some y => Some (Z.min x y)
  | _, _ => None
  end.

Definition mathMax (a b : option Z) : option Z :=
  match a, b with
  | Some x, Some y => Some (Z.max x y)
  | _, _ => None
  end.

(** *** Sorting by start

    What [Array.prototype.sort] reads from the comparator
    [(a, b) => +a.start - +b.start]: a NaN result counts as +0. *)
Definition compareStart (a b : RowTask) : Z :=
  match timeValue (rowStart a), timeValue (rowStart b) with
  | Some x, Some y => x - y
  | _, _ => 0
  end.

(** With a start that is NaN the comparator is not consistent and the
    order of the result is left to the engine.  This is the order of a
    stable insertion sort; it leaves a list as it is when no element
    compares below its predecessor. *)
Fixpoint insertByStart (t : RowTask) (l : list RowTask) : list RowTask :=
  match l with
  | [] => [t]
  | u :: r => if compareStart t u <=? 0 then t :: u :: r
              else u :: insertByStart t r
  end.

Definition insertionSort (l : list RowTask) : list RowTask :=
  foldr insertByStart [] l.

(** *** Lane packing *)

(** [{ ...t, lane }] *)
Record LanedTask := mkLaned {
  task : RowTask;
  lane : nat
}.

(** The inner [for] of [packLanes]: the first index [i] (counted from
    [i0]) with [+t.start >= laneEnds[i] - EPS]. *)
Fixpoint findLane (laneEnds : list (option Z)) (s : option Z) (i0 : nat)
    : option nat :=
  match laneEnds with
  | [] => None
  | e :: rest =>
      if numGe s ((λ x, x - EPS) <$> e) then Some i0
      else findLane rest s (S i0)
  end.

Record PackState := mkPack {
  laneEnds : list (option Z);
  placed : list LanedTask
}.

(** One iteration of the outer [for (const t of sorted)]. *)
Definition placeTask (st : PackState) (t : RowTask) : PackState :=
  match findLane (laneEnds st) (timeValue (rowStart t)) 0 with
  | None =>
      mkPack (laneEnds st ++ [timeValue (rowEnd t)])
             (placed st ++ [mkLaned t (length (laneEnds st))])
  | Some i =>
      mkPack (<[i := timeValue (rowEnd t)]> (laneEnds st))
             (placed st ++ [mkLaned t i])
  end.

Definition packLoop (sorted : list RowTask) (st : PackState) : PackState :=
  foldl placeTask st sorted.

(** [{ placed, laneCount: laneEnds.length || 1 }] *)
Record Packed := mkPacked {
  placedTasks : list LanedTask;
  laneCount : nat
}.

Section Sorting.
(** [[...tasks].sort((a, b) => +a.start - +b.start)], the engine's. *)
Variable arraySort : list RowTask → list RowTask.

Definition packLanes (tasks : list RowTask) : Packed :=
  let st := packLoop (arraySort tasks) (mkPack [] []) in
  mkPacked (placed st)
           (if Nat.eqb (length (laneEnds st)) 0 then 1%nat
            else length (laneEnds st)).

(** *** The view *)

Variable toLowerCase : string → string.
Variable trim : string → string.

Definition exactMatch (q : string) (t : RowTask) : bool :=
  String.eqb (toLowerCase (rowId t)) (toLowerCase q).

Definition partMatch (q : string) (t : RowTask) : bool :=
  includes (toLowerCase (rowId t)) (toLowerCase q).

(** [routeTasks] *)
Definition routeTasks (allTasks : list RowTask) (query : string)
    : list RowTask :=
  let q := trim query in
  if isEmptyString q then []
  else
    let exact := List.filter (exactMatch q) allTasks in
    if negb (isEmptyList exact) then arraySort exact
    else
      let part := List.filter (partMatch q) allTasks in
      arraySort part.

(** [intersects], with [None] for a [null] bound; a bound that is set is
    a valid date, because [toDate] of a string never returns an Invalid
    Date. *)
Definition intersects (timeFrom timeTo : option Z) (t : RowTask) : bool :=
  if match timeFrom with
     | Some f => numLe (timeValue (rowEnd t)) (Some f)
     | None => false
     end
  then false
  else if match timeTo with
          | Some u => numGe (timeValue (rowStart t)) (Some u)
          | None => false
          end
  then false
  else true.

(** [filtered] *)
Definition filtered (allTasks : list RowTask) (query : string)
    (selectedMachines : gset string) (timeFrom timeTo : option Z)
    : list RowTask :=
  let route := routeTasks allTasks query in
  let base := if negb (isEmptyList route) then route else allTasks in
  let base :=
    if (0 <? size selectedMachines)%nat
    then List.filter (λ t, bool_decide (rowResource t ∈ selectedMachines))
                     base
    else base in
  let base :=
    if isEmptyList route && negb (isEmptyString query)
    then List.filter (partMatch query) base
    else base in
  List.filter (intersects timeFrom timeTo) base.
End Sorting.

(** *** The time domain *)

(** [{ min, max }], each a number that may be NaN. *)
Record MinMax := mkMinMax {
  min : option Z;
  max : option Z
}.

Definition addMargin (mm : MinMax) : MinMax :=
  mkMinMax ((λ x, x - 60 * 60 * 1000) <$> min mm)
           ((λ x, x + 60 * 60 * 1000) <$> max mm).

(** One iteration of
    [for (const t of src) { if (+t.start < min) min = +t.start;
    if (+t.end > max) max = +t.end; }] *)
Definition widen (mm : MinMax) (t : RowTask) : MinMax :=
  mkMinMax (if numLt (timeValue (rowStart t)) (min mm)
            then timeValue (rowStart t) else min mm)
           (if numGt (timeValue (rowEnd t)) (max mm)
            then timeValue (rowEnd t) else max mm).

(** [computedMinMax], with [now] the reading of [Date.now()]. *)
Definition computedMinMax (filtered allTasks : list RowTask)
    (timeFrom timeTo : option Z) (now : Z) : MinMax :=
  let src := if negb (isEmptyList filtered) then filtered else allTasks in
  match src with
  | [] =>
      let baseFrom := match timeFrom with
                      | Some f => f
                      | None => now - 12 * 3600000
                      end in
      let baseTo := match timeTo with
                    | Some u => u
                    | None => now + 12 * 3600000
                    end in
      mkMinMax (Some baseFrom) (Some baseTo)
  | t0 :: _ =>
      let mm := foldl widen
                  (mkMinMax (timeValue (rowStart t0)) (timeValue (rowEnd t0)))
                  src in
      let lo := match timeFrom with
                | Some f => mathMin (min mm) (Some f)
                | None => min mm
                end in
      let hi := match timeTo with
                | Some u => mathMax (max mm) (Some u)
                | None => max mm
                end in
      addMargin (mkMinMax lo hi)
  end.

End Js.

(** ** Predicates used in the statements *)

(** Ascending by start. *)
Definition startLe (a b : Task) : Prop := start a <= start b.

(** The tasks placed so far, [rest] being the tasks still to come: every
    placed task sits in an open lane, and a coming task that this lane
    lets in starts no earlier than the placed task's end minus [EPS]. *)
Definition lanesGuard (st : PackState) (rest : list Task) : Prop :=
  ∀ p, p ∈ placed st →
    ∃ e, laneEnds st !! lane p = Some e
         ∧ ∀ t, t ∈ rest → e - EPS <= start t →
                end_ (task p) - EPS <= start t.

(** Tasks placed in one lane, in the order of placement. *)
Definition separated (pl : list LanedTask) : Prop :=
  ∀ i j p q, (i < j)%nat → pl !! i = Some p → pl !! j = Some q →
    lane p = lane q → end_ (task p) - EPS <= start (task q).

(** A host whose [Date] constructor reads an all-numeric dotted date month
    first, as the fallback parser of V8 does, in the UTC time zone. *)
Definition monthFirstHost (s : string) : JsDate :=
  match parseDateFns s "MM.dd.yyyy HH:mm" with
  | Some c => ValidDate (utcTime c)
  | None => InvalidDate
  end.

(** Every placed task went to the first lane that let it in: each lane
    above its own holds an earlier task that ends more than [EPS] after
    the task starts. *)
Definition firstFit (pl : list LanedTask) : Prop :=
  ∀ j q l, pl !! j = Some q → (l < lane q)%nat →
    ∃ i p, (i < j)%nat ∧ pl !! i = Some p ∧ lane p = l
           ∧ start (task q) < end_ (task p) - EPS.

(** Every open lane ends with the end of a task placed in it. *)
Definition lanesEnded (st : PackState) : Prop :=
  ∀ l e, laneEnds st !! l = Some e →
    ∃ i p, placed st !! i = Some p ∧ lane p = l ∧ end_ (task p) = e.

(** The tasks placed up to [q] that are still running, by more than the
    tolerance, when [q] starts; [j] is the position of [q]. *)
Definition runningAt (pl : list LanedTask) (j : nat) (q : LanedTask)
    (i : nat) : Prop :=
  ∃ p, pl !! i = Some p ∧ (i <= j)%nat
       ∧ (i = j ∨ start (task q) < end_ (task p) - EPS).

(** The number of occurrences of a character in a text. *)
Fixpoint countChar (c : ascii) (s : string) : nat :=
  match s with
  | EmptyString => 0
  | String d r => (if Ascii.eqb d c then 1 else 0) + countChar c r
  end.

(** The sum of a list of counts. *)
Definition sumNat (l : list nat) : nat := foldr Nat.add 0%nat l.

(** The occurrences of a character in the fields of a table. *)
Definition countInFields (c : ascii) (rows : list (list string)) : nat :=
  sumNat (List.map (λ r, sumNat (List.map (countChar c) r)) rows).

(** The height a task's bar asks for, by its width. *)
Definition heightBy (widthOf : Task → Q) (p : LanedTask) : Z :=
  barHeight (widthOf (task p)).

(** [laneHeightsFit] for any widths. *)
Definition lanesFit (widthOf : Task → Q) (pl : list LanedTask)
    (lh : list (option Z)) : Prop :=
  (∀ l, (l < length lh)%nat ↔ ∃ p, p ∈ pl ∧ lane p = l)
  ∧ ∀ l, (l < length lh)%nat →
      ∃ h, lh !! l = Some (Some h)
           ∧ (h = 26 ∨ h = 32 ∨ h = 40)
           ∧ (∀ p, p ∈ pl → lane p = l → heightBy widthOf p <= h)
           ∧ (h = baseLane
              ∨ ∃ p, p ∈ pl ∧ lane p = l ∧ heightBy widthOf p = h).

(** A task whose start is a valid date, and one both of whose dates
    are. *)
Definition startValid (t : RowTask) : Prop :=
  ∃ s, rowStart t = ValidDate s.

Definition datesValid (t : RowTask) : Prop :=
  ∃ s e, rowStart t = ValidDate s ∧ rowEnd t = ValidDate e.

(** The task on instants that a task with valid dates is (an invalid
    date would read as 0: the lemmas use it under [datesValid] or
    [startValid] only; a quantity that is NaN reads as none). *)
Definition taskOfRow (t : RowTask) : Task :=
  mkTask (rowId t) (rowResource t)
         (default 0 (Js.timeValue (rowStart t)))
         (default 0 (Js.timeValue (rowEnd t)))
         (mjoin (rowQty t)).

Definition lanedOfRow (p : Js.LanedTask) : LanedTask :=
  mkLaned (taskOfRow (Js.task p)) (Js.lane p).

(** What the standard promises of [Array.prototype.sort] with the
    comparator by start: the result is a permutation of the array, and
    when the comparator is consistent, as it is when every start is a
    valid date, the result is sorted and the sort is stable, which
    determines it. *)
Definition sortsByStart (arraySort : list RowTask → list RowTask) : Prop :=
  (∀ l, arraySort l ≡ₚ l)
  ∧ ∀ l, Forall startValid l → arraySort l = Js.insertionSort l.

(** The tasks that start at the instant [s]. *)
Definition startsAt (s : Z) (t : RowTask) : bool :=
  match rowStart t with
  | ValidDate x => x =? s
  | InvalidDate => false
  end.


(** * Properties *)

(** ** The sort *)

Lemma insertByStart_perm t l : insertByStart t l ≡ₚ t :: l.
Proof.
  induction l as [|u r IH]; simpl; [done|].
  destruct (start t <=? start u); [done|].
  rewrite IH. apply Permutation_swap.
Qed.

Lemma sortByStart_perm l : sortByStart l ≡ₚ l.
Proof.
  induction l as [|t r IH]; simpl; [done|].
  rewrite insertByStart_perm. by f_equiv.
Qed.

Lemma insertByStart_sorted t l :
  StronglySorted startLe l → StronglySorted startLe (insertByStart t l).
Proof.
  induction 1 as [|u r Hs IH Hu]; simpl.
  - repeat constructor.
  - destruct (Z.leb_spec (start t) (start u)) as [Hle|Hgt].
    + constructor; [by constructor|].
      constructor; [done|].
      eapply Forall_impl; [exact Hu|]. unfold startLe. intros; lia.
    + constructor; [done|].
      rewrite insertByStart_perm. constructor; [|done].
      unfold startLe. lia.
Qed.

Lemma sortByStart_sorted l : StronglySorted startLe (sortByStart l).
Proof.
  induction l as [|t r IH]; simpl; [constructor|].
  by apply insertByStart_sorted.
Qed.

Lemma sorted_lookup_le (l : list Task) i j x y :
  StronglySorted startLe l → (i < j)%nat →
  l !! i = Some x → l !! j = Some y → start x <= start y.
Proof.
  intros Hs. revert i j. induction Hs as [|u r Hs IH Hu]; intros i j Hij Hi Hj.
  - by rewrite lookup_nil in Hi.
  - destruct j as [|j]; [lia|]. cbn in Hj.
    destruct i as [|i]; cbn in Hi.
    + injection Hi as ->. rewrite Forall_forall in Hu.
      apply Hu. by eapply list_elem_of_lookup_2.
    + eapply IH; [|done..]. lia.
Qed.

(** The sort is stable: tasks with the same start keep their order. *)
Lemma insertByStart_filter (P : Task → bool) t l :
  (∀ u, P u = true → start t <= start u) →
  List.filter P (insertByStart t l) = List.filter P (t :: l).
Proof.
  intros HP. induction l as [|u r IH]; [done|].
  cbn [insertByStart].
  destruct (Z.leb_spec (start t) (start u)) as [Hle|Hgt]; [done|].
  cbn [List.filter] in *. rewrite IH.
  destruct (P u) eqn:Hu; [|done].
  apply HP in Hu. lia.
Qed.

Lemma sortByStart_stable (s : Z) l :
  List.filter (λ t, start t =? s) (sortByStart l)
  = List.filter (λ t, start t =? s) l.
Proof.
  induction l as [|t r IH]; [done|].
  cbn [sortByStart foldr]. fold (sortByStart r).
  destruct (Z.eqb_spec (start t) s) as [Heq|Hne].
  - rewrite insertByStart_filter.
    + cbn [List.filter]. by rewrite IH.
    + intros u Hu. apply Z.eqb_eq in Hu. lia.
  - transitivity (List.filter (λ t, start t =? s) (sortByStart r)).
    + clear IH. induction (sortByStart r) as [|u r' IH']; cbn.
      * by destruct (Z.eqb_spec (start t) s).
      * destruct (start t <=? start u); cbn.
        -- by destruct (Z.eqb_spec (start t) s).
        -- by rewrite IH'.
    + rewrite IH. cbn. by destruct (Z.eqb_spec (start t) s).
Qed.

(** ** Lane packing *)

(** [findLane] returns an existing lane whose end lets the task in. *)
Lemma findLane_Some les s i0 i :
  findLane les s i0 = Some i →
  ∃ e, (i0 <= i)%nat ∧ les !! (i - i0)%nat = Some e ∧ e - EPS <= s.
Proof.
  revert i0. induction les as [|e r IH]; intros i0 H; [done|].
  cbn [findLane] in H.
  destruct (Z.geb_spec s (e - EPS)) as [Hge|Hlt].
  - injection H as <-. exists e. rewrite Nat.sub_diag.
    split_and!; [lia|done|lia].
  - apply IH in H as (e' & Hi & Hl & He). exists e'.
    split_and!; [lia| |done].
    replace (i - i0)%nat with (S (i - S i0)) by lia. done.
Qed.

Lemma separated_snoc pl x :
  separated pl →
  (∀ p, p ∈ pl → lane p = lane x →
        end_ (task p) - EPS <= start (task x)) →
  separated (pl ++ [x]).
Proof.
  intros Hsep Hx i j p q Hij Hi Hj Hl.
  apply lookup_app_Some in Hj as [Hj|[Hlen Hj]].
  - apply lookup_lt_Some in Hj as Hjlt.
    rewrite lookup_app_l in Hi by lia. eauto.
  - apply list_lookup_singleton_Some in Hj as [Hj0 <-].
    rewrite lookup_app_l in Hi by lia.
    apply Hx; [|done]. by eapply list_elem_of_lookup_2.
Qed.

Lemma placeTask_guard st t rest :
  StronglySorted startLe (t :: rest) →
  lanesGuard st (t :: rest) → separated (placed st) →
  lanesGuard (placeTask st t) rest ∧ separated (placed (placeTask st t)).
Proof.
  intros Hsorted Hg Hsep.
  apply StronglySorted_inv in Hsorted as [_ Hle].
  rewrite Forall_forall in Hle. unfold startLe in Hle.
  unfold placeTask, lanesGuard.
  destruct (findLane (laneEnds st) (start t) 0) as [i|] eqn:Hfind;
    cbn [laneEnds placed].
  - apply findLane_Some in Hfind as (e & _ & He & Hin).
    rewrite Nat.sub_0_r in He.
    assert (Hnew : ∀ p, p ∈ placed st → lane p = i →
                        end_ (task p) - EPS <= start t).
    { intros p Hp Hl. destruct (Hg p Hp) as (e' & He' & Hcov).
      rewrite Hl, He in He'. injection He' as <-.
      apply Hcov; [left|done]. }
    split; [|by apply separated_snoc].
    intros p Hp. apply elem_of_app in Hp as [Hp|Hp].
    + destruct (decide (lane p = i)) as [Hl|Hl].
      * exists (end_ t). split.
        -- rewrite Hl. apply list_lookup_insert_eq. by eapply lookup_lt_Some.
        -- intros t' Ht' _. specialize (Hnew p Hp Hl).
           specialize (Hle t' Ht'). lia.
      * destruct (Hg p Hp) as (e' & He' & Hcov). exists e'. split.
        -- by rewrite list_lookup_insert_ne.
        -- intros t' Ht'. apply Hcov. by right.
    + apply list_elem_of_singleton in Hp as ->. cbn [lane task].
      exists (end_ t). split.
      * apply list_lookup_insert_eq. by eapply lookup_lt_Some.
      * intros; lia.
  - split.
    + intros p Hp. apply elem_of_app in Hp as [Hp|Hp].
      * destruct (Hg p Hp) as (e' & He' & Hcov). exists e'. split.
        -- by apply lookup_app_l_Some.
        -- intros t' Ht'. apply Hcov. by right.
      * apply list_elem_of_singleton in Hp as ->. cbn [lane task].
        exists (end_ t). split; [|intros; lia].
        by rewrite lookup_app_r, Nat.sub_diag by lia.
    + apply separated_snoc; [done|].
      intros p Hp Hl. cbn in Hl.
      destruct (Hg p Hp) as (e' & He' & _).
      apply lookup_lt_Some in He'. lia.
Qed.

Lemma packLoop_guard sorted st :
  StronglySorted startLe sorted →
  lanesGuard st sorted → separated (placed st) →
  lanesGuard (packLoop sorted st) []
  ∧ separated (placed (packLoop sorted st)).
Proof.
  revert st. induction sorted as [|t rest IH]; intros st Hs Hg Hsep; [done|].
  cbn. destruct (placeTask_guard st t rest Hs Hg Hsep) as [Hg' Hsep'].
  apply IH; [|done..]. by apply StronglySorted_inv in Hs as [? _].
Qed.

(** The loop appends the tasks to [placed] in the order it meets them. *)
Lemma placeTask_tasks st t :
  task <$> placed (placeTask st t) = (task <$> placed st) ++ [t].
Proof.
  unfold placeTask. destruct (findLane _ _ _); cbn; by rewrite fmap_app.
Qed.

Lemma packLoop_tasks sorted st :
  task <$> placed (packLoop sorted st) = (task <$> placed st) ++ sorted.
Proof.
  revert st. induction sorted as [|t rest IH]; intros st; cbn.
  - by rewrite app_nil_r.
  - unfold packLoop in IH. rewrite IH, placeTask_tasks, <- app_assoc. done.
Qed.

Lemma packLanes_tasks tasks :
  task <$> placedTasks (packLanes tasks) = sortByStart tasks.
Proof. unfold packLanes. cbn. by rewrite packLoop_tasks. Qed.

Lemma packLanes_guard tasks :
  let st := packLoop (sortByStart tasks) (mkPack [] []) in
  lanesGuard st [] ∧ separated (placed st).
Proof.
  apply packLoop_guard.
  - apply sortByStart_sorted.
  - intros p Hp. cbn in Hp. by apply elem_of_nil in Hp.
  - intros i j p q _ Hi. cbn in Hi. by rewrite lookup_nil in Hi.
Qed.

Lemma packLanes_sorted tasks i j p q :
  placedTasks (packLanes tasks) !! i = Some p →
  placedTasks (packLanes tasks) !! j = Some q →
  (i < j)%nat → start (task p) <= start (task q).
Proof.
  intros Hi Hj Hij.
  pose proof (sortByStart_sorted tasks) as Hs.
  rewrite <- packLanes_tasks in Hs.
  assert (Hi' : (task <$> placedTasks (packLanes tasks)) !! i = Some (task p))
    by (by rewrite list_lookup_fmap, Hi).
  assert (Hj' : (task <$> placedTasks (packLanes tasks)) !! j = Some (task q))
    by (by rewrite list_lookup_fmap, Hj).
  by eapply sorted_lookup_le.
Qed.

Lemma packLanes_separated_lt tasks i j p q :
  placedTasks (packLanes tasks) !! i = Some p →
  placedTasks (packLanes tasks) !! j = Some q →
  (i < j)%nat → lane p = lane q →
  start (task p) <= start (task q) ∧ end_ (task p) - EPS <= start (task q).
Proof.
  intros Hi Hj Hij Hl. split; [by eapply packLanes_sorted|].
  destruct (packLanes_guard tasks) as [_ Hsep]. by eapply Hsep.
Qed.

(** On instants, whatever the tasks of a resource (the scale plays no part
    in packing), two tasks placed in the same lane overlap by at most the
    tolerance of 60,000 ms: the shorter of their ends is at most 60,000 ms
    after the later of their starts.  The task that starts later starts no
    earlier than the other's end minus 60,000 ms; of two tasks with the same
    start, "later" is the one placed later, and [placed] is in ascending
    order of start. *)
Lemma packLanes_lanes_do_not_overlap (tasks : list Task) (i j : nat)
    (p q : LanedTask) :
  placedTasks (packLanes tasks) !! i = Some p →
  placedTasks (packLanes tasks) !! j = Some q →
  i ≠ j → lane p = lane q →
  Z.min (end_ (task p)) (end_ (task q))
    - Z.max (start (task p)) (start (task q)) <= 60000
  ∧ (start (task p) < start (task q) →
     end_ (task p) - 60000 <= start (task q))
  ∧ ((i < j)%nat →
     start (task p) <= start (task q)
     ∧ end_ (task p) - 60000 <= start (task q)).
Proof.
  intros Hi Hj Hij Hl. change 60000 with EPS.
  destruct (Nat.lt_total i j) as [Hlt|[Heq|Hgt]]; [|done|].
  - destruct (packLanes_separated_lt tasks i j p q) as [H1 H2]; try done.
    split_and!; [lia|done|done].
  - destruct (packLanes_separated_lt tasks j i q p) as [H1 H2]; try done.
    split_and!; [lia|lia|lia].
Qed.

(** C10.  [packLanes] places every task exactly once: the tasks of
    [placed] are a permutation of the input.  Every placed task has a lane
    index below [laneCount], and [laneCount] is at least 1, also for the
    empty input. *)
Theorem packLanes_keeps_tasks_and_bounds_lanes (tasks : list Task) :
  task <$> placedTasks (packLanes tasks) ≡ₚ tasks
  ∧ Forall (λ p, (lane p < laneCount (packLanes tasks))%nat)
           (placedTasks (packLanes tasks))
  ∧ (1 <= laneCount (packLanes tasks))%nat
  ∧ packLanes [] = mkPacked [] 1.
Proof.
  split_and!.
  - rewrite packLanes_tasks. apply sortByStart_perm.
  - destruct (packLanes_guard tasks) as [Hg _]. cbn zeta in Hg.
    unfold packLanes. cbn [placedTasks laneCount].
    set (st := packLoop (sortByStart tasks) (mkPack [] [])) in *.
    apply Forall_forall. intros p Hp.
    destruct (Hg p Hp) as (e & He & _). apply lookup_lt_Some in He.
    destruct (Nat.eqb_spec (length (laneEnds st)) 0); lia.
  - unfold packLanes. cbn [laneCount].
    set (st := packLoop (sortByStart tasks) (mkPack [] [])).
    destruct (Nat.eqb_spec (length (laneEnds st)) 0); lia.
  - done.
Qed.

(** ** Dates *)

Section ToDateFacts.
Variable nativeParse : string → JsDate.
Variable localTime : Civil → Z.

Lemma toDate_number (v : Z) :
  toDate nativeParse localTime (VNumber v)
  = Some (newDate (if v <? 10000000000 then v * 1000 else v)).
Proof. cbn. by destruct (v <? 10000000000). Qed.

Lemma newDate_valid (n : Z) :
  Z.abs n <= maxTimeValue → newDate n = ValidDate n.
Proof.
  intros H. unfold newDate.
  by destruct (Z.leb_spec (Z.abs n) maxTimeValue); [|lia].
Qed.

(** The result of the host's own parse, when valid, is returned as it
    is. *)
Lemma toDate_string_native (s : string) (ms : Z) :
  nativeParse s = ValidDate ms →
  toDate nativeParse localTime (VString s) = Some (ValidDate ms).
Proof. intros H. cbn. by rewrite H. Qed.

(** When the host rejects the string, the first format reads it day
    first. *)
Lemma toDate_string_fallback_day_first :
  nativeParse "10.01.2025 08:00" = InvalidDate →
  toDate nativeParse localTime (VString "10.01.2025 08:00")
  = Some (ValidDate (localTime (mkCivil 2025 1 10 8 0))).
Proof. intros H. cbn [toDate]. rewrite H. reflexivity. Qed.

(** So the day-first reading is the result exactly when the host rejects
    the string or reads it the same way. *)
Lemma toDate_string_day_first_iff :
  toDate nativeParse localTime (VString "10.01.2025 08:00")
  = Some (ValidDate (localTime (mkCivil 2025 1 10 8 0)))
  ↔ nativeParse "10.01.2025 08:00" = InvalidDate
    ∨ nativeParse "10.01.2025 08:00"
      = ValidDate (localTime (mkCivil 2025 1 10 8 0)).
Proof.
  split.
  - intros H. destruct (nativeParse "10.01.2025 08:00") as [ms|] eqn:Hn;
      [right|by left].
    rewrite (toDate_string_native _ _ Hn) in H. by injection H as ->.
  - intros [H|H].
    + by apply toDate_string_fallback_day_first.
    + by apply toDate_string_native.
Qed.
End ToDateFacts.

(** C8.  A number below 10,000,000,000 is read as seconds since the epoch
    (the instant [v * 1000] ms), any other number as milliseconds; the
    result is a valid date whenever that instant is in the range of time
    values.  1700000000 and 1700000000000 are the same instant,
    14 November 2023, 22:13 UTC. *)
Theorem toDate_number_seconds_or_milliseconds
    (nativeParse : string → JsDate) (localTime : Civil → Z) (v : Z) :
  (v < 10000000000 → Z.abs (v * 1000) <= maxTimeValue →
     toDate nativeParse localTime (VNumber v) = Some (ValidDate (v * 1000)))
  ∧ (10000000000 <= v → Z.abs v <= maxTimeValue →
     toDate nativeParse localTime (VNumber v) = Some (ValidDate v))
  ∧ toDate nativeParse localTime (VNumber v)
    = Some (newDate (if v <? 10000000000 then v * 1000 else v))
  ∧ toDate nativeParse localTime (VNumber 1700000000)
    = Some (ValidDate 1700000000000)
  ∧ toDate nativeParse localTime (VNumber 1700000000000)
    = Some (ValidDate 1700000000000)
  ∧ utcCivil 1700000000000 = mkCivil 2023 11 14 22 13.
Proof.
  split_and!; try reflexivity.
  - intros Hlt Hr. rewrite toDate_number.
    destruct (Z.ltb_spec v 10000000000); [|lia]. by rewrite newDate_valid.
  - intros Hge Hr. rewrite toDate_number.
    destruct (Z.ltb_spec v 10000000000); [lia|]. by rewrite newDate_valid.
  - apply toDate_number.
Qed.

Lemma toDate_number_seconds_or_milliseconds_witness :
  1700000000 < 10000000000
  ∧ Z.abs (1700000000 * 1000) <= maxTimeValue
  ∧ toDate (λ _, InvalidDate) utcTime (VNumber 1700000000)
    = Some (ValidDate (1700000000 * 1000)).
Proof.
  assert (H1 : 1700000000 < 10000000000) by lia.
  assert (H2 : Z.abs (1700000000 * 1000) <= maxTimeValue)
    by (unfold maxTimeValue; lia).
  split_and!; [exact H1|exact H2|].
  exact (proj1 (toDate_number_seconds_or_milliseconds
                  (λ _, InvalidDate) utcTime 1700000000) H1 H2).
Defined.

(** C2.  The string ["10.01.2025 08:00"] is meant to be 10 January 2025,
    08:00.  [toDate] asks the host first and returns whatever valid date the
    host reads: on a host that reads the string month first the result is
    1 October 2025, 08:00, and the day-first formats are never tried. *)
Theorem toDate_host_parse_preempts_day_first :
  toDate monthFirstHost utcTime (VString "10.01.2025 08:00")
  = Some (ValidDate (utcTime (mkCivil 2025 10 1 8 0)))
  ∧ utcTime (mkCivil 2025 10 1 8 0) ≠ utcTime (mkCivil 2025 1 10 8 0)
  ∧ utcCivil (utcTime (mkCivil 2025 10 1 8 0)) = mkCivil 2025 10 1 8 0.
Proof. split_and!; [reflexivity|discriminate|reflexivity]. Qed.

(** On such a host the third row of the built-in demo data,
    ["12.01.2025 15:00"] to ["13.01.2025 10:00"], starts on 1 December and
    ends on 13 January of the same year. *)
Lemma demo_row_reversed_on_month_first_host :
  toDate monthFirstHost utcTime (VString "12.01.2025 15:00")
  = Some (ValidDate (utcTime (mkCivil 2025 12 1 15 0)))
  ∧ toDate monthFirstHost utcTime (VString "13.01.2025 10:00")
    = Some (ValidDate (utcTime (mkCivil 2025 1 13 10 0)))
  ∧ utcTime (mkCivil 2025 1 13 10 0) <= utcTime (mkCivil 2025 12 1 15 0).
Proof. split_and!; [reflexivity|reflexivity|by vm_compute]. Qed.

(** ** Coordinate mapping and zoom *)

Local Open Scope Q_scope.

Lemma pxPerMsOf_scale (p : Z) :
  (p ≠ 0)%Z → pxPerMsOf p == inject_Z p / 3600000.
Proof.
  intros Hp. unfold pxPerMsOf. by destruct (Z.eqb_spec p 0).
Qed.

Lemma pxPerMsOf_nonzero (p : Z) : ~ pxPerMsOf p == 0.
Proof.
  unfold pxPerMsOf. destruct (Z.eqb_spec p 0) as [->|Hp]; [done|].
  unfold Qeq, Qdiv, Qmult, Qinv, inject_Z. cbn. lia.
Qed.

Lemma pixelToTime_timeToPixel (origin : Z) (k t : Q) :
  ~ k == 0 → pixelToTime origin k (timeToPixel origin k t) == t.
Proof. intros Hk. unfold pixelToTime, timeToPixel. by field. Qed.

Lemma timeToPixel_pixelToTime (origin : Z) (k x : Q) :
  ~ k == 0 → timeToPixel origin k (pixelToTime origin k x) == x.
Proof. intros Hk. unfold pixelToTime, timeToPixel. by field. Qed.

(** C9.  For a scale between 30 and 300 and any origin, time to pixel is
    [(instant - origin) * scale / 3,600,000], pixel to time is
    [origin + pixel * 3,600,000 / scale], and each undoes the other, exactly,
    in rational arithmetic. *)
Theorem time_pixel_roundtrip (origin p : Z) (t x : Q) :
  (30 <= p <= 300)%Z →
  pxPerMsOf p == inject_Z p / 3600000
  ∧ timeToPixel origin (pxPerMsOf p) t
    == (t - inject_Z origin) * inject_Z p / 3600000
  ∧ pixelToTime origin (pxPerMsOf p) x
    == inject_Z origin + x * 3600000 / inject_Z p
  ∧ pixelToTime origin (pxPerMsOf p) (timeToPixel origin (pxPerMsOf p) t) == t
  ∧ timeToPixel origin (pxPerMsOf p) (pixelToTime origin (pxPerMsOf p) x) == x.
Proof.
  intros Hp.
  assert (Hk : pxPerMsOf p == inject_Z p / 3600000)
    by (apply pxPerMsOf_scale; lia).
  assert (Hp0 : ~ inject_Z p == 0).
  { unfold Qeq, inject_Z. cbn. lia. }
  split_and!.
  - exact Hk.
  - unfold timeToPixel. rewrite Hk. by field.
  - unfold pixelToTime. rewrite Hk. by field.
  - apply pixelToTime_timeToPixel, pxPerMsOf_nonzero.
  - apply timeToPixel_pixelToTime, pxPerMsOf_nonzero.
Qed.

Lemma time_pixel_roundtrip_witness :
  (30 <= 110 <= 300)%Z
  ∧ pixelToTime 1000 (pxPerMsOf 110)
      (timeToPixel 1000 (pxPerMsOf 110) 7201000) == 7201000.
Proof.
  assert (H : (30 <= 110 <= 300)%Z) by lia.
  split; [exact H|].
  exact (proj1 (proj2 (proj2 (proj2
    (time_pixel_roundtrip 1000 110 7201000 0 H))))).
Defined.

(** [mathRound] is the nearest integer, with halves rounded up. *)
Lemma mathRound_nearest (q : Q) :
  q - (1 # 2) < inject_Z (mathRound q) ∧ inject_Z (mathRound q) <= q + (1 # 2).
Proof.
  unfold mathRound. split.
  - pose proof (Qlt_floor (q + (1 # 2))) as H.
    rewrite inject_Z_plus in H. change (inject_Z 1) with 1 in H.
    lra.
  - apply Qfloor_le.
Qed.

Lemma nextScale_clamped (p : Z) (dy : Q) : (30 <= nextScale p dy <= 300)%Z.
Proof. unfold nextScale. lia. Qed.

(** The two steps in whole numbers: a tenth less or a tenth more, to the
    nearest integer. *)
Lemma mathRound_step (p : Z) (dy : Q) :
  mathRound (inject_Z p * zoomFactor dy)
  = if Qlt_le_dec 0 dy then ((9 * p + 5) / 10)%Z else ((11 * p + 5) / 10)%Z.
Proof.
  unfold mathRound, zoomFactor.
  destruct (Qlt_le_dec 0 dy); unfold Qfloor, Qplus, Qmult, inject_Z; cbn;
    change (Z.pos (1 * 10 * 2)) with (10 * 2)%Z;
    change (Z.pos (1 * 10)) with 10%Z.
  - replace (p * 9 * 2 + 1 * 10)%Z with ((9 * p + 5) * 2)%Z by lia.
    by rewrite Z.div_mul_cancel_r by lia.
  - replace (p * 11 * 2 + 1 * 10)%Z with ((11 * p + 5) * 2)%Z by lia.
    by rewrite Z.div_mul_cancel_r by lia.
Qed.

(** For every scale from 30 to 300 the rounding of the source, computed in
    binary64, is the rounding of the exact product. *)
Lemma mathRound_binary64_scales :
  List.forallb
    (fun p =>
       isMathRound64 (float_of_Z p * factor64 true) ((9 * p + 5) / 10)%Z
       && isMathRound64 (float_of_Z p * factor64 false) ((11 * p + 5) / 10)%Z)
    scales = true.
Proof. by vm_compute. Qed.

Lemma mathRound_binary64 (p : Z) (dy : Q) :
  (30 <= p <= 300)%Z →
  isMathRound64
    (float_of_Z p * factor64 (if Qlt_le_dec 0 dy then true else false))
    (mathRound (inject_Z p * zoomFactor dy)) = true.
Proof.
  intros Hp. rewrite mathRound_step.
  assert (Hin : In p scales).
  { unfold scales. rewrite <- (Z2Nat.id p) by lia.
    apply in_map, in_seq. lia. }
  pose proof (proj1 (forallb_forall _ _) mathRound_binary64_scales p Hin) as H.
  apply andb_prop in H as [Hdown Hup].
  by destruct (Qlt_le_dec 0 dy).
Qed.

(** In binary64 too, an instant two hours after the origin at 110 px per
    hour maps to a pixel and back to itself. *)
Lemma time_pixel_roundtrip_binary64_sample :
  pixelToTime64 1736492400000 (pxPerMs64 110)
    (timeToPixel64 1736492400000 (pxPerMs64 110) 1736499600000)
  = 1736499600000%float.
Proof. reflexivity. Qed.

(** C3.  A zoom step (control key held) at scale [p] between 30 and 300:
    the anchor instant is the time of content pixel [xRel + scrollLeft] at
    scale [p]; the new scale is [round (p * factor)] clamped to 30..300; when
    that equals [p] the step changes nothing; otherwise the scale becomes the
    new one and the scroll offset becomes the anchor's pixel at the new scale
    minus [xRel], or zero when that is negative.  When it is not negative the
    anchor is again [xRel] pixels from the left edge of the viewport. *)
Theorem handleWheel_zoom_to_cursor (origin : Z) (e : WheelEvent)
    (c : Container) (p : Z) :
  (30 <= p <= 300)%Z → ctrlKey e = true →
  let xRel := clientX e - rectLeft c in
  let anchor := pixelToTime origin (pxPerMsOf p) (xRel + scrollLeft c) in
  let next :=
    Z.max 30 (Z.min 300 (mathRound (inject_Z p * zoomFactor (deltaY e)))) in
  let anchorXNext := timeToPixel origin (inject_Z next / 3600000) anchor in
  (30 <= next <= 300)%Z
  ∧ anchor == inject_Z origin + (xRel + scrollLeft c) * 3600000 / inject_Z p
  ∧ anchorXNext == (xRel + scrollLeft c) * inject_Z next / inject_Z p
  ∧ (next = p →
     handleWheel origin e (mkZoom p (Some c)) = mkZoom p (Some c))
  ∧ (next ≠ p →
     ∃ s' : Q,
       handleWheel origin e (mkZoom p (Some c))
       = mkZoom next (Some (mkContainer (rectLeft c) s'))
       ∧ s' = Qmax 0 (anchorXNext - xRel)
       ∧ (0 <= anchorXNext - xRel →
          timeToPixel origin (pxPerMsOf next) anchor - s' == xRel)).
Proof.
  intros Hp Hctrl xRel anchor next anchorXNext.
  assert (Hk : pxPerMsOf p == inject_Z p / 3600000)
    by (apply pxPerMsOf_scale; lia).
  assert (Hp0 : ~ inject_Z p == 0).
  { unfold Qeq, inject_Z. cbn. lia. }
  assert (Hnext : (30 <= next <= 300)%Z) by (subst next; lia).
  assert (Hanchor :
    anchor == inject_Z origin + (xRel + scrollLeft c) * 3600000 / inject_Z p).
  { subst anchor. unfold pixelToTime. rewrite Hk. by field. }
  refine (conj Hnext (conj Hanchor (conj _ (conj _ _)))).
  - subst anchorXNext. unfold timeToPixel. rewrite Hanchor. by field.
  - intros Heq. unfold handleWheel. cbn [container pxPerHour].
    rewrite Hctrl. cbn [negb]. fold next.
    unfold nextScale. fold next. by rewrite Heq, Z.eqb_refl.
  - intros Hne. exists (Qmax 0 (anchorXNext - xRel)). split_and!.
    + unfold handleWheel. cbn [container pxPerHour].
      rewrite Hctrl. cbn [negb]. unfold nextScale. fold next.
      destruct (Z.eqb_spec next p) as [Heq|_]; [done|]. reflexivity.
    + reflexivity.
    + intros Hfloor. rewrite (Q.max_r _ _ Hfloor).
      subst anchorXNext. unfold timeToPixel.
      rewrite (pxPerMsOf_scale next) by lia. ring.
Qed.

(** The step of the witness below in binary64: from 110 to 121 px per hour
    with the cursor 100 px into the viewport and the content scrolled by
    50 px, the anchor lands within a thousandth of a pixel of the cursor. *)
Lemma handleWheel_binary64_sample :
  let origin := 1736492400000%float in
  let s' := newScrollLeft64 origin 100 50 110 121 in
  let anchor := pixelToTime64 origin (pxPerMs64 110) (100 + 50)%float in
  let xAfter := (timeToPixel64 origin (pxPerMs64 121) anchor - s')%float in
  (PrimFloat.ltb (100 - 0.0009765625) xAfter
   && PrimFloat.ltb xAfter (100 + 0.0009765625))%float
  = true.
Proof. reflexivity. Qed.

Lemma handleWheel_zoom_to_cursor_witness :
  (30 <= 110 <= 300)%Z
  ∧ handleWheel 0 (mkWheel true 100 (-1)) (mkZoom 110 (Some (mkContainer 0 50)))
    = mkZoom 121 (Some (mkContainer 0
        (Qmax 0 (timeToPixel 0 (inject_Z 121 / 3600000)
                   (pixelToTime 0 (pxPerMsOf 110) (100 - 0 + 50))
                 - (100 - 0))))).
Proof.
  assert (H : (30 <= 110 <= 300)%Z) by lia.
  split; [exact H|].
  destruct (handleWheel_zoom_to_cursor 0 (mkWheel true 100 (-1))
              (mkContainer 0 50) 110 H eq_refl)
    as (_ & _ & _ & _ & Hstep).
  destruct Hstep as (s' & Hw & Hs & _); [by vm_compute|].
  rewrite Hw, Hs. reflexivity.
Defined.

(** ** Row geometry *)

(** C7, as amended.  The bar height depends on the bar's width alone: wider
    than 220 px gives 40, otherwise wider than 120 px gives 32, otherwise the
    baseline 26.  The comparisons are strict: a bar of exactly 220 px is 32
    tall and one of exactly 120 px is 26 tall. *)
Theorem barHeight_thresholds (w : Q) :
  (220 < w → barHeight w = 40%Z)
  ∧ (120 < w → w <= 220 → barHeight w = 32%Z)
  ∧ (w <= 120 → barHeight w = 26%Z)
  ∧ barHeight 220 = 32%Z
  ∧ barHeight 120 = 26%Z
  ∧ ∀ (pxPerMs : Q) (p : Task),
      taskBarHeight pxPerMs p
      = barHeight (Qmax 4 (inject_Z (end_ p - start p) * pxPerMs)).
Proof.
  unfold barHeight. split_and!; try reflexivity.
  - intros H. destruct (Qlt_le_dec 220 w); [done|lra].
  - intros H1 H2. destruct (Qlt_le_dec 220 w); [lra|].
    destruct (Qlt_le_dec 120 w); [done|lra].
  - intros H. destruct (Qlt_le_dec 220 w); [lra|].
    destruct (Qlt_le_dec 120 w); [lra|done].
Qed.

Lemma barHeight_thresholds_witness :
  220 < 221 ∧ barHeight 221 = 40%Z.
Proof.
  assert (H : 220 < 221) by reflexivity.
  split; [exact H|].
  exact (proj1 (barHeight_thresholds 221) H).
Defined.

(** A two-hour task at the default scale of 110 px per hour is exactly
    220 px wide, and a one-hour task at 120 px per hour exactly 120 px. *)
Lemma barHeight_at_threshold_counterexample :
  let twoHours := mkTask "3260996" "10ZM4" 0 7200000 None in
  let oneHour := mkTask "3260996" "10ZM4" 0 3600000 None in
  barWidth (pxPerMsOf 110) twoHours == 220
  ∧ 220 <= barWidth (pxPerMsOf 110) twoHours
  ∧ taskBarHeight (pxPerMsOf 110) twoHours ≠ 40%Z
  ∧ barWidth (pxPerMsOf 120) oneHour == 120
  ∧ 120 <= barWidth (pxPerMsOf 120) oneHour
  ∧ taskBarHeight (pxPerMsOf 120) oneHour ≠ 32%Z.
Proof. by vm_compute. Qed.

(** The same two-hour task in binary64: its width is exactly 220, and the
    height the source gives it is 32. *)
Lemma barHeight_at_threshold_binary64 :
  barWidth64 (pxPerMs64 110) 0 7200000 = 220%float
  ∧ barHeight64 (barWidth64 (pxPerMs64 110) 0 7200000) = 32%float
  ∧ barWidth64 (pxPerMs64 120) 0 3600000 = 120%float
  ∧ barHeight64 (barWidth64 (pxPerMs64 120) 0 3600000) = 26%float.
Proof. repeat split; reflexivity. Qed.

Local Close Scope Q_scope.

(** ** The time window *)

Lemma intersects_true_iff (timeFrom timeTo : option Z) (t : Task) :
  intersects timeFrom timeTo t = true
  ↔ (∀ f, timeFrom = Some f → f < end_ t)
    ∧ (∀ u, timeTo = Some u → start t < u).
Proof.
  unfold intersects.
  destruct timeFrom as [f|], timeTo as [u|];
    repeat match goal with
    | |- context [?a <=? ?b] => destruct (Z.leb_spec a b)
    | |- context [?a >=? ?b] => destruct (Z.geb_spec a b)
    end;
    split; try done.
  all: try (intros [H1 H2]; try specialize (H1 _ eq_refl);
            try specialize (H2 _ eq_refl); lia).
  all: intros _; split; intros ? [= <-]; lia.
Qed.

Lemma elem_of_List_filter {A} (f : A → bool) (l : list A) (x : A) :
  x ∈ List.filter f l ↔ x ∈ l ∧ f x = true.
Proof. rewrite !list_elem_of_In. apply filter_In. Qed.

Lemma List_filter_all {A} (f : A → bool) (l : list A) :
  (∀ x, f x = true) → List.filter f l = l.
Proof.
  intros Hf. induction l as [|x l IH]; [done|].
  cbn. by rewrite Hf, IH.
Qed.

Section ViewFacts.
Variable toLowerCase : string → string.
Variable trim : string → string.

(** The window is the last stage of [filtered]: the view is what the
    other filters let through, cut by [intersects]. *)
Lemma filtered_window allTasks query sel timeFrom timeTo :
  filtered toLowerCase trim allTasks query sel timeFrom timeTo
  = List.filter (intersects timeFrom timeTo)
      (filtered toLowerCase trim allTasks query sel None None).
Proof.
  unfold filtered. f_equal. symmetry. by apply List_filter_all.
Qed.

Lemma filtered_visible_iff allTasks query sel timeFrom timeTo t :
  t ∈ filtered toLowerCase trim allTasks query sel timeFrom timeTo
  ↔ t ∈ filtered toLowerCase trim allTasks query sel None None
    ∧ intersects timeFrom timeTo t = true.
Proof. rewrite filtered_window at 1. apply elem_of_List_filter. Qed.
End ViewFacts.

(** C5, as amended.  A task that ends at (or before) [window.from] is not
    in the view, nor is a task that starts at (or after) [window.to].  When
    [from] does not lie after [to], a task that strictly spans either bound
    passes the window.  An unset bound imposes nothing: with both unset every
    task passes, with one unset only the other bound is tested. *)
Theorem window_excludes_touching_tasks
    (toLowerCase trim : string → string) (allTasks : list Task)
    (query : string) (sel : gset string) (timeFrom timeTo : option Z)
    (t : Task) :
  (∀ f, timeFrom = Some f → end_ t <= f →
     intersects timeFrom timeTo t = false
     ∧ t ∉ filtered toLowerCase trim allTasks query sel timeFrom timeTo)
  ∧ (∀ u, timeTo = Some u → u <= start t →
     intersects timeFrom timeTo t = false
     ∧ t ∉ filtered toLowerCase trim allTasks query sel timeFrom timeTo)
  ∧ ((∀ f u, timeFrom = Some f → timeTo = Some u → f <= u) →
     (∃ b, (timeFrom = Some b ∨ timeTo = Some b) ∧ start t < b < end_ t) →
     intersects timeFrom timeTo t = true
     ∧ (t ∈ filtered toLowerCase trim allTasks query sel None None →
        t ∈ filtered toLowerCase trim allTasks query sel timeFrom timeTo))
  ∧ intersects None None t = true
  ∧ (∀ u, intersects None (Some u) t = (start t <? u))
  ∧ (∀ f, intersects (Some f) None t = (f <? end_ t))
  ∧ (intersects timeFrom timeTo t = true
     ↔ (∀ f, timeFrom = Some f → f < end_ t)
       ∧ (∀ u, timeTo = Some u → start t < u)).
Proof.
  split_and!.
  - intros f Hf Hle.
    assert (Hi : intersects timeFrom timeTo t = false).
    { subst timeFrom. unfold intersects.
      by destruct (Z.leb_spec (end_ t) f); [|lia]. }
    split; [done|]. rewrite filtered_visible_iff, Hi. by intros [_ ?].
  - intros u Hu Hle.
    assert (Hi : intersects timeFrom timeTo t = false).
    { subst timeTo. unfold intersects.
      destruct (Z.geb_spec (start t) u); [|lia].
      destruct timeFrom as [f|]; [by destruct (end_ t <=? f)|done]. }
    split; [done|]. rewrite filtered_visible_iff, Hi. by intros [_ ?].
  - intros Hwf (b & Hb & Hspan).
    assert (Hi : intersects timeFrom timeTo t = true).
    { apply intersects_true_iff. split.
      - intros f Hf. destruct Hb as [Hb|Hb].
        + rewrite Hf in Hb. injection Hb as ->. lia.
        + specialize (Hwf f b Hf Hb). lia.
      - intros u Hu. destruct Hb as [Hb|Hb].
        + specialize (Hwf b u Hb Hu). lia.
        + rewrite Hu in Hb. injection Hb as ->. lia. }
    split; [done|]. intros Hin. by apply filtered_visible_iff.
  - done.
  - intros u. unfold intersects.
    destruct (Z.geb_spec (start t) u), (Z.ltb_spec (start t) u); done || lia.
  - intros f. unfold intersects.
    destruct (Z.leb_spec (end_ t) f), (Z.ltb_spec f (end_ t)); done || lia.
  - apply intersects_true_iff.
Qed.

Lemma window_excludes_touching_tasks_witness :
  let t := mkTask "3260996" "10ZM4" 100 200 None in
  Some 200 = Some 200 ∧ end_ t <= 200
  ∧ intersects (Some 200) (Some 300) t = false.
Proof.
  intros t.
  assert (H1 : Some 200 = Some 200) by reflexivity.
  assert (H2 : end_ t <= 200) by (by vm_compute).
  split_and!; [exact H1|exact H2|].
  exact (proj1 (proj1 (window_excludes_touching_tasks asciiLower asciiTrim
                         [t] "" ∅ (Some 200) (Some 300) t) 200 H1 H2)).
Defined.

(** A window whose [from] lies after its [to]: the task spans [from] and is
    cut by [to]. *)
Lemma window_spanning_task_counterexample :
  let t := mkTask "3260996" "10ZM4" 60 200 None in
  start t < 100 < end_ t
  ∧ intersects (Some 100) (Some 50) t = false
  ∧ filtered asciiLower asciiTrim [t] "" ∅ (Some 100) (Some 50) = []
  ∧ filtered asciiLower asciiTrim [t] "" ∅ None None = [t].
Proof. by vm_compute. Qed.

(** ** The route *)

Lemma isEmptyString_false (s : string) : s ≠ EmptyString → isEmptyString s = false.
Proof. by destruct s. Qed.

Lemma isEmptyList_false {A} (l : list A) : l ≠ [] → isEmptyList l = false.
Proof. by destruct l. Qed.

Lemma elem_of_sortByStart (l : list Task) (t : Task) :
  t ∈ sortByStart l ↔ t ∈ l.
Proof. by rewrite sortByStart_perm. Qed.

Section RouteFacts.
Variable toLowerCase : string → string.
Variable trim : string → string.

Lemma routeTasks_exact allTasks query :
  trim query ≠ EmptyString →
  List.filter (exactMatch toLowerCase (trim query)) allTasks ≠ [] →
  routeTasks toLowerCase trim allTasks query
  = sortByStart (List.filter (exactMatch toLowerCase (trim query)) allTasks).
Proof.
  intros Hq He. unfold routeTasks.
  by rewrite (isEmptyString_false _ Hq), (isEmptyList_false _ He).
Qed.

Lemma routeTasks_part allTasks query :
  trim query ≠ EmptyString →
  List.filter (exactMatch toLowerCase (trim query)) allTasks = [] →
  routeTasks toLowerCase trim allTasks query
  = sortByStart (List.filter (partMatch toLowerCase (trim query)) allTasks).
Proof.
  intros Hq He. unfold routeTasks.
  by rewrite (isEmptyString_false _ Hq), He.
Qed.

Lemma routeTasks_sorted allTasks query :
  StronglySorted startLe (routeTasks toLowerCase trim allTasks query).
Proof.
  unfold routeTasks. destruct (isEmptyString _); [constructor|].
  destruct (negb _); apply sortByStart_sorted.
Qed.

Lemma routeTasks_blank allTasks query :
  trim query = EmptyString → routeTasks toLowerCase trim allTasks query = [].
Proof. intros Hq. unfold routeTasks. by rewrite Hq. Qed.

(** With an active route the view shows route tasks only. *)
Lemma filtered_within_route allTasks query sel timeFrom timeTo t :
  routeTasks toLowerCase trim allTasks query ≠ [] →
  t ∈ filtered toLowerCase trim allTasks query sel timeFrom timeTo →
  t ∈ routeTasks toLowerCase trim allTasks query.
Proof.
  intros Hr. unfold filtered.
  rewrite (isEmptyList_false _ Hr). cbn [negb andb].
  rewrite elem_of_List_filter. intros [Ht _].
  destruct (0 <? size sel)%nat; [|done].
  by apply elem_of_List_filter in Ht as [? _].
Qed.
End RouteFacts.

Lemma asciiLowerChar_is_1 (c : ascii) :
  asciiLowerChar c = "1"%char → c = "1"%char.
Proof.
  destruct c as [[] [] [] [] [] [] [] []]; vm_compute; congruence.
Qed.

Lemma asciiLowerChar_is_0 (c : ascii) :
  asciiLowerChar c = "0"%char → c = "0"%char.
Proof.
  destruct c as [[] [] [] [] [] [] [] []]; vm_compute; congruence.
Qed.

Lemma asciiLower_is_100 (s : string) :
  asciiLower s = "100"%string → s = "100"%string.
Proof.
  destruct s as [|c1 [|c2 [|c3 [|c4 s]]]]; try done.
  cbn. intros [= H1 H2 H3].
  by rewrite (asciiLowerChar_is_1 _ H1), (asciiLowerChar_is_0 _ H2),
             (asciiLowerChar_is_0 _ H3).
Qed.

(** On instants, for a query that is not blank after trimming: when some task's
    identifier equals the query up to case, the route is exactly those tasks;
    only when there is none is it the tasks whose identifier contains the
    query up to case; either way in ascending order of start.  With
    identifiers "100" and "1001" and the query "100", every route task has
    the identifier "100". *)
Lemma routeTasks_exact_match_wins
    (toLowerCase trim : string → string) (allTasks : list Task)
    (query : string) :
  trim query ≠ EmptyString →
  let q := trim query in
  let route := routeTasks toLowerCase trim allTasks query in
  let exact := List.filter (exactMatch toLowerCase q) allTasks in
  let part := List.filter (partMatch toLowerCase q) allTasks in
  (exact ≠ [] →
     route = sortByStart exact ∧ route ≡ₚ exact
     ∧ ∀ t, t ∈ route ↔ t ∈ allTasks ∧ toLowerCase (taskId t) = toLowerCase q)
  ∧ (exact = [] →
     route = sortByStart part ∧ route ≡ₚ part
     ∧ ∀ t, t ∈ route
            ↔ t ∈ allTasks
              ∧ includes (toLowerCase (taskId t)) (toLowerCase q) = true)
  ∧ StronglySorted startLe route
  ∧ (∀ i j a b, (i < j)%nat → route !! i = Some a → route !! j = Some b →
       start a <= start b)
  ∧ (∀ tasks : list Task,
       (∃ t, t ∈ tasks ∧ taskId t = "100"%string) →
       ∀ t, t ∈ routeTasks asciiLower asciiTrim tasks "100" →
            taskId t = "100"%string).
Proof.
  intros Hq q route exact part. split_and!.
  - intros He.
    assert (Hr : route = sortByStart exact) by by apply routeTasks_exact.
    split_and!; [done|rewrite Hr; apply sortByStart_perm|].
    intros t. rewrite Hr, elem_of_sortByStart. unfold exact.
    rewrite elem_of_List_filter. unfold exactMatch.
    by rewrite String.eqb_eq.
  - intros He.
    assert (Hr : route = sortByStart part) by by apply routeTasks_part.
    split_and!; [done|rewrite Hr; apply sortByStart_perm|].
    intros t. rewrite Hr, elem_of_sortByStart. unfold part.
    by rewrite elem_of_List_filter.
  - apply routeTasks_sorted.
  - intros i j a b Hij Hi Hj.
    by eapply (sorted_lookup_le route), Hj; [apply routeTasks_sorted|..].
  - intros tasks (t0 & Ht0 & Hid) t.
    rewrite routeTasks_exact.
    + rewrite elem_of_sortByStart, elem_of_List_filter.
      intros [_ Hm]. unfold exactMatch in Hm. apply String.eqb_eq in Hm.
      by apply asciiLower_is_100.
    + done.
    + intros Hnil.
      assert (Hin : t0 ∈ List.filter (exactMatch asciiLower (asciiTrim "100")) tasks).
      { apply elem_of_List_filter. split; [done|].
        unfold exactMatch. by rewrite Hid. }
      rewrite Hnil in Hin. by apply elem_of_nil in Hin.
Qed.

(** ** Lane packing: first fit *)

Lemma findLane_first les s i0 :
  match findLane les s i0 with
  | Some i =>
      (i0 <= i)%nat
      ∧ ∀ l e, (l < i - i0)%nat → les !! l = Some e → s < e - EPS
  | None => ∀ l e, les !! l = Some e → s < e - EPS
  end.
Proof.
  revert i0. induction les as [|e r IH]; intros i0; cbn [findLane].
  - intros l e. by rewrite lookup_nil.
  - destruct (Z.geb_spec s (e - EPS)) as [Hge|Hlt].
    + split; [lia|]. intros l e' Hl. lia.
    + specialize (IH (S i0)). destruct (findLane r s (S i0)) as [i|].
      * destruct IH as [Hi IH]. split; [lia|].
        intros [|l] e' Hl He'; cbn in He'.
        -- injection He' as <-. lia.
        -- apply (IH l); [lia|done].
      * intros [|l] e' He'; cbn in He'.
        -- injection He' as <-. lia.
        -- by apply (IH l).
Qed.

Lemma firstFit_snoc pl x :
  firstFit pl →
  (∀ l, (l < lane x)%nat →
     ∃ i p, pl !! i = Some p ∧ lane p = l
            ∧ start (task x) < end_ (task p) - EPS) →
  firstFit (pl ++ [x]).
Proof.
  intros Hff Hx j q l Hj Hl.
  apply lookup_app_Some in Hj as [Hj|[Hlen Hj]].
  - destruct (Hff j q l Hj Hl) as (i & p & Hij & Hi & Hp).
    exists i, p. split_and!; [done| |apply Hp..].
    apply lookup_app_l_Some, Hi.
  - apply list_lookup_singleton_Some in Hj as [Hj0 <-].
    destruct (Hx l Hl) as (i & p & Hi & Hp).
    exists i, p. apply lookup_lt_Some in Hi as Hlt.
    split_and!; [lia| |apply Hp..].
    apply lookup_app_l_Some, Hi.
Qed.

Lemma placeTask_firstFit st t :
  lanesEnded st → firstFit (placed st) →
  lanesEnded (placeTask st t) ∧ firstFit (placed (placeTask st t)).
Proof.
  intros Hend Hff. unfold placeTask, lanesEnded.
  pose proof (findLane_first (laneEnds st) (start t) 0) as Hfirst.
  destruct (findLane (laneEnds st) (start t) 0) as [k|] eqn:Hfind;
    cbn [laneEnds placed].
  - destruct Hfirst as [_ Hfirst].
    apply findLane_Some in Hfind as (ek & _ & Hek & _).
    rewrite Nat.sub_0_r in Hek. apply lookup_lt_Some in Hek as Hk.
    split.
    + intros l e Hl. destruct (decide (l = k)) as [->|Hne].
      * rewrite list_lookup_insert_eq in Hl by done. injection Hl as <-.
        exists (length (placed st)), (mkLaned t k). split_and!; [|done..].
        by rewrite lookup_app_r, Nat.sub_diag by lia.
      * rewrite list_lookup_insert_ne in Hl by done.
        destruct (Hend l e Hl) as (i & p & Hi & Hp). exists i, p.
        split; [by apply lookup_app_l_Some|done].
    + apply firstFit_snoc; [done|]. cbn [lane task]. intros l Hl.
      destruct (lookup_lt_is_Some_2 (laneEnds st) l) as [e He]; [lia|].
      destruct (Hend l e He) as (i & p & Hi & Hlp & Hep).
      exists i, p. split_and!; [done..|]. rewrite Hep.
      apply (Hfirst l); [lia|done].
  - split.
    + intros l e Hl. apply lookup_app_Some in Hl as [Hl|[Hlen Hl]].
      * destruct (Hend l e Hl) as (i & p & Hi & Hp). exists i, p.
        split; [by apply lookup_app_l_Some|done].
      * apply list_lookup_singleton_Some in Hl as [Hl0 <-].
        exists (length (placed st)), (mkLaned t (length (laneEnds st))).
        split_and!; [|cbn; lia|done].
        by rewrite lookup_app_r, Nat.sub_diag by lia.
    + apply firstFit_snoc; [done|]. cbn [lane task]. intros l Hl.
      destruct (lookup_lt_is_Some_2 (laneEnds st) l) as [e He]; [lia|].
      destruct (Hend l e He) as (i & p & Hi & Hlp & Hep).
      exists i, p. split_and!; [done..|]. rewrite Hep.
      by apply (Hfirst l).
Qed.

Lemma packLoop_firstFit sorted st :
  lanesEnded st → firstFit (placed st) →
  lanesEnded (packLoop sorted st) ∧ firstFit (placed (packLoop sorted st)).
Proof.
  revert st. induction sorted as [|t rest IH]; intros st He Hf; [done|].
  cbn. destruct (placeTask_firstFit st t He Hf) as [He' Hf']. by apply IH.
Qed.

Lemma packLanes_firstFit tasks :
  let st := packLoop (sortByStart tasks) (mkPack [] []) in
  lanesEnded st ∧ firstFit (placed st).
Proof.
  apply packLoop_firstFit.
  - intros l e Hl. cbn in Hl. by rewrite lookup_nil in Hl.
  - intros j q l Hj. cbn in Hj. by rewrite lookup_nil in Hj.
Qed.

(** The loop opens one lane per task at most, and one at least. *)
Lemma placeTask_laneEnds_length st t :
  (length (laneEnds st) <= length (laneEnds (placeTask st t)))%nat
  ∧ (0 < length (laneEnds (placeTask st t)))%nat.
Proof.
  unfold placeTask.
  destruct (findLane (laneEnds st) (start t) 0) as [k|] eqn:Hfind;
    cbn [laneEnds].
  - apply findLane_Some in Hfind as (ek & _ & Hek & _).
    apply lookup_lt_Some in Hek. rewrite length_insert. lia.
  - rewrite length_app. cbn. lia.
Qed.

Lemma packLoop_laneEnds_length sorted st :
  (length (laneEnds st) <= length (laneEnds (packLoop sorted st)))%nat.
Proof.
  revert st. induction sorted as [|t rest IH]; intros st; [done|].
  cbn. etrans; [apply (placeTask_laneEnds_length st t)|apply IH].
Qed.

Lemma packLanes_laneCount_nonempty tasks :
  tasks ≠ [] →
  laneCount (packLanes tasks)
  = length (laneEnds (packLoop (sortByStart tasks) (mkPack [] []))).
Proof.
  intros Hne. unfold packLanes. cbn [laneCount].
  destruct (sortByStart tasks) as [|t rest] eqn:Hs.
  - pose proof (sortByStart_perm tasks) as Hp. rewrite Hs in Hp.
    by apply Permutation_nil_l in Hp.
  - cbn [packLoop foldl].
    pose proof (placeTask_laneEnds_length (mkPack [] []) t) as [_ H1].
    pose proof (packLoop_laneEnds_length rest (placeTask (mkPack [] []) t)) as H2.
    unfold packLoop in H2.
    destruct (Nat.eqb_spec (length (laneEnds (foldl placeTask (placeTask (mkPack [] []) t) rest))) 0); lia.
Qed.

(** X2.  For a non-empty input the lanes in use are exactly the indices
    below [laneCount]: no lane index is skipped and [laneCount] counts no
    empty lane. *)
Theorem packLanes_lanes_in_use (tasks : list Task) (l : nat) :
  tasks ≠ [] →
  (l < laneCount (packLanes tasks))%nat
  ↔ ∃ p, p ∈ placedTasks (packLanes tasks) ∧ lane p = l.
Proof.
  intros Hne. rewrite packLanes_laneCount_nonempty by done. split.
  - intros Hl. destruct (packLanes_firstFit tasks) as [Hend _].
    cbn zeta in Hend.
    destruct (lookup_lt_is_Some_2 _ _ Hl) as [e He].
    destruct (Hend l e He) as (i & p & Hi & Hlp & _).
    exists p. split; [|done]. by eapply list_elem_of_lookup_2.
  - intros (p & Hp & <-). destruct (packLanes_guard tasks) as [Hg _].
    cbn zeta in Hg. destruct (Hg p Hp) as (e & He & _).
    by eapply lookup_lt_Some.
Qed.

Lemma packLanes_lanes_in_use_witness :
  let tasks := [ mkTask "a" "M1" 0 7200000 None;
                 mkTask "b" "M1" 10 20 None ] in
  tasks ≠ []
  ∧ ((1 < laneCount (packLanes tasks))%nat
     ↔ ∃ p, p ∈ placedTasks (packLanes tasks) ∧ lane p = 1%nat).
Proof.
  intros tasks.
  assert (Hne : tasks ≠ []) by discriminate.
  split; [exact Hne|].
  exact (packLanes_lanes_in_use tasks 1 Hne).
Defined.

(** ** Lane packing: no assignment needs fewer lanes *)

Lemma pigeonhole (l : list nat) (m : nat) :
  NoDup l → (∀ x, x ∈ l → (x < m)%nat) → (length l <= m)%nat.
Proof.
  intros Hnd Hlt.
  assert (Hsub : l ⊆+ seq 0 m).
  { apply NoDup_submseteq; [done|]. intros x Hx.
    apply elem_of_seq. specialize (Hlt x Hx). lia. }
  apply submseteq_length in Hsub. by rewrite length_seq in Hsub.
Qed.

Lemma runningAt_clique (tasks : list Task) (j : nat) (q : LanedTask)
    (k : nat) :
  placedTasks (packLanes tasks) !! j = Some q → (k <= S (lane q))%nat →
  ∃ ps : list nat,
    length ps = k ∧ NoDup ps
    ∧ ∀ i, i ∈ ps →
        runningAt (placedTasks (packLanes tasks)) j q i
        ∧ ∃ p, placedTasks (packLanes tasks) !! i = Some p
               ∧ (lane p < k)%nat.
Proof.
  intros Hj. induction k as [|k IH]; intros Hk.
  - exists []. split_and!; [done|constructor|].
    intros i Hi. by apply elem_of_nil in Hi.
  - destruct IH as (ps & Hlen & Hnd & Hps); [lia|].
    assert (Hnew : ∃ i p, placedTasks (packLanes tasks) !! i = Some p
                          ∧ lane p = k
                          ∧ runningAt (placedTasks (packLanes tasks)) j q i).
    { destruct (decide (k = lane q)) as [->|Hne].
      - exists j, q. split_and!; [done..|]. exists q. split_and!; [done|lia|by left].
      - destruct (packLanes_firstFit tasks) as [_ Hff].
        destruct (Hff j q k Hj) as (i & p & Hij & Hi & Hlp & Hcol); [lia|].
        exists i, p. split_and!; [done..|].
        exists p. split_and!; [done|lia|by right]. }
    destruct Hnew as (i & p & Hi & Hlp & Hrun).
    exists (i :: ps). split_and!.
    + cbn. lia.
    + constructor; [|done]. intros Hin.
      destruct (Hps i Hin) as (_ & p' & Hi' & Hlt).
      rewrite Hi in Hi'. injection Hi' as <-. lia.
    + intros i' Hi'. apply elem_of_cons in Hi' as [->|Hi'].
      * split; [done|]. exists p. split; [done|lia].
      * destruct (Hps i' Hi') as (Hr & p' & Hp' & Hlt).
        split; [done|]. exists p'. split; [done|lia].
Qed.

(** On instants, no assignment of lanes gets by with fewer lanes than
    [packLanes]: if [f] gives a lane below [m] to each task, by its
    position in the sorted array, and two tasks share a lane only when the
    one later in that array starts no earlier than the other's end minus
    60,000 ms (the rule [packLanes] keeps), then [laneCount] is at most
    [m]. *)
Lemma packLanes_lane_count_minimal_instants (tasks : list Task) (f : nat → nat)
    (m : nat) :
  tasks ≠ [] →
  (∀ i, (i < length tasks)%nat → (f i < m)%nat) →
  (∀ i j a b, (i < j)%nat →
     sortByStart tasks !! i = Some a → sortByStart tasks !! j = Some b →
     f i = f j → end_ a - 60000 <= start b) →
  (laneCount (packLanes tasks) <= m)%nat.
Proof.
  intros Hne Hm Hsep.
  set (pl := placedTasks (packLanes tasks)).
  assert (Hsorted : ∀ i p, pl !! i = Some p →
                      sortByStart tasks !! i = Some (task p)).
  { intros i p Hi. rewrite <- packLanes_tasks. fold pl.
    by rewrite list_lookup_fmap, Hi. }
  (* a task in the last lane *)
  rewrite packLanes_laneCount_nonempty by done.
  set (n := length (laneEnds (packLoop (sortByStart tasks) (mkPack [] [])))).
  destruct (decide (n = 0)%nat) as [->|Hn]; [lia|].
  destruct (packLanes_firstFit tasks) as [Hend _]. cbn zeta in Hend.
  destruct (lookup_lt_is_Some_2
              (laneEnds (packLoop (sortByStart tasks) (mkPack [] [])))
              (n - 1)) as [e He]; [fold n; lia|].
  destruct (Hend _ _ He) as (j & q & Hj & Hlq & _).
  change (pl !! j = Some q) in Hj.
  destruct (runningAt_clique tasks j q n Hj) as (ps & Hlen & Hnd & Hps);
    [lia|]. fold pl in Hps.
  (* the tasks of [ps] get lanes that differ *)
  assert (Hinj : ∀ i i', i ∈ ps → i' ∈ ps → (i < i')%nat → f i ≠ f i').
  { intros i i' Hi Hi' Hlt Heq.
    destruct (Hps i Hi) as ((p & Hp & Hij & Hrun) & _).
    destruct (Hps i' Hi') as ((p' & Hp' & Hij' & _) & _).
    destruct Hrun as [->|Hrun]; [lia|].
    pose proof (Hsep i i' _ _ Hlt (Hsorted _ _ Hp) (Hsorted _ _ Hp') Heq)
      as Hle.
    assert (Hq : start (task p') <= start (task q)).
    { destruct (decide (i' = j)) as [->|Hne'].
      - rewrite Hj in Hp'. injection Hp' as ->. lia.
      - eapply (packLanes_sorted tasks i' j); [done..|lia]. }
    unfold EPS in Hrun. lia. }
  assert (Hnd' : NoDup (f <$> ps)).
  { apply NoDup_fmap_2_strong; [|done].
    intros i i' Hi Hi' Heq.
    destruct (Nat.lt_total i i') as [Hlt|[?|Hgt]]; [|done|].
    - by destruct (Hinj i i' Hi Hi' Hlt).
    - by destruct (Hinj i' i Hi' Hi Hgt). }
  rewrite <- Hlen, <- (length_fmap f). apply pigeonhole; [done|].
  intros x Hx. apply list_elem_of_fmap in Hx as (i & -> & Hi).
  apply Hm. destruct (Hps i Hi) as (_ & p & Hp & _).
  apply lookup_lt_Some in Hp. unfold pl in Hp.
  rewrite <- (length_fmap task), packLanes_tasks in Hp.
  by rewrite (Permutation_length (sortByStart_perm tasks)) in Hp.
Qed.

(** ** Lane heights *)

Lemma barHeight_values (w : Q) :
  barHeight w = 26 ∨ barHeight w = 32 ∨ barHeight w = 40.
Proof.
  unfold barHeight, baseLane.
  destruct (Qlt_le_dec 220 w); [auto|]. destruct (Qlt_le_dec 120 w); auto.
Qed.

Lemma firstFit_lanesInOrder pl : firstFit pl → lanesInOrder pl.
Proof.
  intros Hff j q l Hj Hl. destruct (Hff j q l Hj Hl) as (i & p & ? & ? & ? & _).
  by exists i, p.
Qed.

Lemma lanesInOrder_prefix pl x : lanesInOrder (pl ++ [x]) → lanesInOrder pl.
Proof.
  intros H j q l Hj Hl.
  destruct (H j q l (lookup_app_l_Some _ _ _ _ Hj) Hl) as (i & p & Hij & Hi & Hp).
  exists i, p. apply lookup_lt_Some in Hj.
  rewrite lookup_app_l in Hi by lia. done.
Qed.

(** The lane heights, for any widths of the bars. *)
Lemma raiseLaneBy_fit w pl lh x :
  lanesInOrder (pl ++ [x]) →
  lanesFit w pl lh → lanesFit w (pl ++ [x]) (raiseLaneBy w lh x).
Proof.
  intros Hord [Hlen Hfit].
  assert (Hx : (lane x <= length lh)%nat).
  { destruct (decide (lane x <= length lh)%nat) as [|Hgt]; [done|].
    destruct (Hord (length pl) x (length lh)) as (i & p & Hi & Hp & Hl);
      [by rewrite lookup_app_r, Nat.sub_diag by lia|lia|].
    rewrite lookup_app_l in Hp by lia.
    assert (length lh < length lh)%nat; [|lia].
    apply Hlen. exists p. split; [by eapply list_elem_of_lookup_2|done]. }
  pose proof (barHeight_values (w (task x))) as Hhx.
  fold (heightBy w x) in Hhx.
  unfold raiseLaneBy, jsSet. fold (heightBy w x).
  destruct (Nat.ltb_spec (lane x) (length lh)) as [Hlt|Hge].
  - destruct (Hfit _ Hlt) as (h & Hh & Hv & Hmax & Hatt).
    assert (Hget : jsGet lh (lane x) = Some h) by (unfold jsGet; by rewrite Hh).
    assert (Hor : orElse (jsGet lh (lane x)) baseLane = h).
    { rewrite Hget. cbn. destruct (Z.eqb_spec h 0); [lia|done]. }
    rewrite Hor. split.
    + intros l. rewrite length_insert, Hlen. split.
      * intros (p & Hp & Hl). exists p. split; [|done].
        apply elem_of_app. by left.
      * intros (p & Hp & Hl). apply elem_of_app in Hp as [Hp|Hp].
        -- by exists p.
        -- apply list_elem_of_singleton in Hp as ->.
           apply Hlen. lia.
    + intros l. rewrite length_insert. intros Hl.
      destruct (decide (l = lane x)) as [->|Hne].
      * exists (Z.max h (heightBy w x)).
        split; [by rewrite list_lookup_insert_eq|].
        split; [lia|]. split.
        -- intros p Hp Hlp. apply elem_of_app in Hp as [Hp|Hp].
           ++ specialize (Hmax p Hp Hlp). lia.
           ++ apply list_elem_of_singleton in Hp as ->. lia.
        -- destruct (Z.max_spec h (heightBy w x)) as [[_ ->]|[_ ->]].
           ++ right. exists x. split; [|done]. apply elem_of_app. right. left.
           ++ destruct Hatt as [Hb|(p & Hp & Hlp & Hop)]; [by left|].
              right. exists p. split; [apply elem_of_app; by left|done].
      * destruct (Hfit _ Hl) as (h' & Hh' & Hv' & Hmax' & Hatt').
        exists h'. split; [by rewrite list_lookup_insert_ne|].
        split; [done|]. split.
        -- intros p Hp Hlp. apply elem_of_app in Hp as [Hp|Hp]; [by apply Hmax'|].
           apply list_elem_of_singleton in Hp as ->. done.
        -- destruct Hatt' as [Hb|(p & Hp & Hlp & Hop)]; [by left|].
           right. exists p. split; [apply elem_of_app; by left|done].
  - assert (Heq : lane x = length lh) by lia.
    assert (Hget : jsGet lh (lane x) = None).
    { unfold jsGet. rewrite lookup_ge_None_2 by lia. done. }
    rewrite Hget, Heq, Nat.sub_diag. cbn [orElse replicate app].
    split.
    + intros l. rewrite length_app. cbn [length]. split.
      * intros Hl. destruct (decide (l = length lh)) as [->|Hne].
        -- exists x. split; [apply elem_of_app; right; left|done].
        -- destruct (proj1 (Hlen l)) as (p & Hp & Hlp); [lia|].
           exists p. split; [apply elem_of_app; by left|done].
      * intros (p & Hp & Hlp). apply elem_of_app in Hp as [Hp|Hp].
        -- assert (l < length lh)%nat; [|lia]. apply Hlen. by exists p.
        -- apply list_elem_of_singleton in Hp as ->. lia.
    + intros l. rewrite length_app. cbn [length]. intros Hl.
      destruct (decide (l = length lh)) as [->|Hne].
      * exists (Z.max baseLane (heightBy w x)).
        split; [by rewrite lookup_app_r, Nat.sub_diag by lia|].
        unfold baseLane. split; [lia|]. split.
        -- intros p Hp Hlp. apply elem_of_app in Hp as [Hp|Hp].
           ++ assert (length lh < length lh)%nat; [|lia].
              apply Hlen. by exists p.
           ++ apply list_elem_of_singleton in Hp as ->. lia.
        -- destruct (Z.max_spec 26 (heightBy w x)) as [[_ ->]|[_ ->]].
           ++ right. exists x. split; [|done]. apply elem_of_app. right. left.
           ++ by left.
      * assert (Hl' : (l < length lh)%nat) by lia.
        destruct (Hfit _ Hl') as (h' & Hh' & Hv' & Hmax' & Hatt').
        exists h'. split; [by apply lookup_app_l_Some|].
        split; [done|]. split.
        -- intros p Hp Hlp. apply elem_of_app in Hp as [Hp|Hp]; [by apply Hmax'|].
           apply list_elem_of_singleton in Hp as ->. lia.
        -- destruct Hatt' as [Hb|(p & Hp & Hlp & Hop)]; [by left|].
           right. exists p. split; [apply elem_of_app; by left|done].
Qed.

Lemma laneHeightsBy_fit w pl :
  lanesInOrder pl → lanesFit w pl (laneHeightsBy w pl).
Proof.
  induction pl as [|x pl IH] using rev_ind; intros Hord.
  - split.
    + intros l. cbn. split; [lia|]. intros (p & Hp & _).
      by apply elem_of_nil in Hp.
    + intros l. cbn. lia.
  - unfold laneHeightsBy. rewrite foldl_app. cbn [foldl].
    apply raiseLaneBy_fit; [done|]. apply IH. by eapply lanesInOrder_prefix.
Qed.

(** In exact arithmetic. *)
Lemma raiseLane_fit k pl lh x :
  lanesInOrder (pl ++ [x]) →
  laneHeightsFit k pl lh → laneHeightsFit k (pl ++ [x]) (raiseLane k lh x).
Proof. exact (raiseLaneBy_fit (barWidth k) pl lh x). Qed.

Lemma laneHeightsOf_fit k pl :
  lanesInOrder pl → laneHeightsFit k pl (laneHeightsOf k pl).
Proof. exact (laneHeightsBy_fit (barWidth k) pl). Qed.

(** ** Lane tops *)

Lemma laneOffset_cons lh i k :
  laneOffset lh i (S k)
  = orElse (jsGet lh i) baseLane + laneGap + laneOffset lh (S i) k.
Proof. reflexivity. Qed.

Lemma laneOffset_snoc lh i k :
  laneOffset lh i (S k)
  = laneOffset lh i k + orElse (jsGet lh (i + k)) baseLane + laneGap.
Proof.
  revert i. induction k as [|k IH]; intros i.
  - cbn. rewrite Nat.add_0_r. lia.
  - rewrite laneOffset_cons, (IH (S i)), (laneOffset_cons lh i k).
    replace (S i + k)%nat with (i + S k)%nat by lia. lia.
Qed.

Lemma stackLanes_spec n i lh tops acc :
  length tops = i →
  length (stackLanes n i lh tops acc).1 = (i + n)%nat
  ∧ (∀ k, (k < i)%nat → (stackLanes n i lh tops acc).1 !! k = tops !! k)
  ∧ (∀ k, (k < n)%nat →
       (stackLanes n i lh tops acc).1 !! (i + k)%nat
       = Some (Some (acc + laneOffset lh i k)))
  ∧ (stackLanes n i lh tops acc).2 = acc + laneOffset lh i n.
Proof.
  revert i tops acc. induction n as [|n IH]; intros i tops acc Hlen.
  - cbn. split_and!; [lia|done|intros; lia|lia].
  - cbn [stackLanes].
    assert (Hset : jsSet i acc tops = tops ++ [Some acc]).
    { unfold jsSet. destruct (Nat.ltb_spec i (length tops)); [lia|].
      by rewrite Hlen, Nat.sub_diag. }
    rewrite Hset.
    destruct (IH (S i) (tops ++ [Some acc])
                (acc + orElse (jsGet lh i) baseLane + laneGap))
      as (H1 & H2 & H3 & H4).
    { rewrite length_app. cbn. lia. }
    split_and!.
    + lia.
    + intros k Hk. rewrite H2 by lia. by rewrite lookup_app_l by lia.
    + intros [|k] Hk.
      * rewrite Nat.add_0_r, H2 by lia.
        rewrite lookup_app_r, Hlen, Nat.sub_diag by lia. cbn.
        do 2 f_equal. lia.
      * replace (i + S k)%nat with (S i + k)%nat by lia.
        rewrite H3 by lia. cbn [laneOffset]. do 2 f_equal. lia.
    + rewrite H4. cbn [laneOffset]. lia.
Qed.

(** Lanes of positive height push the following lanes down. *)
Lemma laneOffset_mono lh a b :
  (∀ l, (l < b)%nat → 0 < orElse (jsGet lh l) baseLane) →
  (a < b)%nat →
  laneOffset lh 0 a + orElse (jsGet lh a) baseLane + laneGap
  <= laneOffset lh 0 b.
Proof.
  intros Hpos Hab. induction b as [|b IH]; [lia|].
  rewrite laneOffset_snoc. cbn [Nat.add].
  destruct (decide (a = b)) as [->|Hne]; [lia|].
  assert (Hb : 0 < orElse (jsGet lh b) baseLane) by (apply Hpos; lia).
  unfold laneGap in *.
  etrans; [apply IH; [intros; apply Hpos; lia|lia]|lia].
Qed.

Lemma packLanes_lanesInOrder arr :
  lanesInOrder (placedTasks (packLanes arr)).
Proof.
  apply firstFit_lanesInOrder. apply (packLanes_firstFit arr).
Qed.

Lemma layoutBy_fields w arr :
  let lh := laneHeightsBy w (placedTasks (packLanes arr)) in
  let n := if Nat.eqb (length lh) 0 then 1%nat else length lh in
  tasks (layoutBy w arr) = placedTasks (packLanes arr)
  ∧ laneHeights (layoutBy w arr) = lh
  ∧ laneTops (layoutBy w arr) = (stackLanes n 0 lh [] rowPadY).1
  ∧ totalHeight (layoutBy w arr)
    = (stackLanes n 0 lh [] rowPadY).2 - laneGap + rowPadY.
Proof.
  intros lh n. unfold layoutBy. fold lh. fold n.
  by destruct (stackLanes n 0 lh [] rowPadY).
Qed.

(** The lanes of a layout, one under the other. *)
Lemma layoutBy_lanes w arr :
  let L := layoutBy w arr in
  let n := if Nat.eqb (length (laneHeights L)) 0 then 1%nat
           else length (laneHeights L) in
  lanesFit w (tasks L) (laneHeights L)
  ∧ length (laneTops L) = n
  ∧ (∀ l, (l < n)%nat →
       jsGet (laneTops L) l = Some (rowPadY + laneOffset (laneHeights L) 0 l))
  ∧ totalHeight L
    = rowPadY + laneOffset (laneHeights L) 0 n - laneGap + rowPadY.
Proof.
  intros L n.
  destruct (layoutBy_fields w arr) as (Ht & Hh & Htops & Htot).
  fold L in Ht, Hh, Htops, Htot. cbn zeta in *.
  rewrite <- Hh in Htops, Htot. fold n in Htops, Htot.
  destruct (stackLanes_spec n 0 (laneHeights L) [] rowPadY eq_refl)
    as (H1 & _ & H3 & H4).
  split_and!.
  - rewrite Ht, Hh. apply laneHeightsBy_fit, packLanes_lanesInOrder.
  - by rewrite Htops, H1.
  - intros l Hl. unfold jsGet. rewrite Htops.
    specialize (H3 l Hl). cbn [Nat.add] in H3. by rewrite H3.
  - by rewrite Htot, H4.
Qed.

Lemma lanesFit_get w pl lh l :
  lanesFit w pl lh → (l < length lh)%nat →
  ∃ h, jsGet lh l = Some h ∧ orElse (jsGet lh l) baseLane = h
       ∧ (h = 26 ∨ h = 32 ∨ h = 40)
       ∧ ∀ p, p ∈ pl → lane p = l → heightBy w p <= h.
Proof.
  intros [_ Hfit] Hl. destruct (Hfit l Hl) as (h & Hh & Hv & Hmax & _).
  exists h. unfold jsGet. rewrite Hh. cbn.
  split_and!; [done| |done..]. destruct (Z.eqb_spec h 0); [lia|done].
Qed.

Lemma lanesFit_positive w pl lh l :
  lanesFit w pl lh → 0 < orElse (jsGet lh l) baseLane.
Proof.
  intros Hfit. destruct (decide (l < length lh)%nat) as [Hl|Hl].
  - destruct (lanesFit_get w pl lh l Hfit Hl) as (h & _ & -> & Hv & _).
    lia.
  - unfold jsGet. rewrite lookup_ge_None_2 by lia. cbn. unfold baseLane. lia.
Qed.

Lemma lanesFit_offset_nonneg w pl lh l :
  lanesFit w pl lh → 0 <= laneOffset lh 0 l.
Proof.
  intros Hfit. induction l as [|l IH]; [done|].
  rewrite laneOffset_snoc. cbn [Nat.add].
  pose proof (lanesFit_positive w pl lh l Hfit). unfold laneGap. lia.
Qed.

(** No row is lower than one lane of the base height with its paddings. *)
Lemma layoutBy_totalHeight_min w arr :
  emptyRowHeight <= totalHeight (layoutBy w arr).
Proof.
  destruct (layoutBy_lanes w arr) as (Hfit & Hlen & Htops & Htot).
  unfold emptyRowHeight. rewrite Htot.
  set (lh := laneHeights (layoutBy w arr)) in *.
  destruct (Nat.eqb_spec (length lh) 0) as [H0|Hn0].
  - cbn [laneOffset]. unfold jsGet. rewrite lookup_ge_None_2 by lia.
    cbn. unfold laneGap, rowPadY, baseLane. lia.
  - pose proof (laneOffset_mono lh 0 (length lh)
                  (λ l _, lanesFit_positive _ _ _ l Hfit)
                  ltac:(lia)) as Hmono.
    change (laneOffset lh 0 0) with 0 in Hmono.
    destruct (lanesFit_get _ _ _ 0%nat Hfit ltac:(lia))
      as (h & _ & Hh & Hv & _).
    rewrite Hh in Hmono. unfold laneGap, rowPadY, baseLane in *. lia.
Qed.

(** The vertical extent of the bars of one row. *)
Lemma layoutBy_bars (w : Task → Q) (arr : list Task) (p q : LanedTask) :
  let L := layoutBy w arr in
  p ∈ tasks L → q ∈ tasks L →
  rowPadY <= barTop L p
  ∧ barTop L p + barH L p + rowPadY <= totalHeight L
  ∧ heightBy w p <= barH L p
  ∧ (barH L p = 26 ∨ barH L p = 32 ∨ barH L p = 40)
  ∧ ((lane p < lane q)%nat →
     barTop L p + barH L p + laneGap <= barTop L q)
  ∧ (lane p = lane q → barTop L p = barTop L q ∧ barH L p = barH L q).
Proof.
  intros L Hp Hq.
  destruct (layoutBy_lanes w arr) as (Hfit & Hlen & Htops & Htot).
  fold L in Hfit, Hlen, Htops, Htot.
  assert (Hin : ∀ x, x ∈ tasks L → (lane x < length (laneHeights L))%nat).
  { intros x Hx. apply (proj1 Hfit). by exists x. }
  pose proof (Hin p Hp) as Hlp. pose proof (Hin q Hq) as Hlq.
  destruct (Nat.eqb_spec (length (laneHeights L)) 0) as [|_]; [lia|].
  assert (Htop : ∀ x, x ∈ tasks L →
            barTop L x = rowPadY + laneOffset (laneHeights L) 0 (lane x)).
  { intros x Hx. unfold barTop. rewrite Htops by (apply Hin, Hx).
    pose proof (lanesFit_offset_nonneg _ _ _ (lane x) Hfit). cbn.
    unfold rowPadY in *.
    by destruct (Z.eqb_spec (10 + laneOffset (laneHeights L) 0 (lane x)) 0);
      [lia|]. }
  destruct (lanesFit_get _ _ _ _ Hfit Hlp) as (h & _ & Hh & Hv & Hmax).
  pose proof (λ l (_ : (l < length (laneHeights L))%nat),
              lanesFit_positive w (tasks L) (laneHeights L) l Hfit)
    as Hpos.
  unfold barH. rewrite Hh, !Htop by done. split_and!.
  - pose proof (lanesFit_offset_nonneg _ _ _ (lane p) Hfit). lia.
  - rewrite Htot. rewrite <- Hh.
    pose proof (laneOffset_mono (laneHeights L) (lane p)
                  (length (laneHeights L)) Hpos Hlp).
    lia.
  - by apply Hmax.
  - done.
  - intros Hlt. rewrite <- Hh.
    pose proof (laneOffset_mono (laneHeights L) (lane p) (lane q)
                  (λ l Hl, Hpos l ltac:(lia)) Hlt).
    lia.
  - intros Heq. rewrite <- Hh, Heq. done.
Qed.

(** In exact arithmetic. *)
Lemma layoutOf_fields k arr :
  let lh := laneHeightsOf k (placedTasks (packLanes arr)) in
  let n := if Nat.eqb (length lh) 0 then 1%nat else length lh in
  tasks (layoutOf k arr) = placedTasks (packLanes arr)
  ∧ laneHeights (layoutOf k arr) = lh
  ∧ laneTops (layoutOf k arr) = (stackLanes n 0 lh [] rowPadY).1
  ∧ totalHeight (layoutOf k arr)
    = (stackLanes n 0 lh [] rowPadY).2 - laneGap + rowPadY.
Proof. exact (layoutBy_fields (barWidth k) arr). Qed.

(** The lanes of a layout, one under the other. *)
Lemma layoutOf_lanes k arr :
  let L := layoutOf k arr in
  let n := if Nat.eqb (length (laneHeights L)) 0 then 1%nat
           else length (laneHeights L) in
  laneHeightsFit k (tasks L) (laneHeights L)
  ∧ length (laneTops L) = n
  ∧ (∀ l, (l < n)%nat →
       jsGet (laneTops L) l = Some (rowPadY + laneOffset (laneHeights L) 0 l))
  ∧ totalHeight L
    = rowPadY + laneOffset (laneHeights L) 0 n - laneGap + rowPadY.
Proof. exact (layoutBy_lanes (barWidth k) arr). Qed.

Lemma laneHeightsFit_get k pl lh l :
  laneHeightsFit k pl lh → (l < length lh)%nat →
  ∃ h, jsGet lh l = Some h ∧ orElse (jsGet lh l) baseLane = h
       ∧ (h = 26 ∨ h = 32 ∨ h = 40)
       ∧ ∀ p, p ∈ pl → lane p = l → ownHeight k p <= h.
Proof. exact (lanesFit_get (barWidth k) pl lh l). Qed.

Lemma laneHeightsFit_positive k pl lh l :
  laneHeightsFit k pl lh → 0 < orElse (jsGet lh l) baseLane.
Proof. exact (lanesFit_positive (barWidth k) pl lh l). Qed.

Lemma laneOffset_nonneg k pl lh l :
  laneHeightsFit k pl lh → 0 <= laneOffset lh 0 l.
Proof. exact (lanesFit_offset_nonneg (barWidth k) pl lh l). Qed.

(** No row is lower than one lane of the base height with its paddings. *)
Lemma layoutOf_totalHeight_min k arr :
  emptyRowHeight <= totalHeight (layoutOf k arr).
Proof. exact (layoutBy_totalHeight_min (barWidth k) arr). Qed.

(** The vertical extent of the bars of one row. *)
Lemma layoutOf_bars (pxPerMs : Q) (arr : list Task) (p q : LanedTask) :
  let L := layoutOf pxPerMs arr in
  p ∈ tasks L → q ∈ tasks L →
  rowPadY <= barTop L p
  ∧ barTop L p + barH L p + rowPadY <= totalHeight L
  ∧ ownHeight pxPerMs p <= barH L p
  ∧ (barH L p = 26 ∨ barH L p = 32 ∨ barH L p = 40)
  ∧ ((lane p < lane q)%nat →
     barTop L p + barH L p + laneGap <= barTop L q)
  ∧ (lane p = lane q → barTop L p = barTop L q ∧ barH L p = barH L q).
Proof. exact (layoutBy_bars (barWidth pxPerMs) arr p q). Qed.

(** In exact arithmetic the width is [barWidth pxPerMs], and the layout
    is [layoutOf pxPerMs]. *)
Lemma layoutBy_exact (pxPerMs : Q) (arr : list Task) :
  layoutBy (barWidth pxPerMs) arr = layoutOf pxPerMs arr.
Proof. reflexivity. Qed.

(** The height of a lane is asked for by one of its bars. *)
Lemma lanesFit_attained w pl lh p :
  lanesFit w pl lh → p ∈ pl →
  ∃ p', p' ∈ pl ∧ lane p' = lane p
        ∧ orElse (jsGet lh (lane p)) baseLane = heightBy w p'.
Proof.
  intros Hfit Hp.
  assert (Hl : (lane p < length lh)%nat) by (apply (proj1 Hfit); by exists p).
  destruct (lanesFit_get w pl lh _ Hfit Hl) as (h & _ & Hh & _ & Hmax).
  destruct (proj2 Hfit _ Hl) as (h' & Hh' & _ & _ & Hatt).
  assert (h' = h) as ->.
  { revert Hh. unfold jsGet. rewrite Hh'. cbn.
    destruct (Z.eqb_spec h' 0); [|done]. intros <-.
    destruct Hatt as [Hb|(x & _ & _ & Hx)]; [done|].
    pose proof (barHeight_values (w (task x))). unfold heightBy in Hx. lia. }
  rewrite Hh. destruct Hatt as [->|(x & Hx & Hlx & Hhx)].
  - exists p. split_and!; [done..|].
    specialize (Hmax p Hp eq_refl).
    pose proof (barHeight_values (w (task p))) as Hv.
    unfold heightBy in *. unfold baseLane in *. lia.
  - by exists x.
Qed.

(** X5.  In the layout of a resource, whatever widths the engine's
    arithmetic gives the bars, every bar lies between the paddings of the
    row: its top is at least 10 px below the top of the row and its bottom
    at least 10 px above [totalHeight].  A lane is exactly as high as the
    highest bar in it asks for (26, 32 or 40 px): no bar of the lane asks
    for more, and one of them asks for that height.  A bar in a lower lane
    starts at least 6 px under the bottom of every bar in a lane above, and
    the bars of one lane have the same top and height. *)
Theorem layoutOf_bars_stack (widthOf : Task → Q) (arr : list Task)
    (p q : LanedTask) :
  let L := layoutBy widthOf arr in
  p ∈ tasks L → q ∈ tasks L →
  rowPadY <= barTop L p
  ∧ barTop L p + barH L p + rowPadY <= totalHeight L
  ∧ heightBy widthOf p <= barH L p
  ∧ (∃ p', p' ∈ tasks L ∧ lane p' = lane p
           ∧ heightBy widthOf p' = barH L p)
  ∧ (barH L p = 26 ∨ barH L p = 32 ∨ barH L p = 40)
  ∧ ((lane p < lane q)%nat →
     barTop L p + barH L p + laneGap <= barTop L q)
  ∧ (lane p = lane q → barTop L p = barTop L q ∧ barH L p = barH L q).
Proof.
  intros L Hp Hq.
  destruct (layoutBy_bars widthOf arr p q Hp Hq)
    as (H1 & H2 & H3 & H4 & H5 & H6).
  destruct (layoutBy_lanes widthOf arr) as (Hfit & _).
  destruct (lanesFit_attained _ _ _ p Hfit Hp) as (p' & Hp' & Hl & Hh).
  split_and!; [done..| |done|done|done].
  exists p'. by split_and!.
Qed.

Lemma layoutOf_bars_stack_witness :
  let arr := [ mkTask "a" "M1" 0 7200000 None;
               mkTask "b" "M1" 10 20 None ] in
  let w := barWidth (pxPerMsOf 110) in
  let p := mkLaned (mkTask "a" "M1" 0 7200000 None) 0 in
  let q := mkLaned (mkTask "b" "M1" 10 20 None) 1 in
  p ∈ tasks (layoutBy w arr)
  ∧ q ∈ tasks (layoutBy w arr)
  ∧ rowPadY <= barTop (layoutBy w arr) p.
Proof.
  intros arr w p q.
  assert (Hp : p ∈ tasks (layoutBy w arr)) by (left).
  assert (Hq : q ∈ tasks (layoutBy w arr)) by (right; left).
  split_and!; [exact Hp|exact Hq|].
  exact (proj1 (layoutOf_bars_stack w arr p q Hp Hq)).
Defined.

Lemma laneOffset_sum lh n :
  n = length lh →
  laneOffset lh 0 n
  = foldr (λ h s, orElse h baseLane + s) 0 lh + laneGap * Z.of_nat n.
Proof.
  intros ->.
  assert (H : ∀ pre l, laneOffset (pre ++ l) (length pre) (length l)
              = foldr (λ h s, orElse h baseLane + s) 0 l
                + laneGap * Z.of_nat (length l)).
  { intros pre l. revert pre. induction l as [|x l IH]; intros pre.
    - cbn. lia.
    - cbn [length foldr]. rewrite laneOffset_cons.
      unfold jsGet at 1. rewrite list_lookup_middle by done.
      replace (pre ++ x :: l) with ((pre ++ [x]) ++ l)
        by (by rewrite <- app_assoc).
      replace (S (length pre)) with (length (pre ++ [x]))
        by (rewrite length_app; cbn; lia).
      rewrite IH. cbn [mjoin option_join]. lia. }
  apply (H [] lh).
Qed.

(** X6.  The height of a resource's row is the two paddings of 10 px, the
    heights of its lanes and a gap of 6 px between consecutive lanes; a
    resource without tasks gets one lane of the base height, 46 px in all,
    and no row is lower than that. *)
Theorem layoutOf_totalHeight (pxPerMs : Q) (arr : list Task) :
  let L := layoutOf pxPerMs arr in
  (arr ≠ [] →
     length (laneHeights L) = laneCount (packLanes arr)
     ∧ totalHeight L
       = 2 * rowPadY
         + foldr (λ h s, orElse h baseLane + s) 0 (laneHeights L)
         + laneGap * (Z.of_nat (length (laneHeights L)) - 1))
  ∧ (arr = [] → totalHeight L = 2 * rowPadY + baseLane)
  ∧ 2 * rowPadY + baseLane <= totalHeight L.
Proof.
  intros L.
  destruct (layoutOf_lanes pxPerMs arr) as (Hfit & Hlen & Htops & Htot).
  fold L in Hfit, Hlen, Htops, Htot.
  assert (Hnonempty : arr ≠ [] → (0 < length (laneHeights L))%nat).
  { intros Hne. destruct arr as [|t arr']; [done|].
    pose proof (sortByStart_perm (t :: arr')) as Hperm.
    rewrite <- packLanes_tasks in Hperm.
    destruct (placedTasks (packLanes (t :: arr'))) as [|x pl] eqn:Hpl.
    { cbn in Hperm. by apply Permutation_nil_l in Hperm. }
    assert (Hx : x ∈ tasks L).
    { destruct (layoutOf_fields pxPerMs (t :: arr')) as (Ht & _).
      fold L in Ht. rewrite Ht, Hpl. left. }
    assert (lane x < length (laneHeights L))%nat; [|lia].
    apply (proj1 Hfit). by exists x. }
  split_and!.
  - intros Hne. specialize (Hnonempty Hne).
    destruct (Nat.eqb_spec (length (laneHeights L)) 0) as [|_]; [lia|].
    split.
    + rewrite packLanes_laneCount_nonempty by done.
      apply Nat.le_antisymm.
      * destruct (decide (length (laneHeights L)
                          <= length (laneEnds (packLoop (sortByStart arr)
                                                 (mkPack [] []))))%nat)
          as [|Hgt]; [done|].
        destruct (proj1 ((proj1 Hfit) (length (laneEnds (packLoop (sortByStart arr) (mkPack [] []))))))
          as (x & Hx & Hlx); [lia|].
        destruct (layoutOf_fields pxPerMs arr) as (Ht & _).
        fold L in Ht. rewrite Ht in Hx.
        destruct (packLanes_guard arr) as [Hg _]. cbn zeta in Hg.
        destruct (Hg x Hx) as (e & He & _). apply lookup_lt_Some in He. lia.
      * destruct (decide (length (laneEnds (packLoop (sortByStart arr)
                                              (mkPack [] [])))
                          <= length (laneHeights L))%nat) as [|Hgt]; [done|].
        destruct (packLanes_firstFit arr) as [Hend _]. cbn zeta in Hend.
        destruct (lookup_lt_is_Some_2
                    (laneEnds (packLoop (sortByStart arr) (mkPack [] [])))
                    (length (laneHeights L))) as [e He]; [lia|].
        destruct (Hend _ _ He) as (i & x & Hi & Hlx & _).
        assert (lane x < length (laneHeights L))%nat; [|lia].
        apply (proj1 Hfit). exists x. split; [|done].
        destruct (layoutOf_fields pxPerMs arr) as (Ht & _).
        fold L in Ht. rewrite Ht. by eapply list_elem_of_lookup_2.
    + rewrite Htot, (laneOffset_sum _ _ eq_refl). unfold laneGap, rowPadY. lia.
  - intros ->. reflexivity.
  - apply layoutOf_totalHeight_min.
Qed.

Lemma layoutOf_totalHeight_witness :
  let arr := [ mkTask "a" "M1" 0 7200000 None;
               mkTask "b" "M1" 10 20 None ] in
  arr ≠ []
  ∧ totalHeight (layoutOf (pxPerMsOf 110) arr)
    = 2 * rowPadY
      + foldr (λ h s, orElse h baseLane + s) 0
          (laneHeights (layoutOf (pxPerMsOf 110) arr))
      + laneGap * (Z.of_nat (length (laneHeights (layoutOf (pxPerMsOf 110) arr))) - 1).
Proof.
  intros arr.
  assert (Hne : arr ≠ []) by discriminate.
  split; [exact Hne|].
  exact (proj2 (proj1 (layoutOf_totalHeight (pxPerMsOf 110) arr) Hne)).
Defined.

(** ** Grouping by resource *)

Lemma addUnique_spec seen x :
  NoDup seen →
  NoDup (addUnique seen x) ∧ ∀ y, y ∈ addUnique seen x ↔ y ∈ seen ∨ y = x.
Proof.
  intros Hnd. unfold addUnique. case_bool_decide as Hin.
  - split; [done|]. intros y. split; [by left|]. by intros [?| ->].
  - split.
    + apply NoDup_app. split_and!; [done| |apply NoDup_singleton].
      intros y Hy Hy'. apply list_elem_of_singleton in Hy' as ->. done.
    + intros y. rewrite elem_of_app, list_elem_of_singleton. done.
Qed.

Lemma foldl_addUnique_spec seen l :
  NoDup seen →
  NoDup (foldl addUnique seen l)
  ∧ ∀ y, y ∈ foldl addUnique seen l ↔ y ∈ seen ∨ y ∈ l.
Proof.
  revert seen. induction l as [|x l IH]; intros seen Hnd; cbn [foldl].
  - split; [done|]. intros y. rewrite elem_of_nil. tauto.
  - destruct (addUnique_spec seen x Hnd) as [Hnd' Hin'].
    destruct (IH _ Hnd') as [Hnd'' Hin'']. split; [done|].
    intros y. rewrite Hin'', Hin', elem_of_cons. tauto.
Qed.

Lemma uniqueInOrder_spec l :
  NoDup (uniqueInOrder l) ∧ ∀ y, y ∈ uniqueInOrder l ↔ y ∈ l.
Proof.
  destruct (foldl_addUnique_spec [] l (NoDup_nil_2)) as [Hnd Hin].
  split; [done|]. intros y. rewrite Hin, elem_of_nil. tauto.
Qed.

Lemma pushToGroup_keys res t g :
  (pushToGroup res t g).*1 = addUnique (g.*1) res.
Proof.
  induction g as [|[r arr] g IH]; [done|].
  cbn [pushToGroup]. unfold addUnique in *. cbn [fmap list_fmap fst].
  destruct (String.eqb_spec r res) as [->|Hne].
  - rewrite bool_decide_eq_true_2 by left. done.
  - cbn [fmap list_fmap fst]. rewrite IH.
    case_bool_decide as Hin.
    + rewrite bool_decide_eq_true_2 by (by right). done.
    + rewrite bool_decide_eq_false_2; [done|].
      intros Hin'. apply elem_of_cons in Hin' as [->|?]; done.
Qed.

Lemma mapGet_pushToGroup res t g r :
  mapGet (pushToGroup res t g) r
  = if String.eqb res r then Some (default [] (mapGet g res) ++ [t])
    else mapGet g r.
Proof.
  induction g as [|[r0 arr0] g IH]; cbn [pushToGroup mapGet].
  - by destruct (String.eqb_spec res r).
  - destruct (String.eqb_spec r0 res) as [->|Hne]; cbn [mapGet].
    + by destruct (String.eqb_spec res r).
    + rewrite IH. destruct (String.eqb_spec res r) as [->|Hne'].
      * by rewrite (proj2 (String.eqb_neq _ _) Hne).
      * done.
Qed.

Lemma mapGet_elem_of {V} (g : list (string * V)) r v :
  NoDup (g.*1) → (r, v) ∈ g → mapGet g r = Some v.
Proof.
  induction g as [|[r0 v0] g IH]; intros Hnd Hin.
  - by apply elem_of_nil in Hin.
  - cbn [fmap list_fmap fst] in Hnd. apply NoDup_cons in Hnd as [Hr0 Hnd].
    cbn [mapGet]. apply elem_of_cons in Hin as [[= -> ->]|Hin].
    + by rewrite String.eqb_refl.
    + destruct (String.eqb_spec r0 r) as [->|_]; [|by apply IH].
      destruct Hr0. apply list_elem_of_fmap. by exists (r, v).
Qed.

Lemma mapGet_Some_elem_of {V} (g : list (string * V)) r v :
  mapGet g r = Some v → (r, v) ∈ g.
Proof.
  induction g as [|[r0 v0] g IH]; [done|]. cbn [mapGet].
  destruct (String.eqb_spec r0 r) as [->|_].
  - intros [= ->]. left.
  - intros H. right. by apply IH.
Qed.

Lemma mapGet_fmap {V W} (h : V → W) (g : list (string * V)) r :
  mapGet (List.map (λ '(k, v), (k, h v)) g) r = h <$> mapGet g r.
Proof.
  induction g as [|[r0 v0] g IH]; [done|]. cbn [List.map mapGet].
  by destruct (String.eqb r0 r).
Qed.

Lemma keys_fmap {V W} (h : V → W) (g : list (string * V)) :
  (List.map (λ '(k, v), (k, h v)) g).*1 = g.*1.
Proof.
  induction g as [|[r0 v0] g IH]; [done|]. cbn. by f_equal.
Qed.

Lemma groupByResource_keys_from g l :
  (foldl (λ groups t, pushToGroup (resource t) t groups) g l).*1
  = foldl addUnique (g.*1) (resource <$> l).
Proof.
  revert g. induction l as [|t l IH]; intros g; [done|].
  cbn [foldl fmap list_fmap]. by rewrite IH, pushToGroup_keys.
Qed.

Lemma groupByResource_get_from g done l r :
  (∀ r, mapGet g r
        = match List.filter (λ t, String.eqb (resource t) r) done with
          | [] => None
          | arr => Some arr
          end) →
  mapGet (foldl (λ groups t, pushToGroup (resource t) t groups) g l) r
  = match List.filter (λ t, String.eqb (resource t) r) (done ++ l) with
    | [] => None
    | arr => Some arr
    end.
Proof.
  revert g done. induction l as [|t l IH]; intros g done Hg.
  - by rewrite app_nil_r.
  - cbn [foldl]. replace (done ++ t :: l) with ((done ++ [t]) ++ l)
      by (by rewrite <- app_assoc).
    apply IH. intros r'. rewrite mapGet_pushToGroup, List.filter_app.
    cbn [List.filter]. rewrite String.eqb_sym.
    destruct (String.eqb_spec r' (resource t)) as [->|Hne].
    + rewrite Hg.
      by destruct (List.filter (λ t0, (resource t0 =? resource t)%string) done).
    + rewrite app_nil_r. apply Hg.
Qed.

Lemma groupByResource_spec (filtered : list Task) :
  (groupByResource filtered).*1 = uniqueInOrder (resource <$> filtered)
  ∧ ∀ r arr, (r, arr) ∈ groupByResource filtered
      ↔ arr = List.filter (λ t, String.eqb (resource t) r) filtered
        ∧ arr ≠ [].
Proof.
  assert (Hkeys : (groupByResource filtered).*1
                  = uniqueInOrder (resource <$> filtered))
    by apply (groupByResource_keys_from [] filtered).
  assert (Hget : ∀ r, mapGet (groupByResource filtered) r
            = match List.filter (λ t, String.eqb (resource t) r) filtered with
              | [] => None
              | arr => Some arr
              end)
    by (intros r; by apply (groupByResource_get_from [] [] filtered r)).
  split; [done|]. intros r arr. split.
  - intros Hin. apply mapGet_elem_of in Hin.
    + rewrite Hget in Hin.
      destruct (List.filter _ filtered); [done|]. by injection Hin as <-.
    + rewrite Hkeys. apply uniqueInOrder_spec.
  - intros [-> Hne]. apply mapGet_Some_elem_of. rewrite Hget.
    by destruct (List.filter _ filtered).
Qed.

(** X7.  [lanedByMachine] has one layout per resource that has a visible
    task, in the order in which the resources first occur among the visible
    tasks.  The layout of a resource holds the visible tasks of that
    resource and no others, each once. *)
Theorem lanedByMachine_groups (filtered : list Task) (pxPerMs : Q) :
  (lanedByMachine filtered pxPerMs).*1
  = uniqueInOrder (resource <$> filtered)
  ∧ NoDup ((lanedByMachine filtered pxPerMs).*1)
  ∧ (∀ r, r ∈ (lanedByMachine filtered pxPerMs).*1
          ↔ ∃ t, t ∈ filtered ∧ resource t = r)
  ∧ ∀ r L, (r, L) ∈ lanedByMachine filtered pxPerMs →
      mapGet (lanedByMachine filtered pxPerMs) r = Some L
      ∧ task <$> tasks L
        ≡ₚ List.filter (λ t, String.eqb (resource t) r) filtered
      ∧ (∀ t, t ∈ task <$> tasks L ↔ t ∈ filtered ∧ resource t = r)
      ∧ tasks L ≠ [].
Proof.
  destruct (groupByResource_spec filtered) as [Hkeys Hgroups].
  assert (Hk : (lanedByMachine filtered pxPerMs).*1
               = uniqueInOrder (resource <$> filtered)).
  { rewrite <- Hkeys. apply keys_fmap. }
  destruct (uniqueInOrder_spec (resource <$> filtered)) as [Hnd Hin].
  split_and!.
  - done.
  - by rewrite Hk.
  - intros r. rewrite Hk, Hin, list_elem_of_fmap. split.
    + intros (t & -> & Ht). by exists t.
    + intros (t & Ht & <-). by exists t.
  - intros r L HL.
    assert (Hget : mapGet (lanedByMachine filtered pxPerMs) r = Some L).
    { apply mapGet_elem_of; [by rewrite Hk|done]. }
    split; [done|].
    unfold lanedByMachine in Hget. rewrite mapGet_fmap in Hget.
    destruct (mapGet (groupByResource filtered) r) as [arr|] eqn:Harr;
      [|done].
    injection Hget as <-.
    apply mapGet_Some_elem_of, Hgroups in Harr as [-> Hne].
    destruct (layoutOf_fields pxPerMs
                (List.filter (λ t, String.eqb (resource t) r) filtered))
      as (Ht & _).
    rewrite Ht, packLanes_tasks. split_and!.
    + apply sortByStart_perm.
    + intros t. rewrite elem_of_sortByStart, elem_of_List_filter.
      by rewrite String.eqb_eq.
    + intros Hnil.
      assert (Hlen : length (sortByStart (List.filter
                (λ t, String.eqb (resource t) r) filtered)) = 0%nat).
      { by rewrite <- packLanes_tasks, Hnil. }
      rewrite (Permutation_length (sortByStart_perm _)) in Hlen.
      by destruct (List.filter _ filtered).
Qed.

(** ** Rendered machines *)

Lemma isEmptyList_true {A} (l : list A) : isEmptyList l = true → l = [].
Proof. by destruct l. Qed.

Lemma NoDup_List_filter {A} (f : A → bool) (l : list A) :
  NoDup l → NoDup (List.filter f l).
Proof.
  induction 1 as [|x l Hx Hnd IH]; cbn; [constructor|].
  destruct (f x); [|done]. constructor; [|done].
  rewrite elem_of_List_filter. by intros [? _].
Qed.

Lemma routeTasks_subset toLowerCase trim allTasks query t :
  t ∈ routeTasks toLowerCase trim allTasks query → t ∈ allTasks.
Proof.
  unfold routeTasks. destruct (isEmptyString _).
  - intros H. by apply elem_of_nil in H.
  - destruct (negb _); rewrite elem_of_sortByStart, elem_of_List_filter;
      by intros [? _].
Qed.

Lemma size_list_to_set_pos (selected : list string) :
  (0 <? size (list_to_set selected : gset string))%nat
  = negb (isEmptyList selected).
Proof.
  destruct selected as [|x l]; [done|]. cbn [isEmptyList negb].
  apply Nat.ltb_lt.
  assert (x ∈ (list_to_set (x :: l) : gset string)) as Hx
    by (apply elem_of_list_to_set; left).
  destruct (decide (size (list_to_set (x :: l) : gset string) = 0)%nat)
    as [H0|]; [|lia].
  apply size_empty_inv in H0. rewrite H0 in Hx. by apply elem_of_empty in Hx.
Qed.

(** Which tasks are visible. *)
Lemma filtered_visible toLowerCase trim allTasks query
    (sel : gset string) timeFrom timeTo t :
  let route := routeTasks toLowerCase trim allTasks query in
  t ∈ filtered toLowerCase trim allTasks query sel timeFrom timeTo
  ↔ (if isEmptyList route then t ∈ allTasks else t ∈ route)
    ∧ ((0 < size sel)%nat → resource t ∈ sel)
    ∧ (route = [] → query ≠ EmptyString →
       partMatch toLowerCase query t = true)
    ∧ intersects timeFrom timeTo t = true.
Proof.
  intros route. unfold filtered. fold route.
  rewrite elem_of_List_filter.
  destruct route as [|r0 rs] eqn:Hr; cbn [isEmptyList negb andb].
  - destruct (Nat.ltb_spec 0 (size sel)) as [Hs|Hs];
      destruct query as [|c q]; cbn [isEmptyString negb];
      rewrite ?elem_of_List_filter, ?bool_decide_eq_true.
    + split; [intros [[? ?] ?]|intros (? & ? & _ & ?)]; split_and!; auto; done.
    + split; [intros [[[? ?] ?] ?]|intros (? & ? & ? & ?)]; split_and!; auto.
    + split; [intros [? ?]|intros (? & _ & _ & ?)]; split_and!; auto; try done; lia.
    + split; [intros [[? ?] ?]|intros (? & _ & ? & ?)]; split_and!; auto; lia.
  - destruct (Nat.ltb_spec 0 (size sel)) as [Hs|Hs];
      rewrite ?elem_of_List_filter, ?bool_decide_eq_true.
    + split; [intros [[? ?] ?]|intros (? & ? & _ & ?)]; split_and!; auto; done.
    + split; [intros [? ?]|intros (? & _ & _ & ?)]; split_and!; auto; try done; lia.
Qed.

(** X8.  What the view shows.  A visible task is a route task when the
    query names a route, and a loaded task otherwise; it is on a selected
    machine when machines are selected; it passes the time window; and
    with a query that names no route its identifier contains the query as
    typed (not trimmed), up to case.  Every task that meets these
    conditions is visible. *)
Theorem filtered_shows_exactly (toLowerCase trim : string → string)
    (allTasks : list Task) (query : string) (sel : gset string)
    (timeFrom timeTo : option Z) (t : Task) :
  let route := routeTasks toLowerCase trim allTasks query in
  (t ∈ filtered toLowerCase trim allTasks query sel timeFrom timeTo
   ↔ (if isEmptyList route then t ∈ allTasks else t ∈ route)
     ∧ (sel ≠ ∅ → resource t ∈ sel)
     ∧ (route = [] → query ≠ EmptyString →
        includes (toLowerCase (taskId t)) (toLowerCase query) = true)
     ∧ intersects timeFrom timeTo t = true)
  ∧ (t ∈ filtered toLowerCase trim allTasks query sel timeFrom timeTo →
     t ∈ allTasks).
Proof.
  intros route.
  assert (Hsel : (0 < size sel)%nat ↔ sel ≠ ∅).
  { split.
    - intros Hs ->. rewrite size_empty in Hs. lia.
    - intros Hne. destruct (decide (size sel = 0)%nat) as [H0|]; [|lia].
      by apply size_empty_inv, leibniz_equiv in H0. }
  split.
  - rewrite filtered_visible. fold route. unfold partMatch.
    by rewrite Hsel.
  - rewrite filtered_visible. fold route. intros (Hin & _).
    destruct (isEmptyList route); [done|].
    by eapply routeTasks_subset.
Qed.

Section MachinesFacts.
Variable localeSort : list string → list string.
Hypothesis localeSort_perm : ∀ l, localeSort l ≡ₚ l.

Lemma machinesAll_spec allTasks :
  NoDup (machinesAll localeSort allTasks)
  ∧ ∀ r, r ∈ machinesAll localeSort allTasks
         ↔ ∃ t, t ∈ allTasks ∧ resource t = r.
Proof.
  unfold machinesAll.
  destruct (uniqueInOrder_spec (resource <$> allTasks)) as [Hnd Hin].
  split.
  - by rewrite localeSort_perm.
  - intros r. rewrite localeSort_perm, Hin, list_elem_of_fmap. split.
    + intros (t & -> & Ht). by exists t.
    + intros (t & Ht & <-). by exists t.
Qed.

Lemma machinesToRender_spec toLowerCase trim allTasks query
    (selected : list string) timeFrom timeTo :
  let route := routeTasks toLowerCase trim allTasks query in
  let rows := machinesToRender (machinesAll localeSort allTasks) selected
                route (routeMachines route) in
  NoDup selected →
  NoDup rows
  ∧ (∀ r, r ∈ rows → ∃ t, t ∈ allTasks ∧ resource t = r)
  ∧ ∀ t, t ∈ filtered toLowerCase trim allTasks query
               (list_to_set selected) timeFrom timeTo →
         resource t ∈ rows.
Proof.
  intros route rows Hnd.
  destruct (machinesAll_spec allTasks) as [HndAll HinAll].
  destruct (uniqueInOrder_spec (resource <$> route)) as [HndR HinR].
  unfold rows, machinesToRender, routeMachines.
  destruct (isEmptyList route) eqn:Hr; cbn [negb].
  - apply isEmptyList_true in Hr.
    destruct (isEmptyList selected) eqn:Hs; cbn [negb].
    + split_and!; [done|intros r; apply HinAll|].
      intros t Ht. apply HinAll. exists t. split; [|done].
      apply filtered_visible in Ht as (Ht & _). fold route in Ht.
      by rewrite Hr in Ht.
    + split_and!.
      * by apply NoDup_List_filter.
      * intros r Hin. apply elem_of_List_filter in Hin as [_ Hin].
        apply bool_decide_eq_true in Hin. by apply HinAll.
      * intros t Ht. apply filtered_visible in Ht as (Ht & Hsel & _).
        fold route in Ht. rewrite Hr in Ht. cbn in Ht.
        apply elem_of_List_filter. split.
        -- apply (elem_of_list_to_set (C := gset string)), Hsel, Nat.ltb_lt.
           by rewrite size_list_to_set_pos, Hs.
        -- apply bool_decide_eq_true, HinAll. by exists t.
  - split_and!.
    + done.
    + intros r Hin. apply HinR, list_elem_of_fmap in Hin as (t & -> & Ht).
      exists t. split; [|done]. by eapply routeTasks_subset.
    + intros t Ht. apply HinR, list_elem_of_fmap. exists t. split; [done|].
      apply filtered_visible in Ht as (Ht & _). fold route in Ht.
      by rewrite Hr in Ht.
Qed.
End MachinesFacts.

(** X9.  Every visible task has a row: its machine is among the machines
    rendered, whether these are the machines of the route, the selected
    machines or all machines.  The rendered machines are pairwise distinct
    and each is the machine of some loaded task.  (The host's collation
    enters only in that sorting returns a permutation.) *)
Theorem machinesToRender_covers_view (localeSort : list string → list string)
    (toLowerCase trim : string → string) (allTasks : list Task)
    (query : string) (selected : list string) (timeFrom timeTo : option Z) :
  (∀ l, localeSort l ≡ₚ l) → NoDup selected →
  let route := routeTasks toLowerCase trim allTasks query in
  let rows := machinesToRender (machinesAll localeSort allTasks) selected
                route (routeMachines route) in
  NoDup rows
  ∧ (∀ r, r ∈ rows → ∃ t, t ∈ allTasks ∧ resource t = r)
  ∧ ∀ t, t ∈ filtered toLowerCase trim allTasks query
               (list_to_set selected) timeFrom timeTo →
         resource t ∈ rows.
Proof. intros Hperm Hnd. by apply machinesToRender_spec. Qed.

Lemma machinesToRender_covers_view_witness :
  let all := [ mkTask "100" "B" 5 6 None; mkTask "200" "A" 1 2 None ] in
  (∀ l : list string, l ≡ₚ l) ∧ NoDup ["B"%string]
  ∧ ∀ t, t ∈ filtered asciiLower asciiTrim all EmptyString (list_to_set ["B"%string])
               None None →
         resource t ∈ machinesToRender (machinesAll (λ l, l) all)
                        ["B"%string]
                        (routeTasks asciiLower asciiTrim all EmptyString)
                        (routeMachines (routeTasks asciiLower asciiTrim all EmptyString)).
Proof.
  intros all.
  assert (Hperm : ∀ l : list string, l ≡ₚ l) by (intros l; reflexivity).
  assert (Hnd : NoDup ["B"%string]) by (apply NoDup_singleton).
  split_and!; [exact Hperm|exact Hnd|].
  exact (proj2 (proj2 (machinesToRender_covers_view (λ l, l) asciiLower
                         asciiTrim all EmptyString ["B"%string] None None Hperm Hnd))).
Defined.

(** ** Rows *)

Lemma mapGet_mapSet {V} (key : string) (v : V) (m : list (string * V)) r :
  mapGet (mapSet key v m) r
  = if String.eqb key r then Some v else mapGet m r.
Proof.
  induction m as [|[k x] m IH]; cbn [mapSet mapGet]; [done|].
  destruct (String.eqb_spec k key) as [->|Hne]; cbn [mapGet].
  - by destruct (String.eqb_spec key r).
  - rewrite IH. destruct (String.eqb_spec key r) as [->|_]; [|done].
    by rewrite (proj2 (String.eqb_neq _ _) Hne).
Qed.

Lemma rowHeights_get_from (laned : list (string * Layout)) rows m r :
  mapGet (foldl (λ m r,
                   mapSet r (orElse (totalHeight <$> mapGet laned r)
                                    emptyRowHeight) m) m rows) r
  = if bool_decide (r ∈ rows)
    then Some (orElse (totalHeight <$> mapGet laned r) emptyRowHeight)
    else mapGet m r.
Proof.
  revert m. induction rows as [|x rows IH]; intros m; cbn [foldl].
  - by rewrite bool_decide_eq_false_2 by apply not_elem_of_nil.
  - rewrite IH, mapGet_mapSet. case_bool_decide as Hin.
    + rewrite bool_decide_eq_true_2 by (by right). done.
    + destruct (String.eqb_spec x r) as [->|Hne].
      * rewrite bool_decide_eq_true_2 by left. done.
      * rewrite bool_decide_eq_false_2; [done|].
        intros H. apply elem_of_cons in H as [?|?]; done.
Qed.

Lemma rowHeights_get rows laned r :
  r ∈ rows →
  mapGet (rowHeights rows laned) r
  = Some (orElse (totalHeight <$> mapGet laned r) emptyRowHeight).
Proof.
  intros Hr. unfold rowHeights.
  by rewrite rowHeights_get_from, bool_decide_eq_true_2.
Qed.

Lemma rowTops_from (rh : list (string * Z)) rows m y :
  NoDup rows →
  let step := λ '(map, y) r,
                (mapSet r y map, y + rowHeightOf rh r) in
  (foldl step (m, y) rows).2 = y + sumZ (rowHeightOf rh <$> rows)
  ∧ (∀ r, r ∉ rows → mapGet (foldl step (m, y) rows).1 r = mapGet m r)
  ∧ ∀ i r, rows !! i = Some r →
      mapGet (foldl step (m, y) rows).1 r
      = Some (y + sumZ (rowHeightOf rh <$> take i rows)).
Proof.
  intros Hnd step. revert m y.
  induction Hnd as [|x rows Hx Hnd IH]; intros m y; cbn [foldl].
  - split_and!; [cbn; lia|done|]. intros i r. by rewrite lookup_nil.
  - change (step (m, y) x) with (mapSet x y m, y + rowHeightOf rh x).
    destruct (IH (mapSet x y m) (y + rowHeightOf rh x)) as (H1 & H2 & H3).
    split_and!.
    + rewrite H1, fmap_cons. unfold sumZ. cbn [foldr]. lia.
    + intros r Hr. rewrite H2, mapGet_mapSet.
      * destruct (String.eqb_spec x r) as [->|_]; [|done].
        destruct Hr. left.
      * intros ?. apply Hr. by right.
    + intros [|i] r Hi; cbn in Hi.
      * injection Hi as ->. rewrite H2 by done.
        rewrite mapGet_mapSet, String.eqb_refl, take_0. f_equal.
        cbn. lia.
      * rewrite (H3 i r Hi). f_equal.
        change (take (S i) (x :: rows)) with (x :: take i rows).
        rewrite fmap_cons. unfold sumZ. cbn [foldr]. lia.
Qed.

Lemma contentHeight_sum rows rh :
  contentHeight rows rh = sumZ (rowHeightOf rh <$> rows).
Proof.
  unfold contentHeight.
  assert (H : ∀ s, foldl (λ sum r, sum + orElse (mapGet rh r) emptyRowHeight)
                     s rows = s + sumZ (rowHeightOf rh <$> rows)).
  { induction rows as [|x rows IH]; intros s; cbn [foldl].
    - cbn. lia.
    - rewrite IH, fmap_cons. unfold sumZ, rowHeightOf. cbn [foldr]. lia. }
  rewrite H. lia.
Qed.

Lemma rowTops_get rows rh i r :
  NoDup rows → rows !! i = Some r →
  mapGet (rowTops rows rh) r = Some (sumZ (rowHeightOf rh <$> take i rows)).
Proof.
  intros Hnd Hi. unfold rowTops.
  destruct (rowTops_from rh rows [] 0 Hnd) as (_ & _ & H3).
  cbn zeta in H3. unfold rowHeightOf in H3 at 1.
  rewrite (H3 i r Hi). do 2 f_equal.
Qed.

Lemma orElse_Some (v d : Z) : v ≠ 0 → orElse (Some v) d = v.
Proof. intros Hv. cbn. by destruct (Z.eqb_spec v 0). Qed.

(** The height of every row that [lanedByMachine] lays out, and of every
    row without layout, is at least 46. *)
Lemma rowHeightOf_lanedByMachine filtered k rows r :
  r ∈ rows →
  let rh := rowHeights rows (lanedByMachine filtered k) in
  emptyRowHeight <= rowHeightOf rh r
  ∧ ∀ L, mapGet (lanedByMachine filtered k) r = Some L →
         rowHeightOf rh r = totalHeight L.
Proof.
  intros Hr rh. unfold rowHeightOf, rh. rewrite (rowHeights_get _ _ _ Hr).
  assert (Hlay : ∀ L, mapGet (lanedByMachine filtered k) r = Some L →
            emptyRowHeight <= totalHeight L).
  { intros L HL. unfold lanedByMachine in HL. rewrite mapGet_fmap in HL.
    destruct (mapGet (groupByResource filtered) r) as [arr|]; [|done].
    injection HL as <-. apply layoutOf_totalHeight_min. }
  destruct (mapGet (lanedByMachine filtered k) r) as [L|] eqn:HL.
  - specialize (Hlay L eq_refl).
    change (totalHeight <$> Some L) with (Some (totalHeight L)).
    assert (Hne : totalHeight L ≠ 0)
      by (unfold emptyRowHeight, rowPadY, baseLane in Hlay; lia).
    rewrite (orElse_Some (totalHeight L)), orElse_Some by done.
    split; [done|]. by intros ? [= <-].
  - split; [done|done].
Qed.

Lemma sumZ_take_le (l : list Z) i j :
  (∀ x, x ∈ l → 0 <= x) → (i <= j)%nat →
  sumZ (take i l) <= sumZ (take j l).
Proof.
  intros Hpos. revert i j. induction l as [|x l IH]; intros i j Hij.
  - by rewrite !take_nil.
  - destruct i as [|i]; destruct j as [|j]; try lia; cbn.
    + assert (0 <= sumZ (take j l)).
      { specialize (IH ltac:(intros; apply Hpos; by right) 0%nat j ltac:(lia)).
        by rewrite take_0 in IH. }
      specialize (Hpos x ltac:(left)). unfold sumZ in *. lia.
    + specialize (IH ltac:(intros; apply Hpos; by right) i j ltac:(lia)).
      unfold sumZ in *. lia.
Qed.

Lemma sumZ_take_S (l : list Z) i x :
  l !! i = Some x → sumZ (take (S i) l) = sumZ (take i l) + x.
Proof.
  intros Hi. rewrite (take_S_r _ _ _ Hi). unfold sumZ.
  induction (take i l) as [|y k IH]; cbn; lia.
Qed.

Lemma orElse_zero (v : Z) : orElse (Some v) 0 = v.
Proof. cbn. by destruct (Z.eqb_spec v 0). Qed.

Lemma rowHeightOf_nonneg filtered k rows x :
  x ∈ rowHeightOf (rowHeights rows (lanedByMachine filtered k)) <$> rows →
  0 <= x.
Proof.
  intros Hx. apply list_elem_of_fmap in Hx as (r & -> & Hr).
  pose proof (proj1 (rowHeightOf_lanedByMachine filtered k rows r Hr)) as H.
  unfold emptyRowHeight, rowPadY, baseLane in H. lia.
Qed.

(** X10.  The rows of the chart follow one another without gap or
    overlap: the first row starts at 0, every other row starts where the
    row before it ends, and [contentHeight] is where the last row ends.  A
    row is as high as the layout of its machine, and 46 px when the machine
    has no visible task. *)
Theorem rows_stack (filtered : list Task) (pxPerMs : Q)
    (rows : list string) :
  NoDup rows →
  let laned := lanedByMachine filtered pxPerMs in
  let rh := rowHeights rows laned in
  let tops := rowTops rows rh in
  (∀ r, rows !! 0%nat = Some r → orElse (mapGet tops r) 0 = 0)
  ∧ (∀ i r r', rows !! i = Some r → rows !! S i = Some r' →
       orElse (mapGet tops r') 0
       = orElse (mapGet tops r) 0 + rowHeightOf rh r)
  ∧ (∀ r, last rows = Some r →
       contentHeight rows rh = orElse (mapGet tops r) 0 + rowHeightOf rh r)
  ∧ (rows = [] → contentHeight rows rh = 0)
  ∧ (∀ r, r ∈ rows →
       46 <= rowHeightOf rh r
       ∧ (∀ L, mapGet laned r = Some L → rowHeightOf rh r = totalHeight L)
       ∧ (mapGet laned r = None → rowHeightOf rh r = 46)).
Proof.
  intros Hnd laned rh tops.
  assert (Htop : ∀ i r, rows !! i = Some r →
            orElse (mapGet tops r) 0 = sumZ (rowHeightOf rh <$> take i rows)).
  { intros i r Hi. unfold tops. rewrite (rowTops_get rows rh i r Hnd Hi).
    apply orElse_zero. }
  split_and!.
  - intros r Hr. by rewrite (Htop _ _ Hr), take_0.
  - intros i r r' Hi Hi'. rewrite (Htop _ _ Hi), (Htop _ _ Hi').
    rewrite !fmap_take. apply sumZ_take_S.
    by rewrite list_lookup_fmap, Hi.
  - intros r Hlast. rewrite contentHeight_sum.
    rewrite last_lookup in Hlast.
    rewrite (Htop _ _ Hlast).
    assert (Hlen : length (rowHeightOf rh <$> rows)
                   = S (Init.Nat.pred (length rows))).
    { apply lookup_lt_Some in Hlast. rewrite length_fmap. lia. }
    rewrite <- (firstn_all (rowHeightOf rh <$> rows)) at 1.
    rewrite Hlen, !fmap_take. apply sumZ_take_S.
    by rewrite list_lookup_fmap, Hlast.
  - intros ->. reflexivity.
  - intros r Hr.
    destruct (rowHeightOf_lanedByMachine filtered pxPerMs rows r Hr)
      as [Hmin Hlay].
    fold laned rh in Hmin, Hlay.
    split_and!; [exact Hmin|exact Hlay|].
    intros Hnone. unfold rowHeightOf, rh.
    rewrite (rowHeights_get _ _ _ Hr). fold laned. by rewrite Hnone.
Qed.

Lemma rows_stack_witness :
  let filtered := [ mkTask "100" "B" 0 7200000 None;
                    mkTask "200" "A" 10 20 None ] in
  let rows := [ "A"%string; "B"%string ] in
  let rh := rowHeights rows (lanedByMachine filtered (pxPerMsOf 110)) in
  let tops := rowTops rows rh in
  NoDup rows
  ∧ orElse (mapGet tops "B") 0 = orElse (mapGet tops "A") 0 + rowHeightOf rh "A".
Proof.
  intros filtered rows rh tops.
  assert (Hnd : NoDup rows).
  { apply NoDup_cons. split; [|apply NoDup_singleton].
    intros H. apply list_elem_of_singleton in H. discriminate. }
  split; [exact Hnd|].
  exact (proj1 (proj2 (rows_stack filtered (pxPerMsOf 110) rows Hnd))
           0%nat "A"%string "B"%string eq_refl eq_refl).
Defined.

(** X11.  Every bar lies inside the chart vertically, 10 px below its top
    and 10 px above [contentHeight], whether or not another row has bars.
    Bars of different rows keep apart: a bar in a row further down starts
    at least 20 px (the two paddings) under the bottom of any bar in a row
    above it. *)
Theorem bars_of_different_rows_apart (filtered : list Task) (pxPerMs : Q)
    (rows : list string) :
  NoDup rows →
  let laned := lanedByMachine filtered pxPerMs in
  let rh := rowHeights rows laned in
  let tops := rowTops rows rh in
  (∀ r L p, r ∈ rows → mapGet laned r = Some L → p ∈ tasks L →
     rowPadY <= chartTop tops r L p
     ∧ chartTop tops r L p + barH L p + rowPadY <= contentHeight rows rh)
  ∧ (∀ i j r r' L L' p q,
       rows !! i = Some r → rows !! j = Some r' → (i < j)%nat →
       mapGet laned r = Some L → mapGet laned r' = Some L' →
       p ∈ tasks L → q ∈ tasks L' →
       chartTop tops r L p + barH L p + 2 * rowPadY
       <= chartTop tops r' L' q).
Proof.
  intros Hnd laned rh tops.
  assert (Hlay : ∀ x M, mapGet laned x = Some M →
            ∃ arr, M = layoutOf pxPerMs arr).
  { intros x M HM. unfold laned, lanedByMachine in HM.
    rewrite mapGet_fmap in HM.
    destruct (mapGet (groupByResource filtered) x) as [arr|]; [|done].
    injection HM as <-. by exists arr. }
  assert (Htop : ∀ i r, rows !! i = Some r →
            orElse (mapGet tops r) 0 = sumZ (rowHeightOf rh <$> take i rows)).
  { intros i0 r0 Hi0. unfold tops. rewrite (rowTops_get rows rh i0 r0 Hnd Hi0).
    apply orElse_zero. }
  assert (Hpos : ∀ x, x ∈ rowHeightOf rh <$> rows → 0 <= x)
    by apply rowHeightOf_nonneg.
  assert (Hnext : ∀ i r, rows !! i = Some r →
            sumZ (take (S i) (rowHeightOf rh <$> rows))
            = sumZ (take i (rowHeightOf rh <$> rows)) + rowHeightOf rh r).
  { intros i0 r0 Hi0. apply sumZ_take_S. by rewrite list_lookup_fmap, Hi0. }
  assert (Hrow : ∀ r L, r ∈ rows → mapGet laned r = Some L →
            rowHeightOf rh r = totalHeight L).
  { intros r L Hr HL.
    destruct (rowHeightOf_lanedByMachine filtered pxPerMs rows r Hr)
      as [_ Hh]. by apply Hh. }
  assert (Hbar : ∀ L p, (∃ r, mapGet laned r = Some L) → p ∈ tasks L →
            rowPadY <= barTop L p
            ∧ barTop L p + barH L p + rowPadY <= totalHeight L).
  { intros L p (r & HL) Hp. destruct (Hlay _ _ HL) as (arr & ->).
    destruct (layoutOf_bars pxPerMs arr p p Hp Hp) as (H1 & H2 & _).
    done. }
  split.
  - intros r L p Hr HL Hp.
    apply list_elem_of_lookup in Hr as (i & Hi).
    assert (Hr : r ∈ rows) by (by eapply list_elem_of_lookup_2).
    destruct (Hbar L p ltac:(by exists r) Hp) as [Hp1 Hp2].
    pose proof (Hrow r L Hr HL) as Hh.
    unfold chartTop. rewrite (Htop _ _ Hi), !fmap_take.
    pose proof (sumZ_take_le _ 0 i Hpos ltac:(lia)) as H0.
    pose proof (sumZ_take_le _ (S i) (length rows) Hpos
                  ltac:(apply lookup_lt_Some in Hi; lia)) as H2.
    rewrite (Hnext _ _ Hi) in H2.
    rewrite take_0 in H0. change (sumZ []) with 0 in H0.
    rewrite <- (length_fmap (rowHeightOf rh)), firstn_all in H2.
    rewrite contentHeight_sum. unfold rowPadY in *. lia.
  - intros i j r r' L L' p q Hi Hj Hij HL HL' Hp Hq.
    assert (Hr : r ∈ rows) by (by eapply list_elem_of_lookup_2).
    destruct (Hbar L p ltac:(by exists r) Hp) as [Hp1 Hp2].
    destruct (Hbar L' q ltac:(by exists r') Hq) as [Hq1 Hq2].
    pose proof (Hrow r L Hr HL) as Hh.
    unfold chartTop. rewrite (Htop _ _ Hi), (Htop _ _ Hj), !fmap_take.
    pose proof (sumZ_take_le _ (S i) j Hpos ltac:(lia)) as H1.
    rewrite (Hnext _ _ Hi) in H1. unfold rowPadY in *. lia.
Qed.

Lemma bars_of_different_rows_apart_witness :
  let filtered := [ mkTask "100" "B" 0 7200000 None;
                    mkTask "200" "A" 10 20 None ] in
  let rows := [ "A"%string; "B"%string ] in
  let laned := lanedByMachine filtered (pxPerMsOf 110) in
  let rh := rowHeights rows laned in
  let tops := rowTops rows rh in
  let LA := layoutOf (pxPerMsOf 110) [mkTask "200" "A" 10 20 None] in
  let p := mkLaned (mkTask "200" "A" 10 20 None) 0 in
  NoDup rows
  ∧ "A"%string ∈ rows ∧ mapGet laned "A" = Some LA ∧ p ∈ tasks LA
  ∧ rowPadY <= chartTop tops "A" LA p
  ∧ chartTop tops "A" LA p + barH LA p + rowPadY <= contentHeight rows rh.
Proof.
  intros filtered rows laned rh tops LA p.
  assert (Hnd : NoDup rows).
  { apply NoDup_cons. split; [|apply NoDup_singleton].
    intros H. apply list_elem_of_singleton in H. discriminate. }
  assert (Hr : "A"%string ∈ rows) by left.
  assert (HA : mapGet laned "A" = Some LA) by reflexivity.
  assert (Hp : p ∈ tasks LA) by left.
  split_and!; [exact Hnd|exact Hr|exact HA|exact Hp|..];
    apply (proj1 (bars_of_different_rows_apart filtered (pxPerMsOf 110) rows
                    Hnd) "A"%string LA p Hr HA Hp).
Defined.

(** ** Hour ticks *)

Lemma ticksFrom_spec (step max : Z) (fuel : nat) (t x : Z) :
  0 < step →
  x ∈ ticksFrom fuel step t max
  ↔ ∃ n : nat, (n < fuel)%nat ∧ x = t + Z.of_nat n * step ∧ x <= max.
Proof.
  intros Hstep. revert t. induction fuel as [|fuel IH]; intros t.
  - cbn. split; [intros H; by apply elem_of_nil in H|intros (n & ? & _); lia].
  - cbn [ticksFrom]. destruct (Z.leb_spec t max) as [Hle|Hgt].
    + rewrite elem_of_cons, IH. split.
      * intros [->|(n & Hn & -> & Hx)].
        -- exists 0%nat. split_and!; [lia|lia|done].
        -- exists (S n). split_and!; [lia|lia|done].
      * intros ([|n] & Hn & -> & Hx).
        -- left. lia.
        -- right. exists n. split_and!; [lia|lia|lia].
    + split; [intros H; by apply elem_of_nil in H|].
      intros (n & _ & -> & Hx). nia.
Qed.

(** More fuel than [tickCount] changes nothing: the loop has ended. *)
Lemma ticksFrom_enough (step max : Z) (fuel : nat) (t : Z) :
  0 < step → (tickCount step t max <= fuel)%nat →
  ticksFrom fuel step t max = ticksFrom (tickCount step t max) step t max.
Proof.
  intros Hstep. revert t. induction fuel as [|fuel IH]; intros t Hfuel.
  - by replace (tickCount step t max) with 0%nat by lia.
  - cbn [ticksFrom]. destruct (Z.leb_spec t max) as [Hle|Hgt].
    + assert (Hc : tickCount step t max = S (tickCount step (t + step) max)).
      { unfold tickCount.
        replace (max - t) with ((max - (t + step)) + 1 * step) by lia.
        rewrite Z.div_add by lia.
        assert (-1 <= (max - (t + step)) / step).
        { apply Z.div_le_lower_bound; lia. }
        lia. }
      rewrite Hc. cbn [ticksFrom].
      destruct (Z.leb_spec t max); [|lia]. f_equal. apply IH. lia.
    + assert (Hc : tickCount step t max = 0%nat).
      { unfold tickCount.
        assert ((max - t) / step < 0) by (apply Z.div_lt_upper_bound; lia).
        lia. }
      by rewrite Hc.
Qed.

Lemma ticksFrom_count (step max t x : Z) :
  0 < step →
  x ∈ ticksFrom (tickCount step t max) step t max
  ↔ ∃ n : nat, x = t + Z.of_nat n * step ∧ x <= max.
Proof.
  intros Hstep. rewrite ticksFrom_spec by done. split.
  - intros (n & _ & H). by exists n.
  - intros (n & -> & Hx). exists n. split_and!; [|done..].
    unfold tickCount.
    assert (Z.of_nat n <= (max - t) / step).
    { apply Z.div_le_lower_bound; lia. }
    lia.
Qed.

Lemma ceilDiv_spec (a b : Z) :
  0 < b →
  a <= ceilDiv a b * b < a + b
  ∧ ∀ m, a <= m * b → ceilDiv a b <= m.
Proof.
  intros Hb. unfold ceilDiv.
  pose proof (Z.div_mod (- a) b ltac:(lia)) as Hdm.
  pose proof (Z.mod_pos_bound (- a) b Hb) as Hmod.
  split; [nia|]. intros m Hm.
  assert (- m <= (- a) / b); [|lia].
  apply Z.div_le_lower_bound; [done|]. nia.
Qed.

Lemma ticksFrom_lookup (step max : Z) (fuel : nat) (t : Z) (i : nat) x :
  ticksFrom fuel step t max !! i = Some x → x = t + Z.of_nat i * step.
Proof.
  revert t i. induction fuel as [|fuel IH]; intros t i; [done|].
  cbn [ticksFrom]. destruct (t <=? max); [|done].
  destruct i as [|i]; cbn [lookup list_lookup].
  - intros [= <-]. lia.
  - intros H. apply IH in H. lia.
Qed.

Lemma ticksFrom_sorted (step max : Z) (fuel : nat) (t : Z) :
  ∀ i x y, ticksFrom fuel step t max !! i = Some x →
           ticksFrom fuel step t max !! S i = Some y → y = x + step.
Proof.
  intros i x y Hx Hy.
  apply ticksFrom_lookup in Hx. apply ticksFrom_lookup in Hy. lia.
Qed.

(** X13.  The minor ticks are exactly the whole hours (multiples of
    3,600,000 ms) from [min] to [max], both included, in ascending order
    one hour apart; the loop that produces them ends after
    [tickCount] iterations. *)
Theorem minorTicks_whole_hours (mm : MinMax) :
  (∀ x, x ∈ minorTicks mm
        ↔ min mm <= x <= max mm ∧ (3600000 | x))
  ∧ (∀ i x y, minorTicks mm !! i = Some x → minorTicks mm !! S i = Some y →
       y = x + 3600000)
  ∧ (∀ fuel,
       (tickCount 3600000 (ceilDiv (min mm) 3600000 * 3600000) (max mm)
        <= fuel)%nat →
       ticksFrom fuel 3600000 (ceilDiv (min mm) 3600000 * 3600000) (max mm)
       = minorTicks mm).
Proof.
  destruct (ceilDiv_spec (min mm) 3600000 ltac:(lia)) as [Hfirst Hleast].
  split_and!.
  - intros x. unfold minorTicks. cbv zeta.
    rewrite ticksFrom_count by lia. split.
    + intros (n & -> & Hx). split; [lia|].
      exists (ceilDiv (min mm) 3600000 + Z.of_nat n). lia.
    + intros ([Hlo Hhi] & m & ->).
      specialize (Hleast m Hlo).
      exists (Z.to_nat (m - ceilDiv (min mm) 3600000)). split; [|done].
      rewrite Z2Nat.id by lia. lia.
  - intros i x y. apply ticksFrom_sorted.
  - intros fuel Hfuel. unfold minorTicks. cbv zeta.
    apply ticksFrom_enough; [lia|done].
Qed.

(** ** Colours *)

(** X14.  The hue computed for a resource name is a whole number from 0 to
    359, whatever the name. *)
Theorem colorHue_range (codeUnits : list Z) :
  (∀ c, c ∈ codeUnits → 0 <= c) →
  0 <= colorHue codeUnits < 360.
Proof.
  intros Hpos. unfold colorHue.
  assert (H : ∀ h, 0 <= h < 360 →
            0 <= foldl (λ h c, Z.rem (h * 31 + c) 360) h codeUnits < 360).
  { induction codeUnits as [|c l IH]; intros h Hh; [done|].
    cbn [foldl]. apply IH.
    - intros c' Hc'. apply Hpos. by right.
    - assert (0 <= c) by (apply Hpos; left).
      rewrite Z.rem_mod_nonneg by lia. apply Z.mod_pos_bound. lia. }
  apply H. lia.
Qed.

Lemma colorHue_range_witness :
  (∀ c, c ∈ [49; 48; 90; 77; 52] → 0 <= c)
  ∧ 0 <= colorHue [49; 48; 90; 77; 52] < 360.
Proof.
  assert (H : ∀ c, c ∈ [49; 48; 90; 77; 52] → 0 <= c).
  { intros c Hc. repeat (apply elem_of_cons in Hc as [->|Hc]; [lia|]).
    by apply elem_of_nil in Hc. }
  split; [exact H|].
  exact (colorHue_range [49; 48; 90; 77; 52] H).
Defined.

(** ** Column detection *)

Lemma List_find_Some {A} (f : A → bool) (l : list A) x :
  List.find f l = Some x →
  ∃ i, l !! i = Some x ∧ f x = true
       ∧ ∀ j y, (j < i)%nat → l !! j = Some y → f y = false.
Proof.
  induction l as [|a l IH]; [done|]. cbn [List.find].
  destruct (f a) eqn:Hfa.
  - intros [= ->]. exists 0%nat. split_and!; [done..|]. intros; lia.
  - intros H. destruct (IH H) as (i & Hi & Hfx & Hbefore).
    exists (S i). split_and!; [done..|].
    intros [|j] y Hj Hy; cbn in Hy.
    + by injection Hy as <-.
    + apply (Hbefore j); [lia|done].
Qed.

Lemma List_find_None {A} (f : A → bool) (l : list A) :
  List.find f l = None ↔ ∀ x, x ∈ l → f x = false.
Proof.
  induction l as [|a l IH]; cbn [List.find].
  - split; [|done]. intros _ x Hx. by apply elem_of_nil in Hx.
  - destruct (f a) eqn:Hfa.
    + split; [done|]. intros H. specialize (H a ltac:(left)). congruence.
    + rewrite IH. split.
      * intros H x Hx. apply elem_of_cons in Hx as [->|Hx]; [done|by apply H].
      * intros H x Hx. apply H. by right.
Qed.

Lemma List_find_app {A} (f : A → bool) (l k : list A) :
  List.find f (l ++ k)
  = match List.find f l with
    | Some x => Some x
    | None => List.find f k
    end.
Proof.
  induction l as [|a l IH]; [done|]. cbn. by destruct (f a).
Qed.

Lemma findHeader_Some r headers h :
  findHeader r headers = Some h →
  h ≠ EmptyString
  ∧ ∃ i, headers !! i = Some h ∧ r h = true
         ∧ ∀ j y, (j < i)%nat → headers !! j = Some y → r y = false.
Proof.
  unfold findHeader. destruct (List.find r headers) as [x|] eqn:Hf; [|done].
  destruct x as [|c s]; [done|]. intros [= <-].
  split; [done|]. by apply List_find_Some.
Qed.

Lemma findHeader_None r headers :
  r EmptyString = false →
  findHeader r headers = None ↔ ∀ x, x ∈ headers → r x = false.
Proof.
  intros Hempty. unfold findHeader.
  destruct (List.find r headers) as [x|] eqn:Hf.
  - apply List_find_Some in Hf as (i & Hi & Hrx & _).
    destruct x as [|c s]; [congruence|]. cbn. split; [done|].
    intros H. apply list_elem_of_lookup_2 in Hi. specialize (H _ Hi).
    congruence.
  - split; [intros _; by apply List_find_None|done].
Qed.

(** X15.  [detectColumn] tries the patterns in the order of the table and,
    for each, the headers in the order of the file, so the order of the
    patterns comes first: the result is a non-empty header, the first one
    matched by its pattern, and no earlier pattern matches any header.
    When no pattern accepts the empty header, the result is [null] exactly
    when no pattern matches any header. *)
Theorem detectColumn_first_pattern_wins (regs : list (string → bool))
    (headers : list string) :
  (∀ r, r ∈ regs → r EmptyString = false) →
  (∀ h, detectColumn regs headers = Some h →
     h ≠ EmptyString
     ∧ ∃ k r i,
         regs !! k = Some r ∧ headers !! i = Some h ∧ r h = true
         ∧ (∀ j y, (j < i)%nat → headers !! j = Some y → r y = false)
         ∧ ∀ k' r' y, (k' < k)%nat → regs !! k' = Some r' → y ∈ headers →
                      r' y = false)
  ∧ (detectColumn regs headers = None
     ↔ ∀ r y, r ∈ regs → y ∈ headers → r y = false).
Proof.
  induction regs as [|r regs IH]; intros Hempty.
  - split; [done|]. split; [|done]. intros _ r y Hr.
    by apply elem_of_nil in Hr.
  - destruct IH as [IHsome IHnone].
    { intros r' Hr'. apply Hempty. by right. }
    assert (Hr0 : r EmptyString = false) by (apply Hempty; left).
    cbn [detectColumn]. destruct (findHeader r headers) as [h0|] eqn:Hf.
    + split.
      * intros h [= <-]. apply findHeader_Some in Hf as (Hne & i & Hi & Hr & Hb).
        split; [done|]. exists 0%nat, r, i. split_and!; [done..|].
        intros; lia.
      * split; [done|]. intros H.
        apply findHeader_Some in Hf as (_ & i & Hi & Hr & _).
        apply list_elem_of_lookup_2 in Hi.
        specialize (H r h0 ltac:(left) Hi). congruence.
    + pose proof (proj1 (findHeader_None r headers Hr0) Hf) as Hnone.
      split.
      * intros h Hh. destruct (IHsome h Hh) as (Hne & k & r' & i & Hk & Hrest).
        split; [done|]. exists (S k), r', i. destruct Hrest as (H1 & H2 & H3 & H4).
        split_and!; [done..|].
        intros [|k'] r'' y Hk' Hr'' Hy; cbn in Hr''.
        -- injection Hr'' as <-. by apply Hnone.
        -- apply (H4 k' r'' y); [lia|done..].
      * rewrite IHnone. split.
        -- intros H r' y Hr' Hy. apply elem_of_cons in Hr' as [->|Hr'].
           ++ by apply Hnone.
           ++ by apply H.
        -- intros H r' y Hr' Hy. apply H; [by right|done].
Qed.

Lemma detectColumn_first_pattern_wins_witness :
  let regs := [ String.eqb "id"; String.eqb "nr" ] in
  (∀ r, r ∈ regs → r EmptyString = false)
  ∧ (detectColumn regs ["nr"; "id"]%string = None
     ↔ ∀ r y, r ∈ regs → y ∈ ["nr"; "id"]%string → r y = false).
Proof.
  intros regs.
  assert (H : ∀ r, r ∈ regs → r EmptyString = false).
  { intros r Hr. repeat (apply elem_of_cons in Hr as [->|Hr]; [done|]).
    by apply elem_of_nil in Hr. }
  split; [exact H|].
  exact (proj2 (detectColumn_first_pattern_wins regs ["nr"; "id"]%string H)).
Defined.

Section PickFacts.
Variable toLowerCase : string → string.

Lemma headerMap_get_from headers m key :
  mapGet (foldl (λ m h, mapSet (toLowerCase h) h m) m headers) key
  = match List.find (λ h, String.eqb (toLowerCase h) key) (reverse headers) with
    | Some h => Some h
    | None => mapGet m key
    end.
Proof.
  revert m. induction headers as [|h headers IH]; intros m; [done|].
  cbn [foldl]. rewrite IH, mapGet_mapSet, reverse_cons.
  rewrite List_find_app.
  destruct (List.find _ (reverse headers)) as [x|]; [done|].
  cbn [List.find]. by destruct (String.eqb (toLowerCase h) key).
Qed.

Lemma headerMap_get headers key :
  mapGet (headerMap toLowerCase headers) key
  = List.find (λ h, String.eqb (toLowerCase h) key) (reverse headers).
Proof.
  unfold headerMap. rewrite headerMap_get_from.
  by destruct (List.find _ (reverse headers)).
Qed.
End PickFacts.

(** X16.  [pick] prefers the canonical label to the patterns: when a
    non-empty header equals the wanted label up to case, the column is the
    last such header in the file, whatever the patterns say; only when
    there is none (or the last one is empty) are the patterns consulted. *)
Theorem pick_label_before_patterns (toLowerCase : string → string)
    (headers : list string) (wanted : string)
    (regs : list (string → bool)) :
  (∀ i h, headers !! i = Some h → h ≠ EmptyString →
     toLowerCase h = toLowerCase wanted →
     (∀ j y, (i < j)%nat → headers !! j = Some y →
             toLowerCase y ≠ toLowerCase wanted) →
     pick toLowerCase headers wanted regs = Some h)
  ∧ ((∀ h, h ∈ headers → toLowerCase h ≠ toLowerCase wanted) →
     pick toLowerCase headers wanted regs = detectColumn regs headers).
Proof.
  unfold pick. rewrite headerMap_get. split.
  - intros i h Hi Hne Hlow Hlast.
    destruct (List.find _ (reverse headers)) as [x|] eqn:Hf.
    + apply List_find_Some in Hf as (k & Hk & Hx & Hbefore).
      apply String.eqb_eq in Hx.
      rewrite reverse_lookup_Some in Hk. destruct Hk as [Hk Hklen].
      destruct (Nat.lt_total i (length headers - S k)) as [Hlt|[Heq|Hgt]].
      * destruct (Hlast _ _ Hlt Hk Hx).
      * rewrite <- Heq, Hi in Hk. injection Hk as <-.
        by destruct h.
      * apply lookup_lt_Some in Hi as Hilen.
        specialize (Hbefore (length headers - S i)%nat h ltac:(lia)).
        rewrite String.eqb_neq in Hbefore. destruct Hbefore; [|done].
        apply reverse_lookup_Some. split; [|lia].
        by replace (length headers - S (length headers - S i))%nat with i by lia.
    + rewrite List_find_None in Hf.
      assert (Hin : h ∈ reverse headers).
      { rewrite elem_of_reverse. by eapply list_elem_of_lookup_2. }
      specialize (Hf h Hin). apply String.eqb_neq in Hf. done.
  - intros Hnone.
    destruct (List.find _ (reverse headers)) as [x|] eqn:Hf; [|done].
    apply List_find_Some in Hf as (k & Hk & Hx & _).
    apply String.eqb_eq in Hx. apply list_elem_of_lookup_2 in Hk.
    rewrite elem_of_reverse in Hk. by destruct (Hnone x Hk).
Qed.

(** ** The canonical task list *)

Lemma timeLe_false (a b : JsDate) :
  timeLe a b = false
  ↔ a = InvalidDate ∨ b = InvalidDate
    ∨ ∃ x y, a = ValidDate x ∧ b = ValidDate y ∧ y < x.
Proof.
  destruct a as [x|], b as [y|]; cbn; try (split; [auto|done]).
  rewrite Z.leb_gt. split.
  - intros H. right. right. by exists x, y.
  - intros [?|[?|(x' & y' & [= ->] & [= ->] & H)]]; done.
Qed.

Section AllTasksFacts.
Variable trim : string → string.
Variable nativeParse : string → JsDate.
Variable localTime : Civil → Z.
Variable numberText : Z → string.
Variable dateText : JsDate → string.
Variable toNumber : Cell → option Z.
Variable canonicalSort : list RowTask → list RowTask.
Hypothesis canonicalSort_perm : ∀ l, canonicalSort l ≡ₚ l.

Lemma omap_length_le {A B} (f : A → option B) (l : list A) :
  (length (omap f l) <= length l)%nat.
Proof.
  induction l as [|x l IH]; [done|].
  cbn. destruct (f x); cbn; lia.
Qed.

Lemma rowTask_Some mapping r t :
  rowTask trim nativeParse localTime numberText dateText toNumber mapping r
  = Some t
  ↔ ∃ s e,
      toDate nativeParse localTime (cellValue (mappedField r (mapStart mapping)))
      = Some s
      ∧ toDate nativeParse localTime (cellValue (mappedField r (mapEnd mapping)))
        = Some e
      ∧ trim (cellText numberText dateText (mappedField r (mapId mapping)))
        ≠ EmptyString
      ∧ trim (cellText numberText dateText
                (mappedField r (mapResource mapping))) ≠ EmptyString
      ∧ timeLe e s = false
      ∧ t = mkRowTask
              (trim (cellText numberText dateText
                       (mappedField r (mapId mapping))))
              (trim (cellText numberText dateText
                       (mappedField r (mapResource mapping))))
              s e
              (if isSet (mapQty mapping)
               then Some (toNumber (mappedField r (mapQty mapping)))
               else None)
              r.
Proof.
  unfold rowTask.
  destruct (toDate _ _ (cellValue (mappedField r (mapStart mapping))))
    as [s|]; [|split; [done|by intros (? & ? & ? & _)]].
  destruct (toDate _ _ (cellValue (mappedField r (mapEnd mapping))))
    as [e|]; [|split; [done|by intros (? & ? & _ & ? & _)]].
  destruct (trim (cellText _ _ (mappedField r (mapId mapping)))) as [|c1 s1]
    eqn:Hid; cbn [isEmptyString orb].
  { split; [done|]. by intros (? & ? & _ & _ & ? & _). }
  destruct (trim (cellText _ _ (mappedField r (mapResource mapping))))
    as [|c2 s2] eqn:Hres; cbn [isEmptyString orb].
  { split; [done|]. by intros (? & ? & _ & _ & _ & ? & _). }
  destruct (timeLe e s) eqn:Hle.
  - split; [done|]. intros (s' & e' & [= <-] & [= <-] & _ & _ & Hf & _).
    congruence.
  - split.
    + intros [= <-]. by exists s, e.
    + intros (s' & e' & [= <-] & [= <-] & _ & _ & _ & ->). done.
Qed.

Lemma allTasksOf_elem rawRows mapping t :
  t ∈ allTasksOf trim nativeParse localTime numberText dateText toNumber
        canonicalSort rawRows mapping
  ↔ isSet (mapId mapping) = true ∧ isSet (mapStart mapping) = true
    ∧ isSet (mapEnd mapping) = true ∧ isSet (mapResource mapping) = true
    ∧ ∃ r, r ∈ rawRows ∧ rowTask trim nativeParse localTime numberText dateText toNumber mapping r
  = Some t.
Proof.
  unfold allTasksOf.
  destruct rawRows as [|r0 rows]; cbn [isEmptyList orb].
  { split; [intros H; by apply elem_of_nil in H|].
    intros (_ & _ & _ & _ & r & Hr & _). by apply elem_of_nil in Hr. }
  destruct (isSet (mapId mapping)), (isSet (mapStart mapping)),
    (isSet (mapEnd mapping)), (isSet (mapResource mapping));
    cbn [negb orb];
    try (split; [intros H; by apply elem_of_nil in H
                |by intros (? & ? & ? & ? & _)]).
  rewrite canonicalSort_perm, list_elem_of_omap.
  split; [intros H; by split_and!|by intros (_ & _ & _ & _ & H)].
Qed.
End AllTasksFacts.

(** X17.  Every task of the canonical list comes from a row of the file
    and has an identifier and a resource that are not blank after
    trimming; when both of its dates are valid, it ends after it starts.
    There are no more tasks than rows, and there is none when the file has
    no rows or a mandatory column (identifier, start, end, resource) is not
    mapped.  (The host's sort enters only in that it returns a
    permutation.) *)
Theorem allTasksOf_tasks_are_valid (trim : string → string)
    (nativeParse : string → JsDate) (localTime : Civil → Z)
    (numberText : Z → string) (dateText : JsDate → string)
    (toNumber : Cell → option Z)
    (canonicalSort : list RowTask → list RowTask)
    (rawRows : list (gmap string Cell)) (mapping : Mapping) :
  (∀ l, canonicalSort l ≡ₚ l) →
  let all := allTasksOf trim nativeParse localTime numberText dateText
               toNumber canonicalSort rawRows mapping in
  (∀ t, t ∈ all →
     rowRaw t ∈ rawRows
     ∧ rowId t ≠ EmptyString ∧ rowResource t ≠ EmptyString
     ∧ rowId t = trim (cellText numberText dateText
                         (mappedField (rowRaw t) (mapId mapping)))
     ∧ ∀ s e, rowStart t = ValidDate s → rowEnd t = ValidDate e → s < e)
  ∧ (length all <= length rawRows)%nat
  ∧ (isSet (mapId mapping) && isSet (mapStart mapping)
     && isSet (mapEnd mapping) && isSet (mapResource mapping) = false →
     all = []).
Proof.
  intros Hperm all. split_and!.
  - intros t Ht. apply allTasksOf_elem in Ht as (_ & _ & _ & _ & r & Hr & Ht);
      [|done].
    apply rowTask_Some in Ht as (s & e & _ & _ & Hid & Hres & Hle & ->).
    cbn [rowRaw rowId rowResource rowStart rowEnd].
    split_and!; [done..|].
    intros s' e' -> ->. cbn in Hle. by apply Z.leb_gt in Hle.
  - unfold all, allTasksOf.
    destruct (_ || _); [cbn; lia|].
    rewrite Hperm. apply omap_length_le.
  - intros Hmap. unfold all, allTasksOf.
    destruct (isSet (mapId mapping)), (isSet (mapStart mapping)),
      (isSet (mapEnd mapping)), (isSet (mapResource mapping));
      try done; by rewrite ?orb_true_r.
Qed.

Lemma allTasksOf_tasks_are_valid_witness :
  let r : gmap string Cell :=
    {[ "id"%string := CNumber 7; "res"%string := CString "M1";
       "from"%string := CNumber 1700000000;
       "to"%string := CNumber 1700003600 ]} in
  let mapping := mkMapping (Some "id") (Some "from") (Some "to")
                   (Some "res") None in
  let all := allTasksOf (λ s, s) (λ _, InvalidDate) utcTime (λ _, "7")
               (λ _, EmptyString) (λ _, None) (λ l, l) [r] mapping in
  (∀ l : list RowTask, l ≡ₚ l)
  ∧ (length all <= length [r])%nat.
Proof.
  intros r mapping all.
  assert (Hperm : ∀ l : list RowTask, l ≡ₚ l) by (intros l; reflexivity).
  split; [exact Hperm|].
  exact (proj1 (proj2 (allTasksOf_tasks_are_valid (λ s, s) (λ _, InvalidDate)
                         utcTime (λ _, "7"%string) (λ _, EmptyString)
                         (λ _, None) (λ l, l) [r] mapping Hperm))).
Defined.

(** X18.  With the mandatory columns mapped, a row yields a task exactly
    when its identifier and resource are not blank, [toDate] returns a date
    for start and for end, and it is not so that both are valid with the
    end at or before the start.  A row one of whose dates is an Invalid
    Date (a number beyond the range of time values, say) is therefore
    kept. *)
Theorem allTasksOf_keeps_row (trim : string → string)
    (nativeParse : string → JsDate) (localTime : Civil → Z)
    (numberText : Z → string) (dateText : JsDate → string)
    (toNumber : Cell → option Z)
    (canonicalSort : list RowTask → list RowTask)
    (rawRows : list (gmap string Cell)) (mapping : Mapping)
    (r : gmap string Cell) :
  (∀ l, canonicalSort l ≡ₚ l) →
  r ∈ rawRows →
  isSet (mapId mapping) = true → isSet (mapStart mapping) = true →
  isSet (mapEnd mapping) = true → isSet (mapResource mapping) = true →
  let all := allTasksOf trim nativeParse localTime numberText dateText
               toNumber canonicalSort rawRows mapping in
  let id := trim (cellText numberText dateText
                    (mappedField r (mapId mapping))) in
  let resource := trim (cellText numberText dateText
                          (mappedField r (mapResource mapping))) in
  let start := toDate nativeParse localTime
                 (cellValue (mappedField r (mapStart mapping))) in
  let end_ := toDate nativeParse localTime
                (cellValue (mappedField r (mapEnd mapping))) in
  ((∃ t, t ∈ all ∧ rowRaw t = r)
   ↔ id ≠ EmptyString ∧ resource ≠ EmptyString
     ∧ ∃ s e, start = Some s ∧ end_ = Some e
              ∧ (s = InvalidDate ∨ e = InvalidDate
                 ∨ ∃ x y, s = ValidDate x ∧ e = ValidDate y ∧ x < y))
  ∧ (id ≠ EmptyString → resource ≠ EmptyString →
     (start = Some InvalidDate ∧ end_ ≠ None
      ∨ end_ = Some InvalidDate ∧ start ≠ None) →
     ∃ t, t ∈ all ∧ rowRaw t = r).
Proof.
  intros Hperm Hr H1 H2 H3 H4 all id resource start end_.
  assert (Hiff : (∃ t, t ∈ all ∧ rowRaw t = r)
     ↔ id ≠ EmptyString ∧ resource ≠ EmptyString
       ∧ ∃ s e, start = Some s ∧ end_ = Some e
                ∧ (s = InvalidDate ∨ e = InvalidDate
                   ∨ ∃ x y, s = ValidDate x ∧ e = ValidDate y ∧ x < y)).
  { split.
    - intros (t & Ht & Hraw).
      apply allTasksOf_elem in Ht as (_ & _ & _ & _ & r' & Hr' & Ht); [|done].
      apply rowTask_Some in Ht as (s & e & Hs & He & Hid & Hres & Hle & ->).
      cbn in Hraw. subst r'. split_and!; [done..|].
      exists s, e. split_and!; [done..|].
      apply timeLe_false in Hle as [->|[->|(x & y & -> & -> & Hxy)]]; auto.
      right. right. by exists y, x.
    - intros (Hid & Hres & s & e & Hs & He & Hcase).
      eexists. split; [|shelve].
      apply allTasksOf_elem; [done|]. split_and!; [done..|].
      exists r. split; [done|]. apply rowTask_Some.
      exists s, e. split_and!; [done..| |reflexivity].
      apply timeLe_false.
      destruct Hcase as [->|[->|(x & y & -> & -> & Hxy)]]; auto.
      right. right. by exists y, x.
      Unshelve. reflexivity. }
  split; [exact Hiff|].
  intros Hid Hres Hinv. apply Hiff. split_and!; [done..|].
  destruct Hinv as [[Hs He]|[He Hs]].
  - destruct end_ as [e|]; [|done]. exists InvalidDate, e. auto.
  - destruct start as [s|]; [|done]. exists s, InvalidDate. auto.
Qed.

Lemma allTasksOf_keeps_row_witness :
  let r : gmap string Cell :=
    {[ "id"%string := CString "3260996"; "res"%string := CString "10ZM4";
       "from"%string := CNumber 100000000000000000;
       "to"%string := CNumber 1700003600 ]} in
  let mapping := mkMapping (Some "id") (Some "from") (Some "to")
                   (Some "res") None in
  (∀ l : list RowTask, l ≡ₚ l) ∧ r ∈ [r]
  ∧ ∃ t, t ∈ allTasksOf asciiTrim (λ _, InvalidDate) utcTime (λ _, EmptyString)
               (λ _, EmptyString) (λ _, None) (λ l, l) [r] mapping
         ∧ rowRaw t = r.
Proof.
  intros r mapping.
  assert (Hperm : ∀ l : list RowTask, l ≡ₚ l) by (intros l; reflexivity).
  assert (Hr : r ∈ [r]) by left.
  split_and!; [exact Hperm|exact Hr|].
  refine (proj2 (allTasksOf_keeps_row asciiTrim (λ _, InvalidDate) utcTime
                   (λ _, EmptyString) (λ _, EmptyString) (λ _, None) (λ l, l)
                   [r] mapping r Hperm Hr eq_refl eq_refl eq_refl eq_refl)
            _ _ _).
  - by vm_compute.
  - by vm_compute.
  - left. split; [by vm_compute|by vm_compute].
Defined.

(** ** The route overlay *)

Lemma insertRect_sorted_head x l :
  Forall (λ u, rStart x <= rStart u) l → insertRect x l = x :: l.
Proof.
  destruct l as [|u r]; [done|]. intros H. cbn [insertRect].
  apply Forall_cons in H as [H _].
  by destruct (Z.leb_spec (rStart x) (rStart u)); [|lia].
Qed.

Lemma sortRects_sorted_id l :
  StronglySorted (λ a b, rStart a <= rStart b) l → sortRects l = l.
Proof.
  induction 1 as [|x l Hs IH Hx]; [done|].
  unfold sortRects in *. cbn [foldr]. rewrite IH.
  by apply insertRect_sorted_head.
Qed.

Lemma rectOf_start laned mm k tops t rect :
  rectOf laned mm k tops t = Some rect → rStart rect = start t.
Proof.
  unfold rectOf. destruct (mapGet laned (resource t)); [|done].
  by intros [= <-].
Qed.

Lemma omap_rectOf_sorted laned mm k tops l :
  StronglySorted startLe l →
  StronglySorted (λ a b, rStart a <= rStart b)
                 (omap (rectOf laned mm k tops) l).
Proof.
  induction 1 as [|t l Hs IH Ht]; [constructor|].
  cbn [omap list_omap]. destruct (rectOf laned mm k tops t) as [rect|] eqn:Hr;
    [|exact IH].
  constructor; [exact IH|].
  apply Forall_forall. intros rect' Hin.
  apply list_elem_of_omap in Hin as (u & Hu & Hru).
  rewrite (rectOf_start _ _ _ _ _ _ Hr), (rectOf_start _ _ _ _ _ _ Hru).
  rewrite Forall_forall in Ht. by apply Ht.
Qed.

Lemma routeRects_sorted_route route laned mm k tops :
  StronglySorted startLe route →
  routeRects route laned mm k tops = omap (rectOf laned mm k tops) route.
Proof.
  intros Hs. unfold routeRects. destruct route as [|t route]; [done|].
  cbn [isEmptyList]. by apply sortRects_sorted_id, omap_rectOf_sorted.
Qed.




Lemma insertRect_perm x l : insertRect x l ≡ₚ x :: l.
Proof.
  induction l as [|u r IH]; cbn [insertRect]; [done|].
  destruct (rStart x <=? rStart u); [done|].
  rewrite IH. apply Permutation_swap.
Qed.

Lemma sortRects_perm l : sortRects l ≡ₚ l.
Proof.
  induction l as [|x r IH]; [done|].
  unfold sortRects in *. cbn [foldr]. rewrite insertRect_perm.
  by f_equiv.
Qed.

(** X19.  The route overlay has one rectangle for each route task whose
    machine has a layout, and no other.  When the route is in ascending
    order of start, the rectangles are in the order of the route: the
    final sort changes nothing. *)
Theorem routeRects_in_route_order (route : list Task)
    (laned : list (string * Layout)) (mm : MinMax) (pxPerMs : Q)
    (tops : list (string * Z)) :
  let rects := routeRects route laned mm pxPerMs tops in
  rects ≡ₚ omap (rectOf laned mm pxPerMs tops) route
  ∧ (∀ rect, rect ∈ rects
       ↔ ∃ t, t ∈ route ∧ rectOf laned mm pxPerMs tops t = Some rect)
  ∧ (length rects <= length route)%nat
  ∧ (StronglySorted startLe route →
     rects = omap (rectOf laned mm pxPerMs tops) route).
Proof.
  intros rects.
  assert (Hperm : rects ≡ₚ omap (rectOf laned mm pxPerMs tops) route).
  { unfold rects, routeRects. destruct route as [|t route]; [done|].
    cbn [isEmptyList]. apply sortRects_perm. }
  split_and!.
  - exact Hperm.
  - intros rect. rewrite Hperm. apply list_elem_of_omap.
  - rewrite Hperm. apply omap_length_le.
  - intros Hs. by apply routeRects_sorted_route.
Qed.






(** ** Day ticks *)

(** X22.  The day ticks are 24 hours apart and none lies after the end of
    the domain; they start at the local midnight of the domain's first
    instant when that is the instant itself, and 24 hours after that
    midnight otherwise.  So they all lie in the domain when that midnight is
    at most 24 hours before the domain's start; on a day longer than that
    (a change from summer time) the first tick can lie before the
    domain. *)
Theorem majorTicks_days (localMidnight : Z → Z) (mm : MinMax) :
  let d0 := localMidnight (min mm) in
  let first := if d0 <? min mm then d0 + 86400000 else d0 in
  (∀ x, x ∈ majorTicks localMidnight mm
        ↔ ∃ n : nat, x = first + Z.of_nat n * 86400000 ∧ x <= max mm)
  ∧ (∀ i x y, majorTicks localMidnight mm !! i = Some x →
       majorTicks localMidnight mm !! S i = Some y → y = x + 86400000)
  ∧ (min mm - d0 <= 86400000 →
     ∀ x, x ∈ majorTicks localMidnight mm → min mm <= x <= max mm)
  ∧ (86400000 < min mm - d0 → d0 + 86400000 <= max mm →
     d0 + 86400000 ∈ majorTicks localMidnight mm
     ∧ d0 + 86400000 < min mm).
Proof.
  intros d0 first.
  assert (Hin : ∀ x, x ∈ majorTicks localMidnight mm
        ↔ ∃ n : nat, x = first + Z.of_nat n * 86400000 ∧ x <= max mm).
  { intros x. unfold majorTicks. apply ticksFrom_count. lia. }
  split_and!.
  - exact Hin.
  - unfold majorTicks. apply ticksFrom_sorted.
  - intros Hday x Hx. apply Hin in Hx as (n & -> & Hmax).
    split; [|done]. unfold first.
    destruct (Z.ltb_spec d0 (min mm)); lia.
  - intros Hlong Hmax. split; [|lia].
    apply Hin. exists 0%nat. unfold first.
    destruct (Z.ltb_spec d0 (min mm)); lia.
Qed.

(** ** Export *)

Lemma countChar_app c s1 s2 :
  countChar c (s1 +:+ s2) = (countChar c s1 + countChar c s2)%nat.
Proof.
  induction s1 as [|d s1 IH]; [done|].
  change (String d s1 +:+ s2) with (String d (s1 +:+ s2)).
  cbn [countChar]. rewrite IH. lia.
Qed.

Lemma countChar_doubleQuotes c s :
  countChar c (doubleQuotes s)
  = if Ascii.eqb c quoteChar then (2 * countChar c s)%nat
    else countChar c s.
Proof.
  induction s as [|d s IH]; [by destruct (Ascii.eqb c quoteChar)|].
  cbn [doubleQuotes].
  destruct (Ascii.eqb_spec d quoteChar) as [->|Hd];
    cbn [countChar]; rewrite IH.
  - destruct (Ascii.eqb_spec c quoteChar) as [->|Hc].
    + rewrite Ascii.eqb_refl. lia.
    + destruct (Ascii.eqb_spec quoteChar c); [congruence|lia].
  - destruct (Ascii.eqb_spec c quoteChar) as [->|Hc]; [|done].
    destruct (Ascii.eqb_spec d quoteChar); [congruence|lia].
Qed.

Lemma sumNat_cons x l : sumNat (x :: l) = (x + sumNat l)%nat.
Proof. reflexivity. Qed.

Lemma sumNat_app l1 l2 : sumNat (l1 ++ l2) = (sumNat l1 + sumNat l2)%nat.
Proof.
  induction l1 as [|x l1 IH]; [done|].
  change ((x :: l1) ++ l2) with (x :: (l1 ++ l2)).
  rewrite !sumNat_cons, IH. lia.
Qed.

Lemma countChar_joinWith c sep l :
  countChar c (joinWith sep l)
  = (sumNat (List.map (countChar c) l)
     + (length l - 1) * countChar c sep)%nat.
Proof.
  induction l as [|x l IH]; [done|].
  destruct l as [|y l]; [cbn; lia|].
  change (joinWith sep (x :: y :: l))
    with (x +:+ sep +:+ joinWith sep (y :: l)).
  rewrite !countChar_app, IH. cbn [List.map length].
  rewrite !sumNat_cons.
  replace (S (length l) - 1)%nat with (length l) by lia.
  replace (S (S (length l)) - 1)%nat with (S (length l)) by lia.
  rewrite Nat.mul_succ_l. lia.
Qed.

Lemma countChar_doubleQuotes_mul c s :
  countChar c (doubleQuotes s)
  = ((if Ascii.eqb c quoteChar then 2 else 1) * countChar c s)%nat.
Proof.
  rewrite countChar_doubleQuotes. destruct (Ascii.eqb c quoteChar); lia.
Qed.

Lemma countChar_csvLine c (r : list string) :
  countChar c (joinWith "," (List.map doubleQuotes r))
  = ((if Ascii.eqb c quoteChar then 2 else 1)
     * sumNat (List.map (countChar c) r)
     + (length r - 1) * countChar c ",")%nat.
Proof.
  rewrite countChar_joinWith, length_map. f_equal.
  induction r as [|x r IH]; [by rewrite Nat.mul_0_r|].
  cbn [List.map]. rewrite !sumNat_cons, countChar_doubleQuotes_mul, IH. lia.
Qed.

Lemma countChar_csvLines c (rows : list (list string)) :
  Forall (λ r, length r = 6%nat) rows →
  sumNat (List.map (countChar c)
            (List.map (λ r, joinWith "," (List.map doubleQuotes r)) rows))
  = ((if Ascii.eqb c quoteChar then 2 else 1) * countInFields c rows
     + 5 * length rows * countChar c ",")%nat.
Proof.
  induction 1 as [|r rows Hr _ IH]; [cbn; lia|].
  unfold countInFields in *. cbn [List.map length].
  rewrite !sumNat_cons, countChar_csvLine, Hr, IH. cbn [Nat.sub]. lia.
Qed.
(** X23.  The exported text joins the six values of the header and of
    every visible task with commas and the lines with line feeds; a
    quotation mark inside a value is doubled, and nothing else is done to a
    value: no value is put in quotation marks.  Counted by characters: the
    text has every character of the values once (a quotation mark twice),
    plus five commas a line and one line feed between lines.  So a comma
    inside an identifier or a resource name stays in the line as one more
    separator. *)
Theorem csvText_values_not_quoted (formatPL numberText : Z → string)
    (visible : list Task) (c : ascii) :
  let rows := csvHeader :: List.map (csvRow formatPL numberText) visible in
  let csv := csvText formatPL numberText visible in
  countChar c csv
  = ((if Ascii.eqb c quoteChar then 2 else 1) * countInFields c rows
     + 5 * (length visible + 1) * countChar c ","
     + length visible * countChar c newline)%nat
  ∧ (c = ","%char → ∀ t, t ∈ visible →
     (0 < countChar c (taskId t) + countChar c (resource t))%nat →
     (5 * (length visible + 1) < countChar c csv)%nat).
Proof.
  intros rows csv.
  assert (Hcount : countChar c csv
    = ((if Ascii.eqb c quoteChar then 2 else 1) * countInFields c rows
       + 5 * (length visible + 1) * countChar c ","
       + length visible * countChar c newline)%nat).
  { unfold csv, csvText. fold rows.
    rewrite countChar_joinWith, countChar_csvLines.
    - rewrite length_map. unfold rows. cbn [length].
      rewrite length_map.
      replace (S (length visible)) with (length visible + 1)%nat by lia.
      replace (length visible + 1 - 1)%nat with (length visible) by lia.
      lia.
    - unfold rows. constructor; [done|].
      apply Forall_forall. intros r Hr.
      apply list_elem_of_In, in_map_iff in Hr as (t & <- & _). done. }
  split; [exact Hcount|].
  intros -> t Ht Hpos. rewrite Hcount.
  change (Ascii.eqb "," quoteChar) with false. cbv iota.
  change (countChar "," ",") with 1%nat.
  change (countChar "," newline) with 0%nat.
  assert (countChar "," (taskId t) + countChar "," (resource t)
          <= countInFields "," rows)%nat; [|lia].
  unfold rows, countInFields.
  apply list_elem_of_In, in_split in Ht as (l1 & l2 & ->).
  rewrite !List.map_app. cbn [List.map]. rewrite List.map_app.
  cbn [List.map].
  rewrite sumNat_cons, sumNat_app, !sumNat_cons. cbn [csvRow List.map].
  rewrite !sumNat_cons. lia.
Qed.

(** ** Tasks whose dates may be invalid *)

(** *** The insertion sort *)

Lemma insertionSort_insert_perm t l : Js.insertByStart t l ≡ₚ t :: l.
Proof.
  induction l as [|u r IH]; cbn [Js.insertByStart]; [done|].
  destruct (Js.compareStart t u <=? 0); [done|].
  rewrite IH. apply Permutation_swap.
Qed.

Lemma insertionSort_perm l : Js.insertionSort l ≡ₚ l.
Proof.
  induction l as [|t r IH]; [done|].
  cbn [Js.insertionSort foldr]. rewrite insertionSort_insert_perm.
  by f_equiv.
Qed.

Lemma insertionSort_sortsByStart : sortsByStart Js.insertionSort.
Proof. split; [apply insertionSort_perm|done]. Qed.

(** No element compares below its predecessor: such a list is left as it
    is. *)
Lemma insertionSort_run l :
  (∀ i a b, l !! i = Some a → l !! S i = Some b →
            0 <= Js.compareStart b a) →
  Js.insertionSort l = l.
Proof.
  induction l as [|t r IH]; [done|]. intros Hrun.
  cbn [Js.insertionSort foldr]. fold (Js.insertionSort r).
  rewrite IH by (intros i a b Ha Hb; by apply (Hrun (S i))).
  destruct r as [|u r']; [done|]. cbn [Js.insertByStart].
  specialize (Hrun 0%nat t u eq_refl eq_refl).
  assert (Js.compareStart t u <= 0); [|by destruct (Z.leb_spec (Js.compareStart t u) 0); [|lia]].
  revert Hrun. unfold Js.compareStart.
  destruct (Js.timeValue (rowStart t)), (Js.timeValue (rowStart u)); lia.
Qed.

(** *** Agreement on valid dates *)

Lemma startValid_timeValue t :
  startValid t → Js.timeValue (rowStart t) = Some (start (taskOfRow t)).
Proof. intros [s Hs]. unfold taskOfRow. cbn. by rewrite Hs. Qed.

Lemma datesValid_timeValue t :
  datesValid t →
  Js.timeValue (rowStart t) = Some (start (taskOfRow t))
  ∧ Js.timeValue (rowEnd t) = Some (end_ (taskOfRow t)).
Proof. intros (s & e & Hs & He). unfold taskOfRow. cbn. by rewrite Hs, He. Qed.

Lemma datesValid_startValid t : datesValid t → startValid t.
Proof. intros (s & e & Hs & _). by exists s. Qed.

Lemma compareStart_valid t u :
  startValid t → startValid u →
  Js.compareStart t u = start (taskOfRow t) - start (taskOfRow u).
Proof.
  intros Ht Hu. unfold Js.compareStart.
  by rewrite (startValid_timeValue t Ht), (startValid_timeValue u Hu).
Qed.

Lemma insertByStart_valid t l :
  startValid t → Forall startValid l →
  taskOfRow <$> Js.insertByStart t l
  = insertByStart (taskOfRow t) (taskOfRow <$> l).
Proof.
  intros Ht Hl. induction Hl as [|u r Hu Hr IH]; [done|].
  cbn [Js.insertByStart]. rewrite compareStart_valid by done.
  rewrite fmap_cons. cbn [insertByStart].
  destruct (Z.leb_spec (start (taskOfRow t) - start (taskOfRow u)) 0),
    (Z.leb_spec (start (taskOfRow t)) (start (taskOfRow u)));
    try lia; [done|].
  by rewrite fmap_cons, IH.
Qed.

Lemma insertByStart_startValid t l :
  startValid t → Forall startValid l → Forall startValid (Js.insertByStart t l).
Proof.
  intros Ht Hl. rewrite Forall_forall. intros x Hx.
  rewrite insertionSort_insert_perm in Hx.
  apply elem_of_cons in Hx as [->|Hx]; [done|].
  rewrite Forall_forall in Hl. by apply Hl.
Qed.

Lemma insertionSort_valid l :
  Forall startValid l →
  taskOfRow <$> Js.insertionSort l = sortByStart (taskOfRow <$> l).
Proof.
  induction 1 as [|t r Ht Hr IH]; [done|].
  cbn [Js.insertionSort foldr]. fold (Js.insertionSort r).
  rewrite insertByStart_valid, IH; [done|done|].
  rewrite Forall_forall. intros x Hx. rewrite insertionSort_perm in Hx.
  rewrite Forall_forall in Hr. by apply Hr.
Qed.

(** *** Lane packing *)

Lemma findLane_rows (les : list Z) (s : Z) (i0 : nat) :
  Js.findLane (Some <$> les) (Some s) i0 = findLane les s i0.
Proof.
  revert i0. induction les as [|e r IH]; intros i0; [done|].
  rewrite fmap_cons. cbn [Js.findLane findLane fmap option_fmap option_map Js.numGe].
  destruct (s >=? e - EPS); [done|apply IH].
Qed.

Lemma placeTask_rows (st : Js.PackState) (st' : PackState) (t : RowTask) :
  datesValid t →
  Js.laneEnds st = Some <$> laneEnds st' →
  lanedOfRow <$> Js.placed st = placed st' →
  Js.laneEnds (Js.placeTask st t)
  = Some <$> laneEnds (placeTask st' (taskOfRow t))
  ∧ lanedOfRow <$> Js.placed (Js.placeTask st t)
    = placed (placeTask st' (taskOfRow t)).
Proof.
  intros Ht Hle Hpl. destruct (datesValid_timeValue t Ht) as [Hs He].
  unfold Js.placeTask, placeTask.
  rewrite Hs, He, Hle, findLane_rows.
  destruct (findLane (laneEnds st') (start (taskOfRow t)) 0) as [i|];
    cbn [Js.laneEnds Js.placed laneEnds placed].
  - split.
    + by rewrite list_fmap_insert.
    + by rewrite fmap_app, Hpl.
  - split.
    + by rewrite fmap_app.
    + rewrite fmap_app, Hpl. cbn. unfold lanedOfRow at 1. cbn.
      by rewrite length_fmap.
Qed.

Lemma packLoop_rows (l : list RowTask) (st : Js.PackState) (st' : PackState) :
  Forall datesValid l →
  Js.laneEnds st = Some <$> laneEnds st' →
  lanedOfRow <$> Js.placed st = placed st' →
  Js.laneEnds (Js.packLoop l st)
  = Some <$> laneEnds (packLoop (taskOfRow <$> l) st')
  ∧ lanedOfRow <$> Js.placed (Js.packLoop l st)
    = placed (packLoop (taskOfRow <$> l) st').
Proof.
  intros Hl. revert st st'.
  induction Hl as [|t r Ht Hr IH]; intros st st' Hle Hpl; [done|].
  cbn [Js.packLoop packLoop foldl fmap list_fmap].
  destruct (placeTask_rows st st' t Ht Hle Hpl) as [Hle' Hpl'].
  apply (IH _ _ Hle' Hpl').
Qed.

(** On tasks with valid dates [packLanes] is the function on instants:
    the same tasks in the same order with the same lanes. *)
Lemma packLanes_rows (arraySort : list RowTask → list RowTask)
    (tasks : list RowTask) :
  sortsByStart arraySort → Forall datesValid tasks →
  lanedOfRow <$> Js.placedTasks (Js.packLanes arraySort tasks)
  = placedTasks (packLanes (taskOfRow <$> tasks))
  ∧ Js.laneCount (Js.packLanes arraySort tasks)
    = laneCount (packLanes (taskOfRow <$> tasks)).
Proof.
  intros [Hperm Hsort] Hvalid.
  assert (Hsv : Forall startValid tasks)
    by (eapply Forall_impl; [exact Hvalid|apply datesValid_startValid]).
  unfold Js.packLanes, packLanes.
  cbn [Js.placedTasks Js.laneCount placedTasks laneCount].
  rewrite (Hsort tasks Hsv).
  assert (Hsorted : Forall datesValid (Js.insertionSort tasks)).
  { rewrite Forall_forall. intros x Hx. rewrite insertionSort_perm in Hx.
    rewrite Forall_forall in Hvalid. by apply Hvalid. }
  destruct (packLoop_rows (Js.insertionSort tasks) (Js.mkPack [] [])
              (mkPack [] []) Hsorted eq_refl eq_refl) as [Hle Hpl].
  rewrite insertionSort_valid in Hle, Hpl by done.
  split; [exact Hpl|]. by rewrite Hle, length_fmap.
Qed.

(** Whatever the dates, the placed tasks are the sorted array, in its
    order. *)
Lemma placeTask_rows_tasks st t :
  Js.task <$> Js.placed (Js.placeTask st t)
  = (Js.task <$> Js.placed st) ++ [t].
Proof.
  unfold Js.placeTask.
  destruct (Js.findLane _ _ _); cbn [Js.placed]; by rewrite fmap_app.
Qed.

Lemma packLoop_rows_tasks l st :
  Js.task <$> Js.placed (Js.packLoop l st)
  = (Js.task <$> Js.placed st) ++ l.
Proof.
  revert st. induction l as [|t r IH]; intros st.
  - by rewrite app_nil_r.
  - cbn [Js.packLoop foldl]. fold (Js.packLoop r (Js.placeTask st t)).
    rewrite IH, placeTask_rows_tasks. by rewrite <- app_assoc.
Qed.

Lemma packLanes_rows_tasks arraySort tasks :
  Js.task <$> Js.placedTasks (Js.packLanes arraySort tasks)
  = arraySort tasks.
Proof. unfold Js.packLanes. cbn [Js.placedTasks]. apply packLoop_rows_tasks. Qed.

Lemma placedTasks_rows_lookup arraySort tasks i p :
  sortsByStart arraySort → Forall datesValid tasks →
  Js.placedTasks (Js.packLanes arraySort tasks) !! i = Some p →
  placedTasks (packLanes (taskOfRow <$> tasks)) !! i = Some (lanedOfRow p)
  ∧ datesValid (Js.task p).
Proof.
  intros Hsort Hvalid Hp.
  destruct (packLanes_rows arraySort tasks Hsort Hvalid) as [<- _].
  split; [by rewrite list_lookup_fmap, Hp|].
  assert (Hin : Js.task p ∈ arraySort tasks).
  { rewrite <- packLanes_rows_tasks. apply list_elem_of_fmap.
    exists p. split; [done|]. by eapply list_elem_of_lookup_2. }
  rewrite (proj1 Hsort) in Hin. rewrite Forall_forall in Hvalid.
  by apply Hvalid.
Qed.

Lemma placedTasks_rows_lookup_inv arraySort tasks i p' :
  sortsByStart arraySort → Forall datesValid tasks →
  placedTasks (packLanes (taskOfRow <$> tasks)) !! i = Some p' →
  ∃ p, Js.placedTasks (Js.packLanes arraySort tasks) !! i = Some p
       ∧ p' = lanedOfRow p.
Proof.
  intros Hsort Hvalid Hp.
  destruct (packLanes_rows arraySort tasks Hsort Hvalid) as [Heq _].
  rewrite <- Heq, list_lookup_fmap in Hp.
  destruct (Js.placedTasks (Js.packLanes arraySort tasks) !! i) as [p|];
    [|done].
  exists p. split; [done|]. by injection Hp as <-.
Qed.

Lemma datesValid_dates t :
  datesValid t →
  rowStart t = ValidDate (start (taskOfRow t))
  ∧ rowEnd t = ValidDate (end_ (taskOfRow t)).
Proof. intros (s & e & Hs & He). unfold taskOfRow. cbn. by rewrite Hs, He. Qed.

(** With valid dates no lane holds two tasks that overlap by more than the
    tolerance, whatever the engine's sort. *)
Lemma packLanes_rows_do_not_overlap
    (arraySort : list RowTask → list RowTask) (tasks : list RowTask)
    (i j : nat) (p q : Js.LanedTask) :
  sortsByStart arraySort → Forall datesValid tasks →
  Js.placedTasks (Js.packLanes arraySort tasks) !! i = Some p →
  Js.placedTasks (Js.packLanes arraySort tasks) !! j = Some q →
  i ≠ j → Js.lane p = Js.lane q →
  ∃ sp ep sq eq,
    rowStart (Js.task p) = ValidDate sp ∧ rowEnd (Js.task p) = ValidDate ep
    ∧ rowStart (Js.task q) = ValidDate sq ∧ rowEnd (Js.task q) = ValidDate eq
    ∧ Z.min ep eq - Z.max sp sq <= 60000
    ∧ (sp < sq → ep - 60000 <= sq)
    ∧ ((i < j)%nat → sp <= sq ∧ ep - 60000 <= sq).
Proof.
  intros Hsort Hvalid Hp Hq Hij Hlane.
  destruct (placedTasks_rows_lookup _ _ _ _ Hsort Hvalid Hp) as [Hp' Hvp].
  destruct (placedTasks_rows_lookup _ _ _ _ Hsort Hvalid Hq) as [Hq' Hvq].
  destruct (datesValid_dates _ Hvp) as [Hsp Hep].
  destruct (datesValid_dates _ Hvq) as [Hsq Heq].
  eexists _, _, _, _. split_and!; [done..| | |];
    by apply (packLanes_lanes_do_not_overlap (taskOfRow <$> tasks) i j
                (lanedOfRow p) (lanedOfRow q)).
Qed.

(** *** An Invalid Date among the tasks of a machine *)

(** C1.  A file with four rows of one machine, the third with a start
    cell beyond the range of time values: [allTasks] keeps all four, the
    third with an Invalid Date as start ([toDate] checks the date it makes
    from a string but not the one it makes from a number, and the row
    test lets an Invalid Date pass).  Sorting by start then compares with
    NaN and leaves the array as it is, so the fourth task, which starts
    before the second, is packed after it: it lands in lane 0 with the
    first task although it starts 61,000 ms before that task ends.  So a
    lane holds two tasks that overlap by more than the tolerance. *)
Theorem packLanes_invalid_date_shares_lane :
  let mapping := mkMapping (Some "id") (Some "from") (Some "to")
                   (Some "res") None in
  let cells := λ (id : string) (from to_ : Z),
    ({[ "id"%string := CString id; "res"%string := CString "M1";
        "from"%string := CNumber from; "to"%string := CNumber to_ ]}
     : gmap string Cell) in
  let rows := [ cells "t1" 180 271; cells "t2" 240 270;
                cells "t3" 100000000000000000 300; cells "t4" 210 361 ] in
  let tasks :=
    omap (rowTask asciiTrim (λ _, InvalidDate) utcTime (λ _, EmptyString)
            (λ _, EmptyString) (λ _, None) mapping) rows in
  let packed := Js.packLanes Js.insertionSort tasks in
  rowStart <$> tasks
  = [ ValidDate 180000; ValidDate 240000; InvalidDate; ValidDate 210000 ]
  ∧ rowEnd <$> tasks
    = [ ValidDate 271000; ValidDate 270000; ValidDate 300000;
        ValidDate 361000 ]
  ∧ Js.insertionSort tasks = tasks
  ∧ Js.task <$> Js.placedTasks packed = tasks
  ∧ Js.lane <$> Js.placedTasks packed = [ 0; 0; 1; 0 ]%nat
  ∧ ∃ p q sp ep sq eq,
      Js.placedTasks packed !! 0%nat = Some p
      ∧ Js.placedTasks packed !! 3%nat = Some q
      ∧ Js.lane p = Js.lane q
      ∧ rowStart (Js.task p) = ValidDate sp ∧ rowEnd (Js.task p) = ValidDate ep
      ∧ rowStart (Js.task q) = ValidDate sq ∧ rowEnd (Js.task q) = ValidDate eq
      ∧ sp < sq ∧ sq < ep - EPS
      ∧ Z.min ep eq - Z.max sp sq = 61000.
Proof.
  intros mapping cells rows tasks packed.
  split_and!; [by vm_compute..|].
  eexists _, _, 180000, 271000, 210000, 361000.
  split_and!; by vm_compute.
Qed.

(** *** The view on valid dates *)

Lemma List_filter_fmap {A B} (f : A → B) (P : B → bool) (l : list A) :
  List.filter P (f <$> l) = f <$> List.filter (λ x, P (f x)) l.
Proof.
  induction l as [|x l IH]; [done|].
  rewrite fmap_cons. cbn [List.filter]. rewrite IH.
  by destruct (P (f x)).
Qed.

Lemma isEmptyList_fmap {A B} (f : A → B) (l : list A) :
  isEmptyList (f <$> l) = isEmptyList l.
Proof. by destruct l. Qed.

Lemma Forall_List_filter {A} (P : A → Prop) (f : A → bool) (l : list A) :
  Forall P l → Forall P (List.filter f l).
Proof.
  intros Hl. rewrite Forall_forall in *. intros x Hx.
  apply elem_of_List_filter in Hx as [Hx _]. by apply Hl.
Qed.

Lemma intersects_rows timeFrom timeTo t :
  datesValid t →
  Js.intersects timeFrom timeTo t = intersects timeFrom timeTo (taskOfRow t).
Proof.
  intros Ht. destruct (datesValid_timeValue t Ht) as [Hs He].
  unfold Js.intersects, intersects. rewrite Hs, He.
  by destruct timeFrom, timeTo.
Qed.

Section ViewRowsFacts.
Variable arraySort : list RowTask → list RowTask.
Variable toLowerCase : string → string.
Variable trim : string → string.
Hypothesis arraySort_contract : sortsByStart arraySort.

(** On tasks with valid starts [routeTasks] is the function on
    instants. *)
Lemma routeTasks_rows allTasks query :
  Forall startValid allTasks →
  taskOfRow <$> Js.routeTasks arraySort toLowerCase trim allTasks query
  = routeTasks toLowerCase trim (taskOfRow <$> allTasks) query.
Proof.
  intros Hvalid. unfold Js.routeTasks, routeTasks.
  destruct (isEmptyString (trim query)); [done|].
  rewrite !List_filter_fmap, !isEmptyList_fmap.
  change (λ x, exactMatch toLowerCase (trim query) (taskOfRow x))
    with (Js.exactMatch toLowerCase (trim query)).
  change (λ x, partMatch toLowerCase (trim query) (taskOfRow x))
    with (Js.partMatch toLowerCase (trim query)).
  destruct arraySort_contract as [_ Hsort].
  destruct (negb _);
    by rewrite Hsort, insertionSort_valid by by apply Forall_List_filter.
Qed.

(** On tasks with valid dates [filtered] is the function on instants. *)
Lemma filtered_rows allTasks query (selectedMachines : gset string)
    timeFrom timeTo :
  Forall datesValid allTasks →
  taskOfRow <$> Js.filtered arraySort toLowerCase trim allTasks query
                  selectedMachines timeFrom timeTo
  = filtered toLowerCase trim (taskOfRow <$> allTasks) query
      selectedMachines timeFrom timeTo.
Proof.
  intros Hvalid.
  assert (Hsv : Forall startValid allTasks)
    by (eapply Forall_impl; [exact Hvalid|apply datesValid_startValid]).
  unfold Js.filtered, filtered.
  rewrite <- (routeTasks_rows allTasks query Hsv), !isEmptyList_fmap.
  set (route := Js.routeTasks arraySort toLowerCase trim allTasks query).
  assert (Hroute : Forall datesValid route).
  { rewrite Forall_forall. intros x Hx. unfold route, Js.routeTasks in Hx.
    destruct arraySort_contract as [Hperm _].
    destruct (isEmptyString (trim query)); [by apply elem_of_nil in Hx|].
    rewrite Forall_forall in Hvalid. apply Hvalid.
    destruct (negb _); rewrite Hperm in Hx;
      by apply elem_of_List_filter in Hx as [Hx _]. }
  set (base0 := if negb (isEmptyList route) then route else allTasks).
  assert (Hb0 : Forall datesValid base0)
    by (unfold base0; by destruct (negb _)).
  replace (if negb (isEmptyList route) then taskOfRow <$> route
           else taskOfRow <$> allTasks)
    with (taskOfRow <$> base0) by (unfold base0; by destruct (negb _)).
  set (base1 := if (0 <? size selectedMachines)%nat
                then List.filter
                       (λ t, bool_decide (rowResource t ∈ selectedMachines))
                       base0
                else base0).
  assert (Hb1 : Forall datesValid base1).
  { unfold base1. destruct (0 <? size selectedMachines)%nat; [|done].
    by apply Forall_List_filter. }
  replace (if (0 <? size selectedMachines)%nat
           then List.filter
                  (λ t, bool_decide (resource t ∈ selectedMachines))
                  (taskOfRow <$> base0)
           else taskOfRow <$> base0)
    with (taskOfRow <$> base1).
  2:{ unfold base1. destruct (0 <? size selectedMachines)%nat; [|done].
      by rewrite List_filter_fmap. }
  set (base2 := if isEmptyList route && negb (isEmptyString query)
                then List.filter (Js.partMatch toLowerCase query) base1
                else base1).
  assert (Hb2 : Forall datesValid base2).
  { unfold base2. destruct (_ && _); [|done]. by apply Forall_List_filter. }
  replace (if isEmptyList route && negb (isEmptyString query)
           then List.filter (partMatch toLowerCase query) (taskOfRow <$> base1)
           else taskOfRow <$> base1)
    with (taskOfRow <$> base2).
  2:{ unfold base2. destruct (_ && _); [|done]. by rewrite List_filter_fmap. }
  rewrite List_filter_fmap. f_equal.
  apply List.filter_ext_in. intros t Ht. apply intersects_rows.
  rewrite Forall_forall in Hb2. apply Hb2. rewrite list_elem_of_In. exact Ht.
Qed.
End ViewRowsFacts.

(** *** The route *)

Section RouteRowsFacts.
Variable arraySort : list RowTask → list RowTask.
Variable toLowerCase : string → string.
Variable trim : string → string.
Hypothesis arraySort_contract : sortsByStart arraySort.

(** Whatever the dates, the route holds the exact matches when there is
    one and the substring matches otherwise, each once. *)
Lemma routeTasks_rows_matches allTasks query :
  trim query ≠ EmptyString →
  let q := trim query in
  let route := Js.routeTasks arraySort toLowerCase trim allTasks query in
  let exact := List.filter (Js.exactMatch toLowerCase q) allTasks in
  let part := List.filter (Js.partMatch toLowerCase q) allTasks in
  (exact ≠ [] → route ≡ₚ exact)
  ∧ (exact = [] → route ≡ₚ part).
Proof.
  intros Hq q route exact part. subst route. unfold Js.routeTasks.
  fold q. rewrite (isEmptyString_false q Hq). fold exact part.
  destruct arraySort_contract as [Hperm _]. split.
  - intros Hne. rewrite (isEmptyList_false _ Hne). apply Hperm.
  - intros ->. apply Hperm.
Qed.

(** When the starts of its tasks are valid, the route is in ascending
    order of start. *)
Lemma routeTasks_rows_sorted allTasks query i j a b :
  let route := Js.routeTasks arraySort toLowerCase trim allTasks query in
  Forall startValid route →
  (i < j)%nat → route !! i = Some a → route !! j = Some b →
  ∃ sa sb, rowStart a = ValidDate sa ∧ rowStart b = ValidDate sb ∧ sa <= sb.
Proof.
  intros route Hvalid Hij Ha Hb.
  destruct arraySort_contract as [Hperm Hsort].
  assert (Hsorted : ∀ l, Forall startValid (arraySort l) →
            arraySort l !! i = Some a → arraySort l !! j = Some b →
            ∃ sa sb, rowStart a = ValidDate sa ∧ rowStart b = ValidDate sb
                     ∧ sa <= sb).
  { intros l Hl' Hia Hjb.
    assert (Hl : Forall startValid l).
    { rewrite Forall_forall in *. intros x Hx. apply Hl'. by rewrite Hperm. }
    assert (Hva : startValid a).
    { rewrite Forall_forall in Hl'. apply Hl'.
      by eapply list_elem_of_lookup_2. }
    assert (Hvb : startValid b).
    { rewrite Forall_forall in Hl'. apply Hl'.
      by eapply list_elem_of_lookup_2. }
    rewrite (Hsort l Hl) in Hia, Hjb.
    pose proof (sortByStart_sorted (taskOfRow <$> l)) as Hs.
    rewrite <- insertionSort_valid in Hs by done.
    pose proof (sorted_lookup_le _ i j (taskOfRow a) (taskOfRow b) Hs Hij)
      as Hle.
    rewrite !list_lookup_fmap, Hia, Hjb in Hle. specialize (Hle eq_refl eq_refl).
    destruct Hva as [sa Hsa], Hvb as [sb Hsb]. exists sa, sb.
    split_and!; [done..|]. revert Hle. unfold taskOfRow. cbn.
    by rewrite Hsa, Hsb. }
  subst route. unfold Js.routeTasks in Hvalid, Ha, Hb.
  destruct (isEmptyString (trim query)); [by rewrite lookup_nil in Ha|].
  destruct (negb _); (eapply Hsorted; [exact Hvalid|exact Ha|exact Hb]).
Qed.
End RouteRowsFacts.

(** C6.  Three tasks with the identifier 100, on three machines, the
    second with an Invalid Date as start (the tasks as [allTasks] orders
    them, by resource).  The route for the query 100 holds the three exact
    matches, but sorting them by start compares with NaN and leaves them as
    they are: the task that starts at 5000 comes before the one that
    starts at 1000, so the route is not in ascending order of start. *)
Theorem routeTasks_invalid_date_out_of_order :
  let u := mkRowTask "100" "M1" (ValidDate 5000) (ValidDate 6000) None ∅ in
  let n := mkRowTask "100" "M2" InvalidDate (ValidDate 9000) None ∅ in
  let t := mkRowTask "100" "M3" (ValidDate 1000) (ValidDate 2000) None ∅ in
  let route :=
    Js.routeTasks Js.insertionSort asciiLower asciiTrim [u; n; t] "100" in
  route = [u; n; t]
  ∧ ∃ a b sa sb,
      route !! 0%nat = Some a ∧ route !! 2%nat = Some b
      ∧ rowStart a = ValidDate sa ∧ rowStart b = ValidDate sb
      ∧ sb < sa.
Proof.
  intros u n t route. split; [by vm_compute|].
  exists u, t, 5000, 1000. split_and!; by vm_compute.
Qed.

(** *** The time domain *)


(** A first task with an Invalid Date as start leaves the domain without
    a lower end: [min] is NaN. *)
Lemma computedMinMax_invalid_first_start (t0 : RowTask)
    (rest allTasks : list RowTask) (timeFrom timeTo : option Z) (now : Z) :
  rowStart t0 = InvalidDate →
  Js.min (Js.computedMinMax (t0 :: rest) allTasks timeFrom timeTo now)
  = None.
Proof.
  intros Hs. unfold Js.computedMinMax. cbn [isEmptyList negb].
  assert (Hscan : ∀ l mm, Js.min mm = None →
            Js.min (foldl Js.widen mm l) = None).
  { induction l as [|t l IH]; intros mm Hmm; [done|].
    cbn [foldl]. apply IH. unfold Js.widen. cbn [Js.min]. rewrite Hmm.
    by destruct (Js.timeValue (rowStart t)). }
  cbn [Js.addMargin Js.min]. rewrite Hscan; [by destruct timeFrom|].
  cbn. by rewrite Hs.
Qed.




(** *** First fit, lane count and ties, with valid dates *)

(** X1.  For tasks with valid dates, [packLanes] puts every task into the
    first lane that is free for it: each lane above the task's own holds a
    task that was placed before it, starts no later, and ends more than
    60,000 ms after the task starts. *)
Theorem packLanes_first_fit (arraySort : list RowTask → list RowTask)
    (tasks : list RowTask) (j l : nat) (q : Js.LanedTask) :
  sortsByStart arraySort → Forall datesValid tasks →
  Js.placedTasks (Js.packLanes arraySort tasks) !! j = Some q →
  (l < Js.lane q)%nat →
  ∃ i p sp ep sq,
    (i < j)%nat
    ∧ Js.placedTasks (Js.packLanes arraySort tasks) !! i = Some p
    ∧ Js.lane p = l
    ∧ rowStart (Js.task p) = ValidDate sp ∧ rowEnd (Js.task p) = ValidDate ep
    ∧ rowStart (Js.task q) = ValidDate sq
    ∧ sp <= sq ∧ sq < ep - 60000.
Proof.
  intros Hsort Hvalid Hj Hl.
  destruct (placedTasks_rows_lookup _ _ _ _ Hsort Hvalid Hj) as [Hj' Hvq].
  destruct (packLanes_firstFit (taskOfRow <$> tasks)) as [_ Hff].
  destruct (Hff j (lanedOfRow q) l Hj' Hl) as (i & p' & Hij & Hi & Hlp & Hcol).
  destruct (placedTasks_rows_lookup_inv _ _ _ _ Hsort Hvalid Hi)
    as (p & Hp & ->).
  destruct (placedTasks_rows_lookup _ _ _ _ Hsort Hvalid Hp) as [_ Hvp].
  destruct (datesValid_dates _ Hvp) as [Hsp Hep].
  destruct (datesValid_dates _ Hvq) as [Hsq _].
  eexists i, p, _, _, _. split_and!; [done..| |exact Hcol].
  by eapply (packLanes_sorted (taskOfRow <$> tasks) i j (lanedOfRow p)
               (lanedOfRow q)).
Qed.

Lemma packLanes_first_fit_witness :
  let a := mkRowTask "a" "M1" (ValidDate 0) (ValidDate 7200000) None ∅ in
  let b := mkRowTask "b" "M1" (ValidDate 10) (ValidDate 20) None ∅ in
  let q := Js.mkLaned b 1 in
  sortsByStart Js.insertionSort ∧ Forall datesValid [a; b]
  ∧ Js.placedTasks (Js.packLanes Js.insertionSort [a; b]) !! 1%nat = Some q
  ∧ (0 < Js.lane q)%nat
  ∧ ∃ i p sp ep sq,
      (i < 1)%nat
      ∧ Js.placedTasks (Js.packLanes Js.insertionSort [a; b]) !! i = Some p
      ∧ Js.lane p = 0%nat
      ∧ rowStart (Js.task p) = ValidDate sp
      ∧ rowEnd (Js.task p) = ValidDate ep
      ∧ rowStart (Js.task q) = ValidDate sq
      ∧ sp <= sq ∧ sq < ep - 60000.
Proof.
  intros a b q.
  assert (Hsort : sortsByStart Js.insertionSort)
    by exact insertionSort_sortsByStart.
  assert (Hvalid : Forall datesValid [a; b]).
  { repeat constructor; eexists _, _; split; reflexivity. }
  assert (H1 : Js.placedTasks (Js.packLanes Js.insertionSort [a; b]) !! 1%nat
               = Some q) by reflexivity.
  assert (H2 : (0 < Js.lane q)%nat) by (cbn; lia).
  split_and!; [exact Hsort|exact Hvalid|exact H1|exact H2|].
  exact (packLanes_first_fit Js.insertionSort [a; b] 1 0 q Hsort Hvalid H1 H2).
Defined.

(** X3.  For tasks with valid dates, no assignment of lanes gets by with
    fewer lanes than [packLanes]: if [f] gives a lane below [m] to each
    task, by its position in the order of packing (ascending start, ties
    in the order of the input), and two tasks share a lane only when the
    one that is later in that order starts no earlier than the other's end
    minus 60,000 ms (the rule [packLanes] keeps), then [laneCount] is at
    most [m]. *)
Theorem packLanes_lane_count_minimal
    (arraySort : list RowTask → list RowTask) (tasks : list RowTask)
    (f : nat → nat) (m : nat) :
  sortsByStart arraySort → Forall datesValid tasks → tasks ≠ [] →
  (∀ i, (i < length tasks)%nat → (f i < m)%nat) →
  (∀ i j a b ea sb, (i < j)%nat →
     arraySort tasks !! i = Some a → arraySort tasks !! j = Some b →
     f i = f j →
     rowEnd a = ValidDate ea → rowStart b = ValidDate sb →
     ea - 60000 <= sb) →
  (Js.laneCount (Js.packLanes arraySort tasks) <= m)%nat.
Proof.
  intros Hsort Hvalid Hne Hm Hsep.
  destruct (packLanes_rows arraySort tasks Hsort Hvalid) as [_ ->].
  assert (Hsv : Forall startValid tasks)
    by (eapply Forall_impl; [exact Hvalid|apply datesValid_startValid]).
  apply (packLanes_lane_count_minimal_instants (taskOfRow <$> tasks) f m).
  - by destruct tasks.
  - intros i Hi. apply Hm. by rewrite length_fmap in Hi.
  - intros i j a' b' Hij Ha Hb Hf.
    rewrite <- insertionSort_valid, <- (proj2 Hsort tasks Hsv) in Ha, Hb
      by done.
    rewrite list_lookup_fmap in Ha, Hb.
    destruct (arraySort tasks !! i) as [a|] eqn:Hia; [|done].
    destruct (arraySort tasks !! j) as [b|] eqn:Hjb; [|done].
    injection Ha as <-. injection Hb as <-.
    assert (Hva : datesValid a).
    { rewrite Forall_forall in Hvalid. apply Hvalid.
      rewrite <- (proj1 Hsort). by eapply list_elem_of_lookup_2. }
    assert (Hvb : datesValid b).
    { rewrite Forall_forall in Hvalid. apply Hvalid.
      rewrite <- (proj1 Hsort). by eapply list_elem_of_lookup_2. }
    destruct (datesValid_dates _ Hva) as [_ Hea].
    destruct (datesValid_dates _ Hvb) as [Hsb _].
    by apply (Hsep i j a b).
Qed.

Lemma packLanes_lane_count_minimal_witness :
  let a := mkRowTask "a" "M1" (ValidDate 0) (ValidDate 7200000) None ∅ in
  let b := mkRowTask "b" "M1" (ValidDate 10) (ValidDate 20) None ∅ in
  let c := mkRowTask "c" "M1" (ValidDate 7200000) (ValidDate 9000000)
             None ∅ in
  let tasks := [a; b; c] in
  let f := λ i : nat, match i with 1%nat => 1%nat | _ => 0%nat end in
  sortsByStart Js.insertionSort ∧ Forall datesValid tasks ∧ tasks ≠ []
  ∧ (∀ i, (i < length tasks)%nat → (f i < 2)%nat)
  ∧ (Js.laneCount (Js.packLanes Js.insertionSort tasks) <= 2)%nat.
Proof.
  intros a b c tasks f.
  assert (Hsort : sortsByStart Js.insertionSort)
    by exact insertionSort_sortsByStart.
  assert (Hvalid : Forall datesValid tasks).
  { repeat constructor; eexists _, _; split; reflexivity. }
  assert (Hne : tasks ≠ []) by discriminate.
  assert (Hm : ∀ i, (i < length tasks)%nat → (f i < 2)%nat).
  { intros [|[|i]] _; cbn; lia. }
  assert (Hsep : ∀ i j x y ea sb, (i < j)%nat →
            Js.insertionSort tasks !! i = Some x →
            Js.insertionSort tasks !! j = Some y →
            f i = f j →
            rowEnd x = ValidDate ea → rowStart y = ValidDate sb →
            ea - 60000 <= sb).
  { intros [|[|[|i]]] [|[|[|j]]] x y ea sb Hij Hx Hy Hf;
      try lia; try discriminate;
      cbn in Hx, Hy; injection Hx as <-; injection Hy as <-; cbn;
      intros [= <-] [= <-]; lia. }
  split_and!; [exact Hsort|exact Hvalid|exact Hne|exact Hm|].
  exact (packLanes_lane_count_minimal Js.insertionSort tasks f 2
           Hsort Hvalid Hne Hm Hsep).
Defined.

Lemma insertByStart_rows_filter (P : RowTask → bool) t l :
  (∀ u, P u = true → Js.compareStart t u <= 0) →
  List.filter P (Js.insertByStart t l) = List.filter P (t :: l).
Proof.
  intros HP. induction l as [|u r IH]; [done|].
  cbn [Js.insertByStart].
  destruct (Z.leb_spec (Js.compareStart t u) 0) as [Hle|Hgt]; [done|].
  cbn [List.filter] in *. rewrite IH.
  destruct (P u) eqn:Hu; [|done].
  apply HP in Hu. lia.
Qed.

Lemma insertionSort_stable (s : Z) l :
  List.filter (startsAt s) (Js.insertionSort l) = List.filter (startsAt s) l.
Proof.
  induction l as [|t r IH]; [done|].
  cbn [Js.insertionSort foldr]. fold (Js.insertionSort r).
  destruct (startsAt s t) eqn:Ht.
  - rewrite insertByStart_rows_filter.
    + cbn [List.filter]. by rewrite Ht, IH.
    + intros u Hu. unfold startsAt in Ht, Hu. unfold Js.compareStart.
      destruct (rowStart t) as [x|]; [|done].
      destruct (rowStart u) as [y|]; [|done]. cbn.
      apply Z.eqb_eq in Ht, Hu. lia.
  - transitivity (List.filter (startsAt s) (Js.insertionSort r)).
    + clear IH. induction (Js.insertionSort r) as [|u r' IH']; cbn.
      * by rewrite Ht.
      * destruct (Js.compareStart t u <=? 0); cbn.
        -- by rewrite Ht.
        -- by rewrite IH'.
    + rewrite IH. cbn. by rewrite Ht.
Qed.

(** X4.  For tasks whose starts are valid dates, under any engine: the
    placed tasks come in ascending order of start, and the tasks of one
    start are placed in the order of the input. *)
Theorem packLanes_ties_keep_input_order
    (arraySort : list RowTask → list RowTask) (tasks : list RowTask)
    (s : Z) :
  sortsByStart arraySort → Forall startValid tasks →
  List.filter (startsAt s)
    (Js.task <$> Js.placedTasks (Js.packLanes arraySort tasks))
  = List.filter (startsAt s) tasks
  ∧ ∀ i j a b, (i < j)%nat →
      Js.placedTasks (Js.packLanes arraySort tasks) !! i = Some a →
      Js.placedTasks (Js.packLanes arraySort tasks) !! j = Some b →
      ∃ sa sb, rowStart (Js.task a) = ValidDate sa
               ∧ rowStart (Js.task b) = ValidDate sb ∧ sa <= sb.
Proof.
  intros Hsort Hvalid. rewrite packLanes_rows_tasks.
  rewrite (proj2 Hsort tasks Hvalid). split.
  - apply insertionSort_stable.
  - intros i j a b Hij Ha Hb.
    assert (Hta : Js.insertionSort tasks !! i = Some (Js.task a)).
    { rewrite <- (proj2 Hsort tasks Hvalid), <- packLanes_rows_tasks.
      by rewrite list_lookup_fmap, Ha. }
    assert (Htb : Js.insertionSort tasks !! j = Some (Js.task b)).
    { rewrite <- (proj2 Hsort tasks Hvalid), <- packLanes_rows_tasks.
      by rewrite list_lookup_fmap, Hb. }
    assert (Hva : startValid (Js.task a)).
    { rewrite Forall_forall in Hvalid. apply Hvalid.
      rewrite <- insertionSort_perm. by eapply list_elem_of_lookup_2. }
    assert (Hvb : startValid (Js.task b)).
    { rewrite Forall_forall in Hvalid. apply Hvalid.
      rewrite <- insertionSort_perm. by eapply list_elem_of_lookup_2. }
    pose proof (sortByStart_sorted (taskOfRow <$> tasks)) as Hs.
    rewrite <- insertionSort_valid in Hs by done.
    pose proof (sorted_lookup_le _ i j (taskOfRow (Js.task a))
                  (taskOfRow (Js.task b)) Hs Hij) as Hle.
    rewrite !list_lookup_fmap, Hta, Htb in Hle.
    specialize (Hle eq_refl eq_refl).
    destruct Hva as [sa Hsa], Hvb as [sb Hsb]. exists sa, sb.
    split_and!; [done..|]. revert Hle. unfold taskOfRow. cbn.
    by rewrite Hsa, Hsb.
Qed.

Lemma packLanes_ties_keep_input_order_witness :
  let a := mkRowTask "a" "M1" (ValidDate 10) (ValidDate 7200000) None ∅ in
  let b := mkRowTask "b" "M1" (ValidDate 0) (ValidDate 20) None ∅ in
  let c := mkRowTask "c" "M1" (ValidDate 10) (ValidDate 30) None ∅ in
  sortsByStart Js.insertionSort ∧ Forall startValid [a; b; c]
  ∧ List.filter (startsAt 10)
      (Js.task <$> Js.placedTasks (Js.packLanes Js.insertionSort [a; b; c]))
    = [a; c].
Proof.
  intros a b c.
  assert (Hsort : sortsByStart Js.insertionSort)
    by exact insertionSort_sortsByStart.
  assert (Hvalid : Forall startValid [a; b; c]).
  { repeat constructor; eexists; reflexivity. }
  split_and!; [exact Hsort|exact Hvalid|].
  exact (proj1 (packLanes_ties_keep_input_order Js.insertionSort [a; b; c] 10
                  Hsort Hvalid)).
Defined.
